(** * AddAtomicMutex: the lowering pass that adds mutex allocation and
    lock/unlock calls around atomic nodes, and first removes the mutexes
    that are not needed (src/AddAtomicMutex.cpp).

    The IR is a DAG of immutable, reference-counted nodes.  A node is
    embedded as the tree below it, and every node carries the address of
    the object it is ([node_id]): two occurrences with the same address
    are the same object, reached through two parents.  The graph visitors
    memoize on these addresses; the mutators rebuild nodes and draw the
    addresses of new nodes from a counter. *)

From stdpp Require Import gmap strings list.

Open Scope string_scope.
Set Warnings "-register-all,-clear-no-such-hyp".

(** ** The IR *)

Definition node_id := nat.

Inductive Type_ :=
  | Int_ (bits : nat)
  | UInt_ (bits : nat)
  | Float_ (bits : nat)
  | Handle_.

Inductive MemoryType := Auto | Heap | Stack | Register | GPUShared.

Inductive CallType :=
  | Image | Extern | ExternCPlusPlus | PureExtern | Halide | Intrinsic | PureIntrinsic.

(** Expressions.  The field order follows the [make] functions. *)
Inductive Expr :=
  | IntImm (id : node_id) (t : Type_) (value : Z)
  | UIntImm (id : node_id) (t : Type_) (value : Z)
  | Variable_ (id : node_id) (t : Type_) (name : string)
  | Add (id : node_id) (a b : Expr)
  | Mul (id : node_id) (a b : Expr)
  | Load (id : node_id) (t : Type_) (name : string) (index predicate : Expr)
  | Call (id : node_id) (t : Type_) (name : string) (args : list Expr) (call_type : CallType)
  | Let_ (id : node_id) (name : string) (value body : Expr).

(** Statements.  [new_expr] of an [Allocate] may be an undefined handle. *)
Inductive Stmt :=
  | LetStmt (id : node_id) (name : string) (value : Expr) (body : Stmt)
  | Store (id : node_id) (name : string) (value index predicate : Expr)
  | Atomic (id : node_id) (producer_name mutex_name : string) (body : Stmt)
  | Allocate (id : node_id) (name : string) (t : Type_) (memory_type : MemoryType)
      (extents : list Expr) (condition : Expr) (body : Stmt)
      (new_expr : option Expr) (free_function : string)
  | ProducerConsumer (id : node_id) (name : string) (is_producer : bool) (body : Stmt)
  | Block (id : node_id) (first rest : Stmt)
  | Evaluate (id : node_id) (value : Expr)
  | For (id : node_id) (name : string) (min extent : Expr) (body : Stmt).

Definition expr_id (e : Expr) : node_id :=
  match e with
  | IntImm i _ _ | UIntImm i _ _ | Variable_ i _ _ | Add i _ _ | Mul i _ _
  | Load i _ _ _ _ | Call i _ _ _ _ | Let_ i _ _ _ => i
  end.

Definition stmt_id (s : Stmt) : node_id :=
  match s with
  | LetStmt i _ _ _ | Store i _ _ _ _ | Atomic i _ _ _ | Allocate i _ _ _ _ _ _ _ _
  | ProducerConsumer i _ _ _ | Block i _ _ | Evaluate i _ | For i _ _ _ _ => i
  end.

(** Induction on expressions that also goes through the argument list of a
    call. *)
Section ExprInd.
Variable P : Expr → Prop.
Hypothesis HIntImm : ∀ i t v, P (IntImm i t v).
Hypothesis HUIntImm : ∀ i t v, P (UIntImm i t v).
Hypothesis HVariable : ∀ i t n, P (Variable_ i t n).
Hypothesis HAdd : ∀ i a b, P a → P b → P (Add i a b).
Hypothesis HMul : ∀ i a b, P a → P b → P (Mul i a b).
Hypothesis HLoad : ∀ i t n ix p, P ix → P p → P (Load i t n ix p).
Hypothesis HCall : ∀ i t n args ct, Forall P args → P (Call i t n args ct).
Hypothesis HLet : ∀ i n v b, P v → P b → P (Let_ i n v b).

Fixpoint Expr_ind' (e : Expr) : P e :=
  match e with
  | IntImm i t v => HIntImm i t v
  | UIntImm i t v => HUIntImm i t v
  | Variable_ i t n => HVariable i t n
  | Add i a b => HAdd i a b (Expr_ind' a) (Expr_ind' b)
  | Mul i a b => HMul i a b (Expr_ind' a) (Expr_ind' b)
  | Load i t n ix p => HLoad i t n ix p (Expr_ind' ix) (Expr_ind' p)
  | Call i t n args ct =>
      HCall i t n args ct
        ((fix go (l : list Expr) : Forall P l :=
            match l with
            | [] => List.Forall_nil P
            | a :: l' => List.Forall_cons _ a l' (Expr_ind' a) (go l')
            end) args)
  | Let_ i n v b => HLet i n v b (Expr_ind' v) (Expr_ind' b)
  end.
End ExprInd.

(** ** Scope *)

(** Modelled from the spec: Scope (Scope.h is not part of the sources at
    hand), "an explicit stack of (name, bound-value) pairs with
    push-on-enter/pop-on-exit discipline": the innermost binding for a name
    wins, and is the one that a pop removes. *)
Module Scope.
Definition t (T : Type) := list (string * T).

Definition push {T} (name : string) (value : T) (sc : t T) : t T :=
  (name, value) :: sc.

Fixpoint pop {T} (name : string) (sc : t T) : t T :=
  match sc with
  | [] => []
  | (x, v) :: rest => if String.eqb x name then rest else (x, v) :: pop name rest
  end.

Fixpoint get {T} (name : string) (sc : t T) : option T :=
  match sc with
  | [] => None
  | (x, v) :: rest => if String.eqb x name then Some v else get name rest
  end.

Definition contains {T} (name : string) (sc : t T) : bool :=
  match get name sc with Some _ => true | None => false end.
End Scope.

(** ** IRGraphVisitor *)

(** The state of a graph visitor: the set of addresses visited so far and
    the fields of the derived class. *)
Record gv_state (X : Type) := GV { gv_visited : gset node_id; gv_data : X }.
Arguments GV {X} _ _.
Arguments gv_visited {X} _.
Arguments gv_data {X} _.

Definition with_data {X : Type} (f : X → X) (st : gv_state X) : gv_state X :=
  GV (gv_visited st) (f (gv_data st)).

(** Modelled from the spec: IRGraphVisitor (IRVisitor.h is not part of the
    sources at hand).  It "visits each distinct node object at most once per
    traversal instance (memoized by identity)": [include] looks the address
    of the node up in the visited set, and only visits a node that is new.
    The default visit of a node includes its children in order. *)
Module IRGraphVisitor.
Definition include {N X : Type} (id_of : N → node_id)
    (visit : N → gv_state X → gv_state X) (n : N) (st : gv_state X) : gv_state X :=
  if decide (id_of n ∈ gv_visited st) then st
  else visit n (GV ({[id_of n]} ∪ gv_visited st) (gv_data st)).

(** The default visit of an expression, given how the visitor at hand
    includes an expression. *)
Definition visit_expr {X : Type} (inc_e : Expr → gv_state X → gv_state X)
    (e : Expr) (st : gv_state X) : gv_state X :=
  match e with
  | IntImm _ _ _ | UIntImm _ _ _ | Variable_ _ _ _ => st
  | Add _ a b | Mul _ a b => inc_e b (inc_e a st)
  | Load _ _ _ index predicate => inc_e index (inc_e predicate st)
  | Call _ _ _ args _ => fold_left (λ st a, inc_e a st) args st
  | Let_ _ _ value body => inc_e body (inc_e value st)
  end.

(** A visitor that overrides no expression visit. *)
Fixpoint accept_expr {X : Type} (e : Expr) (st : gv_state X) : gv_state X :=
  visit_expr (include expr_id accept_expr) e st.

Definition include_expr {X : Type} : Expr → gv_state X → gv_state X :=
  include expr_id accept_expr.

(** The default visit of a statement, given how the visitor at hand
    includes an expression and a statement. *)
Definition visit_stmt {X : Type}
    (inc_e : Expr → gv_state X → gv_state X)
    (inc_s : Stmt → gv_state X → gv_state X)
    (s : Stmt) (st : gv_state X) : gv_state X :=
  match s with
  | LetStmt _ _ value body => inc_s body (inc_e value st)
  | Store _ _ value index predicate =>
      inc_e index (inc_e value (inc_e predicate st))
  | Atomic _ _ _ body => inc_s body st
  | Allocate _ _ _ _ extents condition body new_expr _ =>
      let st := fold_left (λ st e, inc_e e st) extents st in
      let st := inc_e condition st in
      let st := match new_expr with Some e => inc_e e st | None => st end in
      inc_s body st
  | ProducerConsumer _ _ _ body => inc_s body st
  | Block _ first rest => inc_s rest (inc_s first st)
  | Evaluate _ value => inc_e value st
  | For _ _ min extent body => inc_s body (inc_e extent (inc_e min st))
  end.
End IRGraphVisitor.

(** ** expr_uses_vars *)

(** Modelled from the spec: expr_uses_vars (ExprUsesVar.h is not part of the
    sources at hand), the "variable-dependency test that, given a variable
    reference and a scope of active let-bindings, determines whether that
    reference transitively depends on any name in a given set".  A name
    depends on the set when it is in it, or when its innermost binding is to
    a value that mentions (as a variable, a load or a call) a name that
    depends on it under the bindings that were active at that binding. *)
Module ExprUsesVar.
Fixpoint expr_uses {T} (vars : Scope.t T) (dep : string → bool) (e : Expr) : bool :=
  let visit_name n := Scope.contains n vars || dep n in
  match e with
  | IntImm _ _ _ | UIntImm _ _ _ => false
  | Variable_ _ _ n => visit_name n
  | Add _ a b | Mul _ a b => expr_uses vars dep a || expr_uses vars dep b
  | Load _ _ n index predicate =>
      visit_name n || expr_uses vars dep predicate || expr_uses vars dep index
  | Call _ _ n args _ => visit_name n || existsb (expr_uses vars dep) args
  | Let_ _ n value body =>
      expr_uses vars dep value
      || expr_uses vars
           (λ x, if String.eqb x n then expr_uses vars dep value else dep x) body
  end.

Fixpoint name_depends {T} (vars : Scope.t T) (scope : Scope.t Expr) (n : string) : bool :=
  match scope with
  | [] => false
  | (x, e) :: rest =>
      if String.eqb x n then expr_uses vars (name_depends vars rest) e
      else name_depends vars rest n
  end.

Definition expr_uses_vars {T} (e : Expr) (vars : Scope.t T) (scope : Scope.t Expr) : bool :=
  expr_uses vars (name_depends vars scope) e.
End ExprUsesVar.

(** ** FindAtomicLetBindings *)

(** Search if the value of a Store node has a variable pointing to a let
    binding, where the let binding contains the Store location. *)
Module FindAtomicLetBindings.
Record fields := Fields {
  found : bool;
  inside_store : string;
  let_bindings : Scope.t Expr
}.

Definition set_found (f : fields) : fields :=
  Fields true (inside_store f) (let_bindings f).
Definition set_inside_store (s : string) (f : fields) : fields :=
  Fields (found f) s (let_bindings f).
(** ScopedBinding<Expr>: pushed by the constructor, popped by the
    destructor. *)
Definition bind (name : string) (value : Expr) (f : fields) : fields :=
  Fields (found f) (inside_store f) (Scope.push name value (let_bindings f)).
Definition unbind (name : string) (f : fields) : fields :=
  Fields (found f) (inside_store f) (Scope.pop name (let_bindings f)).

Section Visit.
Variable store_names : Scope.t unit.

Fixpoint visit_expr (e : Expr) (st : gv_state fields) : gv_state fields :=
  let include := IRGraphVisitor.include expr_id visit_expr in
  match e with
  | Let_ _ name value body =>
      let st := include value st in
      let st := with_data (bind name value) st in
      let st := include body st in
      with_data (unbind name) st
  | Variable_ _ _ _ =>
      if negb (String.eqb (inside_store (gv_data st)) "") then
        if ExprUsesVar.expr_uses_vars e store_names (let_bindings (gv_data st))
        then with_data set_found st
        else st
      else st
  | _ => IRGraphVisitor.visit_expr include e st
  end.

Definition include_expr : Expr → gv_state fields → gv_state fields :=
  IRGraphVisitor.include expr_id visit_expr.

Fixpoint visit_stmt (s : Stmt) (st : gv_state fields) : gv_state fields :=
  let include := IRGraphVisitor.include stmt_id visit_stmt in
  match s with
  | LetStmt _ name value body =>
      let st := include_expr value st in
      let st := with_data (bind name value) st in
      let st := include body st in
      with_data (unbind name) st
  | Store _ name value index predicate =>
      let st := include_expr predicate st in
      let st :=
        if Scope.contains name store_names then
          (* ScopedValue<string> old_inside_store(inside_store, op->name) *)
          let old_inside_store := inside_store (gv_data st) in
          let st := with_data (set_inside_store name) st in
          let st := include_expr value st in
          with_data (set_inside_store old_inside_store) st
        else include_expr value st in
      include_expr index st
  | _ => IRGraphVisitor.visit_stmt include_expr include s st
  end.
End Visit.

(** [op->body.accept(&finder)] on a new finder; the result is
    [finder.found]. *)
Definition run (store_names : Scope.t unit) (body : Stmt) : bool :=
  found (gv_data (visit_stmt store_names body (GV ∅ (Fields false "" [])))).
End FindAtomicLetBindings.

(** ** CollectStoreNames: collect all store's names inside a statement *)
Module CollectStoreNames.
Fixpoint visit_stmt (s : Stmt) (st : gv_state (Scope.t unit)) : gv_state (Scope.t unit) :=
  match s with
  | Store _ name value index predicate =>
      let st := IRGraphVisitor.include_expr predicate st in
      let st := IRGraphVisitor.include_expr value st in
      let st := IRGraphVisitor.include_expr index st in
      with_data (Scope.push name tt) st
  | _ =>
      IRGraphVisitor.visit_stmt IRGraphVisitor.include_expr
        (IRGraphVisitor.include stmt_id visit_stmt) s st
  end.

(** [op->body.accept(&collector)] on a new collector; the result is
    [collector.store_names]. *)
Definition run (body : Stmt) : Scope.t unit :=
  gv_data (visit_stmt body (GV ∅ [])).
End CollectStoreNames.

(** ** Mutators *)

(** What a mutation ends in: a statement, the failure of an
    [internal_assert], which aborts compilation with its message, the use
    of an iterator that points nowhere, or a read through a reference to an
    object that has been destroyed.  After the last two the program has no
    defined behaviour. *)
Inductive outcome (A : Type) :=
  | Done (a : A)
  | InternalError (msg : string)
  | InvalidDereference
  | DanglingReference.
Arguments Done {A} _.
Arguments InternalError {A} _.
Arguments InvalidDereference {A}.
Arguments DanglingReference {A}.

(** The state of a mutator: the address the next new node gets, and the
    fields of the derived class. *)
Record mut_state (X : Type) := MS { ms_next : node_id; ms_data : X }.
Arguments MS {X} _ _.
Arguments ms_next {X} _.
Arguments ms_data {X} _.

Definition M (X A : Type) := mut_state X → outcome (A * mut_state X).

Definition ret {X A} (a : A) : M X A := λ st, Done (a, st).

Definition bind {X A B} (m : M X A) (k : A → M X B) : M X B :=
  λ st,
    match m st with
    | Done (a, st') => k a st'
    | InternalError msg => InternalError msg
    | InvalidDereference => InvalidDereference
    | DanglingReference => DanglingReference
    end.

Notation "x <- m ;; k" := (bind m (λ x, k))
  (at level 100, m at next level, right associativity).
Notation "m ;;; k" := (bind m (λ _, k))
  (at level 100, right associativity).

Definition get_data {X} : M X X := λ st, Done (ms_data st, st).
Definition modify_data {X} (f : X → X) : M X unit :=
  λ st, Done (tt, MS (ms_next st) (f (ms_data st))).
Definition internal_error {X A} (msg : string) : M X A := λ _, InternalError msg.
Definition invalid_dereference {X A} : M X A := λ _, InvalidDereference.
Definition dangling_reference {X A} : M X A := λ _, DanglingReference.

(** A new node: its address is one no node has had yet. *)
Definition fresh {X} : M X node_id :=
  λ st, Done (ms_next st, MS (S (ms_next st)) (ms_data st)).
Definition make {X N} (node : node_id → N) : M X N :=
  i <- fresh ;; ret (node i).

(** Modelled from the spec: IRMutator (IRMutator.h is not part of the
    sources at hand), the "generic rebuild children, then inspect
    tree-mutation facility".  Neither mutator of this file overrides the
    visit of an expression, so every expression comes back as the object it
    was; a statement whose children all come back as the objects they were
    is returned itself, any other is made anew from its fields. *)
Module IRMutator.
(** [a.same_as(b)]: the two handles point to one object. *)
Definition same_as (a b : Stmt) : bool := Nat.eqb (stmt_id a) (stmt_id b).

Definition visit_stmt {X} (mutate : Stmt → M X Stmt) (s : Stmt) : M X Stmt :=
  match s with
  | LetStmt _ name value body =>
      body' <- mutate body ;;
      if same_as body' body then ret s
      else make (λ i, LetStmt i name value body')
  | Store _ _ _ _ _ => ret s
  | Atomic _ producer_name mutex_name body =>
      body' <- mutate body ;;
      if same_as body' body then ret s
      else make (λ i, Atomic i producer_name mutex_name body')
  | Allocate _ name t memory_type extents condition body new_expr free_function =>
      body' <- mutate body ;;
      if same_as body' body then ret s
      else make (λ i, Allocate i name t memory_type extents condition body'
                        new_expr free_function)
  | ProducerConsumer _ name is_producer body =>
      body' <- mutate body ;;
      if same_as body' body then ret s
      else make (λ i, ProducerConsumer i name is_producer body')
  | Block _ first rest =>
      first' <- mutate first ;;
      rest' <- mutate rest ;;
      if same_as first' first && same_as rest' rest then ret s
      else make (λ i, Block i first' rest')
  | Evaluate _ _ => ret s
  | For _ name min extent body =>
      body' <- mutate body ;;
      if same_as body' body then ret s
      else make (λ i, For i name min extent body')
  end.
End IRMutator.

(** ** RemoveUnnecessaryMutexUse *)

(** Clear out the Atomic node's mutex usages if it doesn't need one. *)
Module RemoveUnnecessaryMutexUse.
(** The field [remove_mutex_lock_names]. *)
Definition fields := gset string.

Fixpoint mutate (s : Stmt) : M fields Stmt :=
  match s with
  | Atomic _ producer_name mutex_name body =>
      (* Collect the names of all Store nodes inside. *)
      let store_names := CollectStoreNames.run body in
      (* Search for let bindings that access the producers. *)
      if FindAtomicLetBindings.run store_names body then
        (* Can't remove mutex lock. Leave the Stmt as is. *)
        IRMutator.visit_stmt mutate s
      else
        modify_data (λ names, {[mutex_name]} ∪ names) ;;;
        body' <- mutate body ;;
        make (λ i, Atomic i producer_name "" body')
  | _ => IRMutator.visit_stmt mutate s
  end.
End RemoveUnnecessaryMutexUse.

(** ** FindStoreInAtomicMutex *)

(** Find Store inside an Atomic that matches the provided store_names. *)
Module FindStoreInAtomicMutex.
Record fields := Fields {
  found : bool;
  producer_name : string;
  mutex_name : string;
  in_atomic_mutex : bool
}.

Definition set_found (f : fields) : fields :=
  Fields true (producer_name f) (mutex_name f) (in_atomic_mutex f).
Definition set_names (p m : string) (f : fields) : fields :=
  Fields (found f) p m (in_atomic_mutex f).
Definition set_in_atomic_mutex (b : bool) (f : fields) : fields :=
  Fields (found f) (producer_name f) (mutex_name f) b.

Section Visit.
Variable store_names : gset string.

Fixpoint visit_stmt (s : Stmt) (st : gv_state fields) : gv_state fields :=
  let include := IRGraphVisitor.include stmt_id visit_stmt in
  match s with
  | Atomic _ op_producer_name op_mutex_name body =>
      if negb (found (gv_data st)) && negb (String.eqb op_mutex_name "") then
        (* ScopedValue<bool> old_in_atomic_mutex(in_atomic_mutex, true) *)
        let old_in_atomic_mutex := in_atomic_mutex (gv_data st) in
        let st := with_data (set_in_atomic_mutex true) st in
        let st := include body st in
        let st :=
          if found (gv_data st) then
            (* We found a Store inside Atomic with matching name,
               record the mutex information. *)
            with_data (set_names op_producer_name op_mutex_name) st
          else st in
        with_data (set_in_atomic_mutex old_in_atomic_mutex) st
      else include body st
  | Store _ name _ _ _ =>
      let st :=
        if in_atomic_mutex (gv_data st) then
          if decide (name ∈ store_names) then with_data set_found st else st
        else st in
      IRGraphVisitor.visit_stmt IRGraphVisitor.include_expr include s st
  | _ => IRGraphVisitor.visit_stmt IRGraphVisitor.include_expr include s st
  end.
End Visit.

(** [op->body.accept(&finder)] on a new finder. *)
Definition run (store_names : gset string) (body : Stmt) : fields :=
  gv_data (visit_stmt store_names body (GV ∅ (Fields false "" "" false))).

(** The names of the stores of a statement. *)
Fixpoint stored_names (s : Stmt) : gset string :=
  match s with
  | Store _ name _ _ _ => {[name]}
  | LetStmt _ _ _ body | Atomic _ _ _ body | Allocate _ _ _ _ _ _ body _ _
  | ProducerConsumer _ _ _ body | For _ _ _ _ body => stored_names body
  | Block _ first rest => stored_names first ∪ stored_names rest
  | Evaluate _ _ => ∅
  end.

(** The member [store_names] is a reference to the set the finder was
    constructed on ([const std::set<std::string> &store_names]), and the
    finder reads that set in one place: the test
    [store_names.find(op->name) != store_names.end()] of the visit of a
    store, which it gets to when it visits a store with [in_atomic_mutex]
    set.  What the traversal does before it gets there for the first time
    does not depend on the set, and on a set with the names of all stores
    of the body the first test that is evaluated sets [found], which
    nothing else does.  So [found], on that set, says whether a run on
    [body] evaluates the test at all, that is whether it reads the set. *)
Definition reads_store_names (body : Stmt) : bool :=
  found (run (stored_names body) body).
End FindStoreInAtomicMutex.

(** ** FindStoreIndex *)

(** Find Store inside of an Atomic node and return their indices.  The
    field [index] starts undefined. *)
Module FindStoreIndex.
Fixpoint visit_stmt (s : Stmt) (st : gv_state (option Expr)) : gv_state (option Expr) :=
  match s with
  | Store _ _ _ op_index _ =>
      match gv_data st with
      | Some _ => st
      | None => with_data (λ _, Some op_index) st
      end
  | _ =>
      IRGraphVisitor.visit_stmt IRGraphVisitor.include_expr
        (IRGraphVisitor.include stmt_id visit_stmt) s st
  end.

(** [op->body.accept(&find)] on a new finder; the result is
    [find.index]. *)
Definition run (body : Stmt) : option Expr :=
  gv_data (visit_stmt body (GV ∅ None)).
End FindStoreIndex.

(** ** The function environment *)

(** An output buffer of a function: its name and the extent of each of its
    dimensions ([dim(i).extent()] for [i] below [dimensions()]). *)
Record OutputImageParam := {
  buffer_name : string;
  buffer_extents : list Expr
}.

Record Function := { output_buffers : list OutputImageParam }.

(** ** AddAtomicMutex *)

(** Add mutex allocation & lock & unlock if required. *)
Module AddAtomicMutex.
(** The set of producers that have allocated a mutex buffer
    ([allocated_mutexes]). *)
Definition fields := gset string.

Definition no_output_function_message : string :=
  "Found a producer node that contains an atomic node that requires mutex lock, but does not have an Allocate node and is not an output function. This is not supported.".

Definition allocate_mutex (mutex_name : string) (extent : Expr) (body : Stmt)
    : M fields Stmt :=
  mutex_array <- make (λ i, Call i Handle_ "halide_mutex_array_create" [extent] Extern) ;;
  (* Allocate a scalar of halide_mutex_array. *)
  const_true <- make (λ i, UIntImm i (UInt_ 1) 1) ;;
  make (λ i, Allocate i mutex_name Handle_ Stack [] const_true body
               (Some mutex_array) "halide_mutex_array_destroy").

(** [Expr extent = Expr(1); for (e : extents) extent = extent * e;] *)
Fixpoint multiply_by (extent : Expr) (extents : list Expr) : M fields Expr :=
  match extents with
  | [] => ret extent
  | e :: extents =>
      extent <- make (λ i, Mul i extent e) ;;
      multiply_by extent extents
  end.

Definition total_extent (extents : list Expr) : M fields Expr :=
  extent <- make (λ i, IntImm i (Int_ 32) 1) ;;
  multiply_by extent extents.

Section Visit.
Variable env : gmap string Function.

Fixpoint mutate (s : Stmt) : M fields Stmt :=
  match s with
  | Allocate _ name t memory_type extents condition body new_expr free_function =>
      (* If this Allocate node is allocating a buffer for a producer,
         and there is a Store node inside of an Atomic node requiring
         mutex lock matching the name of the Allocate, allocate a mutex
         lock. *)
      (* [FindStoreInAtomicMutex finder({op->name});]: the set is a
         temporary of this declaration, destroyed at its end, and the
         finder keeps a reference to it.  [op->body.accept(&finder)] on the
         next line reads the destroyed set when it gets to the test of the
         visit of a store. *)
      if FindStoreInAtomicMutex.reads_store_names body then dangling_reference
      else
        let finder := FindStoreInAtomicMutex.run {[name]} body in
        if negb (FindStoreInAtomicMutex.found finder) then
          (* No Atomic node that requires mutex lock from this node inside. *)
          IRMutator.visit_stmt mutate s
        else
          allocated_mutexes <- get_data ;;
          if decide (FindStoreInAtomicMutex.mutex_name finder ∈ allocated_mutexes) then
            (* We've already allocated a mutex. *)
            IRMutator.visit_stmt mutate s
          else
            modify_data (λ a, {[FindStoreInAtomicMutex.mutex_name finder]} ∪ a) ;;;
            let mutex_name := FindStoreInAtomicMutex.mutex_name finder in
            body <- mutate body ;;
            extent <- total_extent extents ;;
            body <- allocate_mutex mutex_name extent body ;;
            make (λ i, Allocate i name t memory_type extents condition body
                         new_expr free_function)
  | ProducerConsumer _ name is_producer body =>
      (* Usually we allocate the mutex buffer at the Allocate node,
         but outputs don't have Allocate. For those we allocate the
         mutex buffer at the producer node. *)
      if negb is_producer then
        (* This is a consumer. *)
        IRMutator.visit_stmt mutate s
      else
        (* Find the corresponding output: [env.find(op->name)], used
           without a test against [env.end()]. *)
        match env !! name with
        | None => invalid_dereference
        | Some f =>
            match output_buffers f with
            | [] =>
                (* internal_assert(f.output_buffers().size() > 0) *)
                internal_error no_output_function_message
            | output_buffer :: _ =>
                let store_names : gset string :=
                  list_to_set (map buffer_name (output_buffers f)) in
                let finder := FindStoreInAtomicMutex.run store_names body in
                if negb (FindStoreInAtomicMutex.found finder) then
                  IRMutator.visit_stmt mutate s
                else
                  allocated_mutexes <- get_data ;;
                  if decide (FindStoreInAtomicMutex.mutex_name finder
                               ∈ allocated_mutexes) then
                    IRMutator.visit_stmt mutate s
                  else
                    modify_data
                      (λ a, {[FindStoreInAtomicMutex.mutex_name finder]} ∪ a) ;;;
                    (* We assume all output buffers in a Tuple have the
                       same extent. *)
                    extent <- total_extent (buffer_extents output_buffer) ;;
                    body <- mutate body ;;
                    body <- allocate_mutex
                              (FindStoreInAtomicMutex.mutex_name finder) extent body ;;
                    make (λ i, ProducerConsumer i name is_producer body)
            end
        end
  | Atomic _ producer_name mutex_name op_body =>
      if String.eqb mutex_name "" then IRMutator.visit_stmt mutate s
      else
        (* Lock the mutexes using the indices from the Store nodes
           inside the body. *)
        index <- match FindStoreIndex.run op_body with
                 | Some index => ret index
                 | None => (* scalar output *) make (λ i, IntImm i (Int_ 32) 0)
                 end ;;
        let body := op_body in
        (* This generates a pointer to the mutex array *)
        mutex_array <- make (λ i, Variable_ i Handle_ mutex_name) ;;
        (* Add mutex locks & unlocks *)
        lock_call <- make (λ i, Call i (Int_ 32) "halide_mutex_array_lock"
                                  [mutex_array; index] Extern) ;;
        lock <- make (λ i, Evaluate i lock_call) ;;
        unlock_call <- make (λ i, Call i (Int_ 32) "halide_mutex_array_unlock"
                                    [mutex_array; index] Extern) ;;
        unlock <- make (λ i, Evaluate i unlock_call) ;;
        inner <- make (λ i, Block i body unlock) ;;
        body <- make (λ i, Block i lock inner) ;;
        make (λ i, Atomic i producer_name mutex_name body)
  | _ => IRMutator.visit_stmt mutate s
  end.
End Visit.
End AddAtomicMutex.

(** ** The pass *)

(** The addresses of the expression nodes below an expression, itself
    included, and of the expression and statement nodes below a statement. *)
Fixpoint expr_ids (e : Expr) : list node_id :=
  match e with
  | IntImm i _ _ | UIntImm i _ _ | Variable_ i _ _ => [i]
  | Add i a b | Mul i a b | Load i _ _ a b | Let_ i _ a b =>
      i :: expr_ids a ++ expr_ids b
  | Call i _ _ args _ => i :: flat_map expr_ids args
  end.

Fixpoint stmt_expr_ids (s : Stmt) : list node_id :=
  match s with
  | LetStmt _ _ value body => expr_ids value ++ stmt_expr_ids body
  | Store _ _ value index predicate =>
      expr_ids value ++ expr_ids index ++ expr_ids predicate
  | Atomic _ _ _ body | ProducerConsumer _ _ _ body => stmt_expr_ids body
  | Allocate _ _ _ _ extents condition body new_expr _ =>
      flat_map expr_ids extents ++ expr_ids condition
        ++ from_option expr_ids [] new_expr ++ stmt_expr_ids body
  | Block _ first rest => stmt_expr_ids first ++ stmt_expr_ids rest
  | Evaluate _ value => expr_ids value
  | For _ _ min extent body => expr_ids min ++ expr_ids extent ++ stmt_expr_ids body
  end.

Fixpoint stmt_node_ids (s : Stmt) : list node_id :=
  match s with
  | Store i _ _ _ _ | Evaluate i _ => [i]
  | LetStmt i _ _ body | Atomic i _ _ body | ProducerConsumer i _ _ body
  | Allocate i _ _ _ _ _ body _ _ | For i _ _ _ body => i :: stmt_node_ids body
  | Block i first rest => i :: stmt_node_ids first ++ stmt_node_ids rest
  end.

Definition env_expr_ids (env : gmap string Function) : list node_id :=
  flat_map (λ kf, flat_map (λ b, flat_map expr_ids (buffer_extents b))
                    (output_buffers kf.2))
    (map_to_list env).

(** The first address above every address in use. *)
Definition first_free_id (s : Stmt) (env : gmap string Function) : node_id :=
  S (max_list (stmt_node_ids s ++ stmt_expr_ids s ++ env_expr_ids env)).

(** [add_atomic_mutex(s, env)]: both mutators start with empty fields; new
    nodes get addresses above every address of [s] and [env]. *)
Definition add_atomic_mutex (s : Stmt) (env : gmap string Function) : outcome Stmt :=
  match RemoveUnnecessaryMutexUse.mutate s
          (MS (first_free_id s env) ∅) with
  | Done (s, st) =>
      match AddAtomicMutex.mutate env s (MS (ms_next st) ∅) with
      | Done (s, _) => Done s
      | InternalError msg => InternalError msg
      | InvalidDereference => InvalidDereference
      | DanglingReference => DanglingReference
      end
  | InternalError msg => InternalError msg
  | InvalidDereference => InvalidDereference
  | DanglingReference => DanglingReference
  end.

(** * What the claims speak of *)

(** ** The downgrade: mutex names kept or cleared *)

(** [cleared_or_kept s s']: [s'] is [s] except for the addresses of its
    statement nodes and for the mutex names of its atomic nodes, each of
    which is the one of [s] or empty. *)
Inductive cleared_or_kept : Stmt → Stmt → Prop :=
  | ck_LetStmt i i' name value body body' :
      cleared_or_kept body body' →
      cleared_or_kept (LetStmt i name value body) (LetStmt i' name value body')
  | ck_Store i i' name value index predicate :
      cleared_or_kept (Store i name value index predicate)
        (Store i' name value index predicate)
  | ck_Atomic i i' producer_name mutex_name mutex_name' body body' :
      mutex_name' = mutex_name ∨ mutex_name' = "" →
      cleared_or_kept body body' →
      cleared_or_kept (Atomic i producer_name mutex_name body)
        (Atomic i' producer_name mutex_name' body')
  | ck_Allocate i i' name t mt extents condition body body' new_expr free_function :
      cleared_or_kept body body' →
      cleared_or_kept
        (Allocate i name t mt extents condition body new_expr free_function)
        (Allocate i' name t mt extents condition body' new_expr free_function)
  | ck_ProducerConsumer i i' name is_producer body body' :
      cleared_or_kept body body' →
      cleared_or_kept (ProducerConsumer i name is_producer body)
        (ProducerConsumer i' name is_producer body')
  | ck_Block i i' first first' rest rest' :
      cleared_or_kept first first' →
      cleared_or_kept rest rest' →
      cleared_or_kept (Block i first rest) (Block i' first' rest')
  | ck_Evaluate i i' value :
      cleared_or_kept (Evaluate i value) (Evaluate i' value)
  | ck_For i i' name min extent body body' :
      cleared_or_kept body body' →
      cleared_or_kept (For i name min extent body) (For i' name min extent body').

(** The mutex names of the atomic nodes of a statement, outermost first. *)
Fixpoint mutex_names (s : Stmt) : list string :=
  match s with
  | Atomic _ _ mutex_name body => mutex_name :: mutex_names body
  | LetStmt _ _ _ body | Allocate _ _ _ _ _ _ body _ _
  | ProducerConsumer _ _ _ body | For _ _ _ _ body => mutex_names body
  | Block _ first rest => mutex_names first ++ mutex_names rest
  | Store _ _ _ _ _ | Evaluate _ _ => []
  end.

(** ** Locked regions *)

(** An atomic node whose body is a lock call, a statement and an unlock
    call in sequence, both calls on the variable named by the mutex name of
    the node: the index of the lock, the statement between the calls and the
    index of the unlock. *)
Definition as_locked_region (s : Stmt) : option (Expr * Stmt * Expr) :=
  match s with
  | Atomic _ _ mutex_name
      (Block _
         (Evaluate _ (Call _ _ lock [Variable_ _ _ array; index] _))
         (Block _ body
            (Evaluate _ (Call _ _ unlock [Variable_ _ _ array'; index'] _)))) =>
      if String.eqb lock "halide_mutex_array_lock"
         && String.eqb unlock "halide_mutex_array_unlock"
         && String.eqb array mutex_name && String.eqb array' mutex_name
      then Some (index, body, index')
      else None
  | _ => None
  end.

(** Every atomic node with a mutex name is such a locked region, with one
    index object for both calls, down to the atomic nodes between the calls
    of another. *)
Fixpoint all_surviving_locked (s : Stmt) : bool :=
  match s with
  | Atomic _ _ mutex_name body =>
      if String.eqb mutex_name "" then all_surviving_locked body
      else
        match body with
        | Block _
            (Evaluate _ (Call _ _ lock [Variable_ _ _ array; index] _))
            (Block _ inner
               (Evaluate _ (Call _ _ unlock [Variable_ _ _ array'; index'] _))) =>
            String.eqb lock "halide_mutex_array_lock"
            && String.eqb unlock "halide_mutex_array_unlock"
            && String.eqb array mutex_name && String.eqb array' mutex_name
            && Nat.eqb (expr_id index) (expr_id index')
            && all_surviving_locked inner
        | _ => false
        end
  | LetStmt _ _ _ body | Allocate _ _ _ _ _ _ body _ _
  | ProducerConsumer _ _ _ body | For _ _ _ _ body => all_surviving_locked body
  | Block _ first rest => all_surviving_locked first && all_surviving_locked rest
  | Store _ _ _ _ _ | Evaluate _ _ => true
  end.

(** The stores of a statement, in the order of the traversal. *)
Fixpoint stores (s : Stmt) : list Stmt :=
  match s with
  | Store _ _ _ _ _ => [s]
  | LetStmt _ _ _ body | Atomic _ _ _ body | Allocate _ _ _ _ _ _ body _ _
  | ProducerConsumer _ _ _ body | For _ _ _ _ body => stores body
  | Block _ first rest => stores first ++ stores rest
  | Evaluate _ _ => []
  end.

(** No atomic node of the statement has a mutex name. *)
Fixpoint no_surviving_atomic (s : Stmt) : bool :=
  match s with
  | Atomic _ _ mutex_name body =>
      String.eqb mutex_name "" && no_surviving_atomic body
  | LetStmt _ _ _ body | Allocate _ _ _ _ _ _ body _ _
  | ProducerConsumer _ _ _ body | For _ _ _ _ body => no_surviving_atomic body
  | Block _ first rest => no_surviving_atomic first && no_surviving_atomic rest
  | Store _ _ _ _ _ | Evaluate _ _ => true
  end.

(** ** Producers *)

(** The names of the producer nodes of a statement (the consumer nodes are
    left out). *)
Fixpoint producer_names (s : Stmt) : list string :=
  match s with
  | ProducerConsumer _ name is_producer body =>
      (if is_producer then [name] else []) ++ producer_names body
  | LetStmt _ _ _ body | Atomic _ _ _ body | Allocate _ _ _ _ _ _ body _ _
  | For _ _ _ _ body => producer_names body
  | Block _ first rest => producer_names first ++ producer_names rest
  | Store _ _ _ _ _ | Evaluate _ _ => []
  end.

(** ** Mutex arrays *)

Definition is_mutex_array_create (new_expr : option Expr) : bool :=
  match new_expr with
  | Some (Call _ _ name _ _) => String.eqb name "halide_mutex_array_create"
  | _ => false
  end.

(** The number of allocations of a mutex array of a given name in a
    statement. *)
Fixpoint mutex_allocations (m : string) (s : Stmt) : nat :=
  match s with
  | Allocate _ name _ _ _ _ body new_expr _ =>
      (if String.eqb name m && is_mutex_array_create new_expr then 1 else 0)
      + mutex_allocations m body
  | LetStmt _ _ _ body | Atomic _ _ _ body | ProducerConsumer _ _ _ body
  | For _ _ _ _ body => mutex_allocations m body
  | Block _ first rest => mutex_allocations m first + mutex_allocations m rest
  | Store _ _ _ _ _ | Evaluate _ _ => 0
  end.


(** ** Stores inside atomic regions that need their mutex *)

(** The regions with a mutex name around the first store, in the order of
    the traversal, that is to one of [store_names] and inside such a region:
    their producer and mutex names, outermost first.  [in_atomic_mutex] says
    whether the statement itself is inside such a region. *)
Fixpoint enclosing_regions (store_names : gset string) (in_atomic_mutex : bool)
    (s : Stmt) : option (list (string * string)) :=
  match s with
  | Store _ name _ _ _ =>
      if in_atomic_mutex && bool_decide (name ∈ store_names) then Some [] else None
  | Atomic _ producer_name mutex_name body =>
      if String.eqb mutex_name "" then
        enclosing_regions store_names in_atomic_mutex body
      else
        cons (producer_name, mutex_name) <$> enclosing_regions store_names true body
  | LetStmt _ _ _ body | Allocate _ _ _ _ _ _ body _ _
  | ProducerConsumer _ _ _ body | For _ _ _ _ body =>
      enclosing_regions store_names in_atomic_mutex body
  | Block _ first rest =>
      match enclosing_regions store_names in_atomic_mutex first with
      | Some regions => Some regions
      | None => enclosing_regions store_names in_atomic_mutex rest
      end
  | Evaluate _ _ => None
  end.

(** No statement node of [s] is met twice, and none has the address of an
    expression node of [s]: the statements of [s] form a tree (its
    expressions may share nodes as they like). *)
Definition unshared (s : Stmt) : Prop :=
  NoDup (stmt_node_ids s)
  ∧ Forall (λ i, i ∉ stmt_expr_ids s) (stmt_node_ids s).

(** What the finder has in its fields after a statement none of whose
    nodes it has met before. *)
Definition finder_result (store_names : gset string) (s : Stmt)
    (d : FindStoreInAtomicMutex.fields) : FindStoreInAtomicMutex.fields :=
  if FindStoreInAtomicMutex.found d then d
  else
    match enclosing_regions store_names (FindStoreInAtomicMutex.in_atomic_mutex d) s with
    | None => d
    | Some [] => FindStoreInAtomicMutex.set_found d
    | Some ((p, m) :: _) =>
        FindStoreInAtomicMutex.Fields true p m (FindStoreInAtomicMutex.in_atomic_mutex d)
    end.

(** All addresses below a statement. *)
Definition all_ids (s : Stmt) : gset node_id :=
  list_to_set (stmt_node_ids s) ∪ list_to_set (stmt_expr_ids s).

(** The finder on a statement [s] none of whose sub-statements it has met
    before: its fields become [finder_result], and it marks addresses of [s]
    only. *)
Definition finder_ok (store_names : gset string) (s : Stmt) : Prop :=
  ∀ st,
    unshared s →
    (∀ i, i ∈ tail (stmt_node_ids s) → i ∉ gv_visited st) →
    gv_data (FindStoreInAtomicMutex.visit_stmt store_names s st)
    = finder_result store_names s (gv_data st)
    ∧ gv_visited (FindStoreInAtomicMutex.visit_stmt store_names s st)
        ⊆ gv_visited st ∪ all_ids s.

(** ** The value of an extent *)

(** The value of an expression over the integers, given the values of the
    free variables, of the loads and of the calls. *)
Record interpretation := {
  var_value : string → Z;
  load_value : string → Z → Z;
  call_value : string → list Z → Z
}.

Definition bind_var (n : string) (v : Z) (I : interpretation) : interpretation :=
  {| var_value := λ x, if String.eqb x n then v else var_value I x;
     load_value := load_value I;
     call_value := call_value I |}.

Fixpoint eval (I : interpretation) (e : Expr) : Z :=
  match e with
  | IntImm _ _ v | UIntImm _ _ v => v
  | Variable_ _ _ n => var_value I n
  | Add _ a b => (eval I a + eval I b)%Z
  | Mul _ a b => (eval I a * eval I b)%Z
  | Load _ _ n index _ => load_value I n (eval I index)
  | Call _ _ n args _ => call_value I n (map (eval I) args)
  | Let_ _ n value body => eval (bind_var n (eval I value) I) body
  end.

(** The number of elements of a buffer of the given extents. *)
Definition element_count (I : interpretation) (extents : list Expr) : Z :=
  foldr Z.mul 1%Z (map (eval I) extents).

(** The mutex arrays a statement allocates: for each allocation whose new
    expression is a call of [halide_mutex_array_create] on one argument, the
    name allocated, the argument and the free function, outermost first. *)
Fixpoint mutex_arrays (s : Stmt) : list (string * Expr * string) :=
  match s with
  | Allocate _ name _ _ _ _ body new_expr free_function =>
      match new_expr with
      | Some (Call _ _ create [extent] _) =>
          if String.eqb create "halide_mutex_array_create"
          then [(name, extent, free_function)] else []
      | _ => []
      end ++ mutex_arrays body
  | LetStmt _ _ _ body | Atomic _ _ _ body | ProducerConsumer _ _ _ body
  | For _ _ _ _ body => mutex_arrays body
  | Block _ first rest => mutex_arrays first ++ mutex_arrays rest
  | Store _ _ _ _ _ | Evaluate _ _ => []
  end.

(** ** Stores whose value depends on a buffer written in the same body *)

(** The names of the buffers written by the stores of a statement. *)
Definition written_names (s : Stmt) : Scope.t unit :=
  flat_map (λ store, match store with
                     | Store _ name _ _ _ => [(name, tt)]
                     | _ => []
                     end) (stores s).

(** An expression contains a variable reference that depends on one of
    [store_names] through the let-bindings active at the reference. *)
Fixpoint value_depends (store_names : Scope.t unit) (let_bindings : Scope.t Expr)
    (e : Expr) : bool :=
  match e with
  | IntImm _ _ _ | UIntImm _ _ _ => false
  | Variable_ _ _ _ => ExprUsesVar.expr_uses_vars e store_names let_bindings
  | Add _ a b | Mul _ a b =>
      value_depends store_names let_bindings a
      || value_depends store_names let_bindings b
  | Load _ _ _ index predicate =>
      value_depends store_names let_bindings predicate
      || value_depends store_names let_bindings index
  | Call _ _ _ args _ => existsb (value_depends store_names let_bindings) args
  | Let_ _ name value body =>
      value_depends store_names let_bindings value
      || value_depends store_names (Scope.push name value let_bindings) body
  end.

(** A statement contains a store whose value contains such a reference. *)
Fixpoint store_depends (store_names : Scope.t unit) (let_bindings : Scope.t Expr)
    (s : Stmt) : bool :=
  match s with
  | Store _ _ value _ _ => value_depends store_names let_bindings value
  | LetStmt _ name value body =>
      store_depends store_names (Scope.push name value let_bindings) body
  | Atomic _ _ _ body | Allocate _ _ _ _ _ _ body _ _
  | ProducerConsumer _ _ _ body | For _ _ _ _ body =>
      store_depends store_names let_bindings body
  | Block _ first rest =>
      store_depends store_names let_bindings first
      || store_depends store_names let_bindings rest
  | Evaluate _ _ => false
  end.

(** The body of a region has a store whose value depends on a buffer
    written by a store of the same body. *)
Definition has_lifted_dependency (body : Stmt) : bool :=
  store_depends (written_names body) [] body.

(** ** Auxiliary notions of the proofs *)

(** The default traversal of an expression leaves the fields of the
    visitor alone, and marks addresses of the expression only. *)
Definition expr_frame {X : Type} (e : Expr) : Prop :=
  ∀ st : gv_state X,
    gv_data (IRGraphVisitor.accept_expr e st) = gv_data st
    ∧ gv_visited st ⊆ gv_visited (IRGraphVisitor.accept_expr e st)
    ∧ gv_visited (IRGraphVisitor.accept_expr e st)
        ⊆ gv_visited st ∪ list_to_set (expr_ids e).

(** One more allocation of [m] at most, and only when [m] enters the set of
    allocated mutexes. *)
Definition allocations_bounded (m : string) (s : Stmt)
    (st : mut_state AddAtomicMutex.fields) (out : Stmt)
    (st' : mut_state AddAtomicMutex.fields) : Prop :=
  ms_data st ⊆ ms_data st'
  ∧ (mutex_allocations m out + (if decide (m ∈ ms_data st) then 1 else 0)
     ≤ mutex_allocations m s + (if decide (m ∈ ms_data st') then 1 else 0))%nat.

(** * Further notions *)

(** The atomic nodes of a statement, at any depth: producer name, mutex
    name and body. *)
Fixpoint atomic_regions (s : Stmt) : list (string * string * Stmt) :=
  match s with
  | Atomic _ producer_name mutex_name body =>
      (producer_name, mutex_name, body) :: atomic_regions body
  | LetStmt _ _ _ body | Allocate _ _ _ _ _ _ body _ _
  | ProducerConsumer _ _ _ body | For _ _ _ _ body => atomic_regions body
  | Block _ first rest => atomic_regions first ++ atomic_regions rest
  | Store _ _ _ _ _ | Evaluate _ _ => []
  end.

(** How a run of the synthesizer fails. *)
Inductive failure := MissingFunction | NoOutputBuffers | DestroyedSet.

(** The first node, in the order of the mutation, that is a producer
    node whose name is not in the environment or whose function has no
    output buffer, or an allocation node whose finder reads its set.  The
    body of an atomic node with a mutex name is not looked into. *)
Fixpoint first_failure (env : gmap string Function) (s : Stmt) : option failure :=
  match s with
  | Atomic _ _ mutex_name body =>
      if String.eqb mutex_name "" then first_failure env body else None
  | ProducerConsumer _ name is_producer body =>
      if is_producer then
        match env !! name with
        | None => Some MissingFunction
        | Some f =>
            match output_buffers f with
            | [] => Some NoOutputBuffers
            | _ :: _ => first_failure env body
            end
        end
      else first_failure env body
  | Allocate _ _ _ _ _ _ body _ _ =>
      if FindStoreInAtomicMutex.reads_store_names body then Some DestroyedSet
      else first_failure env body
  | LetStmt _ _ _ body | For _ _ _ _ body => first_failure env body
  | Block _ first rest =>
      match first_failure env first with
      | Some f => Some f
      | None => first_failure env rest
      end
  | Store _ _ _ _ _ | Evaluate _ _ => None
  end.

(** The outcome that goes with a failure. *)
Definition failure_outcome {A : Type} (f : failure) : outcome A :=
  match f with
  | MissingFunction => InvalidDereference
  | NoOutputBuffers => InternalError AddAtomicMutex.no_output_function_message
  | DestroyedSet => DanglingReference
  end.

(** The outcome of a run is that of the first failure, and a statement when
    there is none. *)
Definition outcome_as_expected {A} (failed : option failure) (o : outcome A) : Prop :=
  match failed with
  | None => ∃ a, o = Done a
  | Some f => o = failure_outcome f
  end.


(** A store of the statement is to one of the names. *)
Definition writes_one_of (store_names : gset string) (s : Stmt) : Prop :=
  ∃ n, n ∈ store_names ∧ (n, tt) ∈ written_names s.

(** What the store-in-atomic finder may do to its fields on a statement,
    whatever it has visited before: it leaves [in_atomic_mutex] as it is; it
    changes nothing once a store is found, or when it finds none; and when
    it finds one, a store of the statement is to one of the names, and the
    names it has are those it had (the statement being inside a region with
    a mutex name) or those of an atomic node of the statement with a mutex
    name and such a store in its body. *)
Definition finder_sound (store_names : gset string) (s : Stmt)
    (d d' : FindStoreInAtomicMutex.fields) : Prop :=
  FindStoreInAtomicMutex.in_atomic_mutex d' = FindStoreInAtomicMutex.in_atomic_mutex d
  ∧ (FindStoreInAtomicMutex.found d = true → d' = d)
  ∧ (FindStoreInAtomicMutex.found d' = false → d' = d)
  ∧ (FindStoreInAtomicMutex.found d = false →
     FindStoreInAtomicMutex.found d' = true →
     writes_one_of store_names s
     ∧ ((FindStoreInAtomicMutex.in_atomic_mutex d = true
         ∧ FindStoreInAtomicMutex.producer_name d' = FindStoreInAtomicMutex.producer_name d
         ∧ FindStoreInAtomicMutex.mutex_name d' = FindStoreInAtomicMutex.mutex_name d)
        ∨ ∃ body,
            (FindStoreInAtomicMutex.producer_name d',
             FindStoreInAtomicMutex.mutex_name d', body) ∈ atomic_regions s
            ∧ FindStoreInAtomicMutex.mutex_name d' ≠ ""
            ∧ writes_one_of store_names body)).

(** The statements directly below a statement. *)
Definition sub_stmts (s : Stmt) : list Stmt :=
  match s with
  | LetStmt _ _ _ body | Atomic _ _ _ body | Allocate _ _ _ _ _ _ body _ _
  | ProducerConsumer _ _ _ body | For _ _ _ _ body => [body]
  | Block _ first rest => [first; rest]
  | Store _ _ _ _ _ | Evaluate _ _ => []
  end.

Definition is_store (s : Stmt) : bool :=
  match s with Store _ _ _ _ _ => true | _ => false end.

(** A graph visitor [visit] does to its fields on [s] what [result] says,
    and marks addresses of [s] only, when it has met none of the statements
    below [s] before. *)
Definition visitor_ok {X : Type} (visit : Stmt → gv_state X → gv_state X)
    (result : Stmt → X → X) (s : Stmt) : Prop :=
  ∀ st,
    unshared s →
    (∀ i, i ∈ tail (stmt_node_ids s) → i ∉ gv_visited st) →
    gv_data (visit s st) = result s (gv_data st)
    ∧ gv_visited (visit s st) ⊆ gv_visited st ∪ all_ids s.

(** The index of the first store of a statement, in the order of the
    traversal. *)
Definition first_store_index (s : Stmt) : option Expr :=
  match stores s with
  | Store _ _ _ index _ :: _ => Some index
  | _ => None
  end.

(** What FindStoreIndex has in its field after a statement: the index it
    had, or else the index of the first store. *)
Definition index_result (s : Stmt) (d : option Expr) : option Expr :=
  match d with
  | Some index => Some index
  | None => first_store_index s
  end.

(** What CollectStoreNames has in its field after a statement: the names
    of the stores, the last one first, pushed on what it had. *)
Definition collect_result (s : Stmt) (d : Scope.t unit) : Scope.t unit :=
  (rev (written_names s) ++ d)%list.

(** What FindAtomicLetBindings may do to its fields on an expression,
    whatever it has visited before: [inside_store] and the let-bindings come
    back as they were, [found] is never reset, and it is set only inside a
    designated store, by an expression with a variable reference that
    depends on one of the names. *)
Definition bindings_sound_expr (store_names : Scope.t unit) (e : Expr)
    (d d' : FindAtomicLetBindings.fields) : Prop :=
  FindAtomicLetBindings.inside_store d' = FindAtomicLetBindings.inside_store d
  ∧ FindAtomicLetBindings.let_bindings d' = FindAtomicLetBindings.let_bindings d
  ∧ (FindAtomicLetBindings.found d = true → FindAtomicLetBindings.found d' = true)
  ∧ (FindAtomicLetBindings.found d' = true →
     FindAtomicLetBindings.found d = true
     ∨ (FindAtomicLetBindings.inside_store d ≠ ""
        ∧ value_depends store_names (FindAtomicLetBindings.let_bindings d) e = true)).

(** The same on a statement met outside of every store: [found] is set
    only by a store of the statement whose value has such a reference. *)
Definition bindings_sound_stmt (store_names : Scope.t unit) (s : Stmt)
    (d d' : FindAtomicLetBindings.fields) : Prop :=
  FindAtomicLetBindings.inside_store d = "" →
  FindAtomicLetBindings.inside_store d' = ""
  ∧ FindAtomicLetBindings.let_bindings d' = FindAtomicLetBindings.let_bindings d
  ∧ (FindAtomicLetBindings.found d = true → FindAtomicLetBindings.found d' = true)
  ∧ (FindAtomicLetBindings.found d' = true →
     FindAtomicLetBindings.found d = true
     ∨ store_depends store_names (FindAtomicLetBindings.let_bindings d) s = true).

(** No atomic node with a mutex name has another one in its body. *)
Definition regions_not_nested (s : Stmt) : Prop :=
  Forall (λ r, r.1.2 ≠ "" → no_surviving_atomic r.2 = true) (atomic_regions s).

(** The addresses of the statement nodes of [s] are below the address of
    the next new node. *)
Definition nodes_below {X : Type} (s : Stmt) (st : mut_state X) : Prop :=
  ∀ i, i ∈ stmt_node_ids s → (i < ms_next st)%nat.

(** Two states of the store-in-atomic finder, on two sets of names: the
    same addresses are visited, and the fields are the same unless the
    second has found a store. *)
Definition finder_behind (st1 st2 : gv_state FindStoreInAtomicMutex.fields) : Prop :=
  gv_visited st1 = gv_visited st2
  ∧ (FindStoreInAtomicMutex.found (gv_data st2) = true
     ∨ gv_data st1 = gv_data st2).
(** * Example programs *)

(** A scalar reduction: the body of the region calls a routine and stores
    nothing. *)
Definition scalar_reduction : Stmt :=
  Atomic 1 "sum" "sum.mutex"
    (Evaluate 2
       (Call 3 (Int_ 32) "accumulate" [Variable_ 4 (Int_ 32) "x"] Extern)).


(** Two nested atomic regions.  The outer one updates [f], the inner one
    updates [g]; in both the value stored reads a variable bound to a load
    of the buffer stored to, so both need their mutex. *)
Definition the_index : Expr := Variable_ 5 (Int_ 32) "i".
Definition const_true : Expr := UIntImm 6 (UInt_ 1) 1.

Definition inner_region : Stmt :=
  Atomic 2 "g" "g.mutex"
    (LetStmt 3 "x" (Load 4 (Int_ 32) "g" the_index const_true)
       (Store 7 "g" (Add 8 (Variable_ 9 (Int_ 32) "x") (IntImm 10 (Int_ 32) 1))
          the_index const_true)).

Definition outer_body : Stmt :=
  LetStmt 11 "y" (Load 12 (Int_ 32) "f" the_index const_true)
    (Block 13 inner_region
       (Store 14 "f" (Add 15 (Variable_ 16 (Int_ 32) "y") (IntImm 17 (Int_ 32) 1))
          the_index const_true)).

Definition nested_regions : Stmt := Atomic 1 "f" "f.mutex" outer_body.

(** A producer of a function without output buffers, around a statement
    without any atomic region. *)
Definition plain_producer : Stmt :=
  ProducerConsumer 1 "f" true (Evaluate 2 (IntImm 3 (Int_ 32) 0)).

Definition env_without_outputs : gmap string Function :=
  {[ "f" := {| output_buffers := [] |} ]}.

(** The two buffers [f.0] and [f.1] of a tuple, each an output with its
    producer node, updated in one atomic region under one mutex name. *)
Definition tuple_region : Stmt :=
  Atomic 3 "f" "f.mutex"
    (Block 4
       (Store 12 "f.0" (Variable_ 7 (Int_ 32) "a") the_index const_true)
       (Store 8 "f.1" (Variable_ 9 (Int_ 32) "b") the_index const_true)).

Definition env_tuple : gmap string Function :=
  {[ "f.0" := {| output_buffers :=
                   [ {| buffer_name := "f.0";
                        buffer_extents := [Variable_ 10 (Int_ 32) "w"] |} ] |};
     "f.1" := {| output_buffers :=
                   [ {| buffer_name := "f.1";
                        buffer_extents := [Variable_ 11 (Int_ 32) "h"] |} ] |} ]}.

Definition shared_producers : Stmt :=
  ProducerConsumer 1 "f.0" true (ProducerConsumer 2 "f.1" true tuple_region).

(** An allocation of the buffer [g] around the region that updates it; the
    region needs its mutex. *)
Definition local_update : Stmt :=
  Allocate 20 "g" (Int_ 32) Heap [Variable_ 21 (Int_ 32) "w"] const_true
    inner_region None "".

(** A region that stores to [f] a variable bound to a load of [f].  The
    value of the second binding and the value stored are one and the same
    variable node. *)
Definition the_x : Expr := Variable_ 4 (Int_ 32) "x".

Definition lifted_load_body : Stmt :=
  LetStmt 1 "x" (Load 2 (Int_ 32) "f" the_index const_true)
    (LetStmt 7 "y" (Add 8 the_x (IntImm 9 (Int_ 32) 1))
       (Store 3 "f" the_x the_index const_true)).

Definition lifted_load_region : Stmt := Atomic 10 "f" "f.mutex" lifted_load_body.

(** The same region with a store to a buffer whose name is empty, and no
    node shared. *)
Definition unnamed_store_region : Stmt :=
  Atomic 10 "" "mutex"
    (LetStmt 9 "x" (Load 2 (Int_ 32) "" the_index const_true)
       (Store 3 "" (Variable_ 4 (Int_ 32) "x") (Variable_ 7 (Int_ 32) "i")
          (UIntImm 8 (UInt_ 1) 1))).

(** An output function with one buffer, and its producer around a region
    that stores to the buffer. *)
Definition env_with_output : gmap string Function :=
  {[ "out" := {| output_buffers :=
                   [ {| buffer_name := "out";
                        buffer_extents := [Variable_ 20 (Int_ 32) "out.extent.0"] |} ] |} ]}.

Definition output_producer : Stmt :=
  ProducerConsumer 1 "out" true
    (Atomic 2 "out" "out.mutex"
       (Store 3 "out" (Variable_ 4 (Int_ 32) "v") the_index const_true)).

(** The producer of an output function around a region whose mutex name
    has been cleared. *)
Definition cleared_output_producer : Stmt :=
  ProducerConsumer 1 "out" true
    (Atomic 2 "out" ""
       (Store 3 "out" (Variable_ 4 (Int_ 32) "v") the_index const_true)).

(** A producer of the output function around a loop that stores to the
    output, with no atomic node. *)
Definition plain_loop : Stmt :=
  ProducerConsumer 1 "out" true
    (For 2 "x" (IntImm 7 (Int_ 32) 0) (Variable_ 8 (Int_ 32) "n")
       (Store 3 "out" (Variable_ 4 (Int_ 32) "v") the_index const_true)).

(** Two stores with different indices. *)
Definition two_index_body : Stmt :=
  Block 2
    (Store 3 "f.0" (Variable_ 4 (Int_ 32) "a") (Variable_ 5 (Int_ 32) "i") const_true)
    (Store 7 "f.1" (Variable_ 8 (Int_ 32) "b") (Variable_ 9 (Int_ 32) "j") const_true).

(** An atomic update that loads and stores the same element in one store:
    no let-binding was lifted out of it. *)
Definition self_contained_body : Stmt :=
  Store 2 "hist"
    (Add 3 (Load 4 (Int_ 32) "hist" the_index const_true) (IntImm 7 (Int_ 32) 1))
    the_index const_true.

Definition self_contained_program : Stmt :=
  ProducerConsumer 8 "out" true
    (For 9 "r" (IntImm 10 (Int_ 32) 0) (Variable_ 11 (Int_ 32) "n")
       (Atomic 1 "hist" "hist.mutex" self_contained_body)).

(** The producer of the output [g] around the region that updates it. *)
Definition env_g : gmap string Function :=
  {[ "g" := {| output_buffers :=
                 [ {| buffer_name := "g";
                      buffer_extents := [Variable_ 21 (Int_ 32) "g.extent.0"] |} ] |} ]}.

Definition output_update : Stmt := ProducerConsumer 20 "g" true inner_region.

(** An allocation around a store that is in no atomic region. *)
Definition local_plain : Stmt :=
  Allocate 20 "g" (Int_ 32) Heap [Variable_ 21 (Int_ 32) "w"] const_true
    (Store 7 "g" (Variable_ 8 (Int_ 32) "v") the_index const_true) None "".
(** * Theorems *)

Lemma cleared_or_kept_refl s : cleared_or_kept s s.
Proof. induction s; constructor; auto. Qed.

#[local] Hint Constructors cleared_or_kept : core.
#[local] Hint Resolve cleared_or_kept_refl : core.

Ltac munfold :=
  unfold bind, ret, make, fresh, modify_data, get_data, internal_error,
    invalid_dereference, dangling_reference in *.

(** The default visit of a mutator is unfolded on demand only. *)
Arguments IRMutator.visit_stmt : simpl never.

(** ** The downgrade analyzer *)

(** The downgrade never fails, and what it returns is the statement it was
    given with some mutex names cleared. *)
Lemma RemoveUnnecessaryMutexUse_mutate_spec s st :
  ∃ s' st', RemoveUnnecessaryMutexUse.mutate s st = Done (s', st')
            ∧ cleared_or_kept s s'.
Proof.
  revert st; induction s; intros st; simpl; unfold IRMutator.visit_stmt.
  - munfold. destruct (IHs st) as (b & st1 & -> & Hb).
    destruct (IRMutator.same_as b s); eauto.
  - munfold; eauto.
  - destruct (FindAtomicLetBindings.run _ _); simpl; munfold.
    + destruct (IHs st) as (b & st1 & -> & Hb).
      destruct (IRMutator.same_as b s); eauto 10.
    + match goal with |- context [RemoveUnnecessaryMutexUse.mutate s ?st0] =>
        destruct (IHs st0) as (b & st1 & -> & Hb) end.
      eauto 10.
  - munfold. destruct (IHs st) as (b & st1 & -> & Hb).
    destruct (IRMutator.same_as b s); eauto.
  - munfold. destruct (IHs st) as (b & st1 & -> & Hb).
    destruct (IRMutator.same_as b s); eauto.
  - munfold. destruct (IHs1 st) as (b1 & st1 & -> & Hb1).
    destruct (IHs2 st1) as (b2 & st2 & -> & Hb2).
    destruct (_ && _); eauto.
  - munfold; eauto.
  - munfold. destruct (IHs st) as (b & st1 & -> & Hb).
    destruct (IRMutator.same_as b s); eauto.
Qed.

Lemma cleared_or_kept_mutex_names s s' :
  cleared_or_kept s s' →
  Forall2 (λ old new, new = old ∨ new = "") (mutex_names s) (mutex_names s').
Proof.
  induction 1; simpl; auto.
  by apply Forall2_app.
Qed.

Lemma cleared_or_kept_producer_names s s' :
  cleared_or_kept s s' → producer_names s' = producer_names s.
Proof. induction 1; simpl; congruence. Qed.

(** C7: for every statement and every state of the downgrade analyzer, the
    analyzer returns a statement that is the input except for node addresses
    and for the mutex names of its atomic nodes; each atomic node of the
    input has its counterpart in the output, and the mutex name of the
    counterpart is the name the node had or the empty string. *)
Theorem C7_mutex_name_kept_or_cleared s st :
  ∃ s' st',
    RemoveUnnecessaryMutexUse.mutate s st = Done (s', st')
    ∧ cleared_or_kept s s'
    ∧ Forall2 (λ old new, new = old ∨ new = "") (mutex_names s) (mutex_names s').
Proof.
  destruct (RemoveUnnecessaryMutexUse_mutate_spec s st) as (s' & st' & H & Hck).
  exists s', st'. eauto using cleared_or_kept_mutex_names.
Qed.

(** ** The default traversal of expressions *)

Section AcceptExpr.
Context {X : Type}.
Implicit Types st : gv_state X.

Lemma include_expr_frame e st :
  @expr_frame X e →
  gv_data (IRGraphVisitor.include_expr e st) = gv_data st
  ∧ gv_visited st ⊆ gv_visited (IRGraphVisitor.include_expr e st)
  ∧ gv_visited (IRGraphVisitor.include_expr e st)
      ⊆ gv_visited st ∪ list_to_set (expr_ids e).
Proof.
  intros He. unfold IRGraphVisitor.include_expr, IRGraphVisitor.include.
  destruct (decide _) as [Hin|Hin]; [set_solver|].
  destruct (He (GV ({[expr_id e]} ∪ gv_visited st) (gv_data st))) as (Hd & Hl & Hu).
  simpl in *. split; [done|].
  assert (expr_id e ∈ expr_ids e) by (destruct e; simpl; set_solver).
  set_solver.
Qed.

Lemma accept_expr_frame e : @expr_frame X e.
Proof.
  induction e using Expr_ind'; intros st; simpl;
    change (IRGraphVisitor.include expr_id IRGraphVisitor.accept_expr)
      with (@IRGraphVisitor.include_expr X);
    try (split; [done|set_solver]).
  - destruct (include_expr_frame e1 st IHe1) as (Hd1 & Hl1 & Hu1).
    destruct (include_expr_frame e2 (IRGraphVisitor.include_expr e1 st) IHe2)
      as (Hd2 & Hl2 & Hu2).
    split; [congruence|set_solver].
  - destruct (include_expr_frame e1 st IHe1) as (Hd1 & Hl1 & Hu1).
    destruct (include_expr_frame e2 (IRGraphVisitor.include_expr e1 st) IHe2)
      as (Hd2 & Hl2 & Hu2).
    split; [congruence|set_solver].
  - destruct (include_expr_frame e2 st IHe2) as (Hd1 & Hl1 & Hu1).
    destruct (include_expr_frame e1 (IRGraphVisitor.include_expr e2 st) IHe1)
      as (Hd2 & Hl2 & Hu2).
    split; [congruence|set_solver].
  - revert st. induction H as [|a args Ha Hargs IH]; intros st; simpl.
    + split; [done|set_solver].
    + destruct (include_expr_frame a st Ha) as (Hd1 & Hl1 & Hu1).
      destruct (IH (IRGraphVisitor.include_expr a st)) as (Hd2 & Hl2 & Hu2).
      split; [congruence|]. simpl in *. set_solver.
  - destruct (include_expr_frame e1 st IHe1) as (Hd1 & Hl1 & Hu1).
    destruct (include_expr_frame e2 (IRGraphVisitor.include_expr e1 st) IHe2)
      as (Hd2 & Hl2 & Hu2).
    split; [congruence|set_solver].
Qed.

Lemma include_expr_data e st :
  gv_data (IRGraphVisitor.include_expr e st) = gv_data st.
Proof. apply include_expr_frame, accept_expr_frame. Qed.

Lemma include_expr_visited e st :
  gv_visited st ⊆ gv_visited (IRGraphVisitor.include_expr e st)
  ∧ gv_visited (IRGraphVisitor.include_expr e st)
      ⊆ gv_visited st ∪ list_to_set (expr_ids e).
Proof. apply include_expr_frame, accept_expr_frame. Qed.

Lemma include_exprs_data (l : list Expr) st :
  gv_data (fold_left (λ st e, IRGraphVisitor.include_expr e st) l st) = gv_data st.
Proof.
  revert st; induction l as [|e l IH]; intros st; simpl; [done|].
  by rewrite IH, include_expr_data.
Qed.

Lemma include_exprs_visited (l : list Expr) st :
  gv_visited st
    ⊆ gv_visited (fold_left (λ st e, IRGraphVisitor.include_expr e st) l st)
  ∧ gv_visited (fold_left (λ st e, IRGraphVisitor.include_expr e st) l st)
      ⊆ gv_visited st ∪ list_to_set (flat_map expr_ids l).
Proof.
  revert st; induction l as [|e l IH]; intros st; simpl; [set_solver|].
  destruct (IH (IRGraphVisitor.include_expr e st)) as [H1 H2].
  destruct (include_expr_visited e st) as [H3 H4].
  set_solver.
Qed.
End AcceptExpr.

(** ** The index of the lock *)

Lemma FindStoreIndex_no_store s :
  stores s = [] →
  ∀ st, gv_data st = None →
    gv_data (FindStoreIndex.visit_stmt s st) = None.
Proof.
  assert (Hinc : ∀ s : Stmt,
    (∀ st, gv_data st = None → gv_data (FindStoreIndex.visit_stmt s st) = None) →
    ∀ st, gv_data st = None →
      gv_data (IRGraphVisitor.include stmt_id FindStoreIndex.visit_stmt s st) = None).
  { intros s' Hs st Hst. unfold IRGraphVisitor.include.
    destruct (decide _); [done|]. by apply Hs. }
  induction s; simpl; intros Hno st Hst; try done.
  - apply Hinc; [auto|]. by rewrite include_expr_data.
  - apply Hinc; auto.
  - apply Hinc; [auto|]. destruct new_expr; simpl;
      rewrite ?include_expr_data, ?include_exprs_data; done.
  - apply Hinc; auto.
  - apply app_eq_nil in Hno as [Hno1 Hno2].
    apply Hinc; [auto|]. apply Hinc; auto.
  - by rewrite include_expr_data.
  - apply Hinc; [auto|]. by rewrite !include_expr_data.
Qed.

Lemma FindStoreIndex_run_no_store body :
  stores body = [] → FindStoreIndex.run body = None.
Proof. intros H. by apply FindStoreIndex_no_store. Qed.

(** ** The rewrite of an atomic node *)

(** An atomic node with a mutex name comes back as a locked region around
    the body it had. *)
Lemma AddAtomicMutex_visit_Atomic env i p m body st :
  m ≠ "" →
  ∃ out st' index,
    AddAtomicMutex.mutate env (Atomic i p m body) st = Done (out, st')
    ∧ as_locked_region out = Some (index, body, index)
    ∧ index = default (IntImm (ms_next st) (Int_ 32) 0) (FindStoreIndex.run body).
Proof.
  intros Hm. simpl.
  destruct (String.eqb_spec m "") as [|_]; [done|].
  destruct (FindStoreIndex.run body) as [index|]; munfold; simpl;
    do 3 eexists; (split; [reflexivity|]);
    simpl; rewrite String.eqb_refl; done.
Qed.

(** C8: an atomic node with a non-empty mutex name whose body contains no
    store at all is rewritten into a locked region whose lock call and
    unlock call both have the constant 0 as index. *)
Theorem C8_scalar_reduction_locks_index_zero env i p m body st :
  m ≠ "" →
  stores body = [] →
  ∃ out st' zero,
    AddAtomicMutex.mutate env (Atomic i p m body) st = Done (out, st')
    ∧ as_locked_region out
      = Some (IntImm zero (Int_ 32) 0, body, IntImm zero (Int_ 32) 0).
Proof.
  intros Hm Hno.
  destruct (AddAtomicMutex_visit_Atomic env i p m body st Hm)
    as (out & st' & index & Hrun & Hlocked & ->).
  rewrite (FindStoreIndex_run_no_store body Hno) in Hlocked. simpl in Hlocked.
  eauto.
Qed.

Lemma C8_scalar_reduction_witness :
  ∃ out st' zero,
    AddAtomicMutex.mutate ∅ scalar_reduction (MS 5 ∅) = Done (out, st')
    ∧ as_locked_region out
      = Some (IntImm zero (Int_ 32) 0,
              Evaluate 2
                (Call 3 (Int_ 32) "accumulate" [Variable_ 4 (Int_ 32) "x"] Extern),
              IntImm zero (Int_ 32) 0).
Proof.
  apply (C8_scalar_reduction_locks_index_zero ∅ 1 "sum" "sum.mutex"
           (Evaluate 2
              (Call 3 (Int_ 32) "accumulate" [Variable_ 4 (Int_ 32) "x"] Extern))
           (MS 5 ∅)).
  - discriminate.
  - reflexivity.
Defined.

(** C3: at two nested regions that both need their mutex, the lock and the
    unlock call are put around the body of the outer region as it was, with
    the inner region in it left without its lock; the body is not processed
    first (processing it gives the inner region its lock). *)
Theorem C3_lock_wraps_unprocessed_body :
  ∃ out st' index processed st'',
    AddAtomicMutex.mutate ∅ nested_regions (MS 18 ∅) = Done (out, st')
    ∧ AddAtomicMutex.mutate ∅ outer_body (MS 18 ∅) = Done (processed, st'')
    ∧ as_locked_region out = Some (index, outer_body, index)
    ∧ all_surviving_locked outer_body = false
    ∧ all_surviving_locked processed = true.
Proof.
  do 5 eexists.
  split; [vm_compute; reflexivity|].
  split; [vm_compute; reflexivity|].
  split; [vm_compute; reflexivity|].
  split; vm_compute; reflexivity.
Qed.

(** C2: after the whole pass has run on two nested regions that both keep
    their mutex name, the inner region has no lock call before its body and
    no unlock call behind it. *)
Theorem C2_nested_region_not_locked :
  ∃ out,
    add_atomic_mutex nested_regions ∅ = Done out
    ∧ mutex_names out = ["f.mutex"; "g.mutex"]
    ∧ all_surviving_locked out = false.
Proof.
  eexists.
  split; [vm_compute; reflexivity|].
  split; vm_compute; reflexivity.
Qed.

(** C6: a producer node whose function has no output buffer aborts the pass
    with the message of the assertion, although there is no atomic region in
    it at all. *)
Theorem C6_producer_without_atomic_aborts :
  add_atomic_mutex plain_producer env_without_outputs
  = InternalError AddAtomicMutex.no_output_function_message
  ∧ mutex_names plain_producer = [].
Proof. split; vm_compute; reflexivity. Qed.

(** ** Which runs use an iterator that points nowhere *)

Lemma bind_not_invalid {X A B} (m : M X A) (k : A → M X B) st :
  m st ≠ InvalidDereference →
  (∀ a st1, m st = Done (a, st1) → k a st1 ≠ InvalidDereference) →
  bind m k st ≠ InvalidDereference.
Proof.
  unfold bind. destruct (m st) as [[a st1]| | |]; auto.
Qed.

Lemma multiply_by_done extents : ∀ extent st,
  ∃ e, AddAtomicMutex.multiply_by extent extents st
       = Done (e, MS (ms_next st + length extents) (ms_data st)).
Proof.
  induction extents as [|e extents IH]; intros extent st; simpl.
  - exists extent. munfold. destruct st; simpl. do 3 f_equal. lia.
  - munfold. simpl.
    destruct (IH (Mul (ms_next st) extent e) (MS (S (ms_next st)) (ms_data st)))
      as [r ->].
    exists r. simpl. do 3 f_equal. lia.
Qed.

Lemma total_extent_done extents st :
  ∃ e, AddAtomicMutex.total_extent extents st
       = Done (e, MS (S (ms_next st) + length extents) (ms_data st)).
Proof.
  unfold AddAtomicMutex.total_extent. munfold. simpl.
  apply (multiply_by_done extents _ (MS (S (ms_next st)) (ms_data st))).
Qed.

Lemma allocate_mutex_done m extent body st :
  ∃ i,
    AddAtomicMutex.allocate_mutex m extent body st
    = Done (Allocate (S (S i)) m Handle_ Stack [] (UIntImm (S i) (UInt_ 1) 1) body
              (Some (Call i Handle_ "halide_mutex_array_create" [extent] Extern))
              "halide_mutex_array_destroy",
            MS (S (S (S i))) (ms_data st))
    ∧ i = ms_next st.
Proof. exists (ms_next st). split; reflexivity. Qed.

Lemma IRMutator_visit_not_invalid {X} (mutate : Stmt → M X Stmt) s st :
  (∀ b st, b ∈ match s with
               | LetStmt _ _ _ b | Atomic _ _ _ b | Allocate _ _ _ _ _ _ b _ _
               | ProducerConsumer _ _ _ b | For _ _ _ _ b => [b]
               | Block _ a b => [a; b]
               | _ => []
               end → mutate b st ≠ InvalidDereference) →
  IRMutator.visit_stmt mutate s st ≠ InvalidDereference.
Proof.
  intros H. destruct s; unfold IRMutator.visit_stmt; try done;
    repeat (apply bind_not_invalid; [apply H; set_solver|intros ???]);
    try (destruct (IRMutator.same_as _ _)); try (destruct (_ && _)); done.
Qed.

Lemma AddAtomicMutex_mutate_not_invalid env s :
  (∀ n, n ∈ producer_names s → is_Some (env !! n)) →
  ∀ st, AddAtomicMutex.mutate env s st ≠ InvalidDereference.
Proof.
  induction s; intros Henv st; simpl in Henv |- *.
  - apply IRMutator_visit_not_invalid. intros b st' Hb.
    apply list_elem_of_singleton in Hb as ->. auto.
  - done.
  - destruct (String.eqb _ _).
    + apply IRMutator_visit_not_invalid. intros b st' Hb.
      apply list_elem_of_singleton in Hb as ->. auto.
    + destruct (FindStoreIndex.run s); done.
  - assert (Hdef : ∀ st, IRMutator.visit_stmt (AddAtomicMutex.mutate env)
        (Allocate id name t memory_type extents condition s new_expr free_function) st
        ≠ InvalidDereference).
    { intros st'. apply IRMutator_visit_not_invalid. intros b st'' Hb.
      apply list_elem_of_singleton in Hb as ->. auto. }
    destruct (FindStoreInAtomicMutex.reads_store_names s); [done|].
    destruct (negb _); [apply Hdef|].
    apply bind_not_invalid; [done|intros a st1 _].
    destruct (decide _) as [Hin|Hin]; [apply Hdef|].
    apply bind_not_invalid; [done|intros [] st2 _].
    apply bind_not_invalid; [auto|intros body st3 _].
    apply bind_not_invalid.
    { destruct (total_extent_done extents st3) as [e ->]. done. }
    intros extent st4 _. done.
  - assert (Hdef : ∀ st, IRMutator.visit_stmt (AddAtomicMutex.mutate env)
        (ProducerConsumer id name is_producer s) st ≠ InvalidDereference).
    { intros st'. apply IRMutator_visit_not_invalid. intros b st'' Hb.
      apply list_elem_of_singleton in Hb as ->. apply IHs.
      intros n Hn. apply Henv. set_solver. }
    destruct is_producer; simpl; [|apply Hdef].
    destruct (Henv name) as [f ->]; [set_solver|].
    destruct (output_buffers f) as [|output_buffer bs]; [done|].
    destruct (negb _); [apply Hdef|].
    apply bind_not_invalid; [done|intros a st1 _].
    destruct (decide _) as [Hin|Hin]; [apply Hdef|].
    apply bind_not_invalid; [done|intros [] st2 _].
    apply bind_not_invalid.
    { destruct (total_extent_done (buffer_extents output_buffer) st2) as [e ->]. done. }
    intros extent st3 _.
    apply bind_not_invalid; [|done].
    apply IHs. intros n Hn. apply Henv. set_solver.
  - apply IRMutator_visit_not_invalid. intros b st' Hb.
    assert (b = s1 ∨ b = s2) as [-> | ->] by set_solver;
      [apply IHs1|apply IHs2]; intros n Hn; apply Henv; set_solver.
  - done.
  - apply IRMutator_visit_not_invalid. intros b st' Hb.
    apply list_elem_of_singleton in Hb as ->. auto.
Qed.

(** C9: when the name of every producer node of the statement is a key of
    the environment, the pass never uses the result of a lookup that found
    nothing. *)
Theorem C9_producers_in_env_no_invalid_dereference s env :
  (∀ n, n ∈ producer_names s → is_Some (env !! n)) →
  add_atomic_mutex s env ≠ InvalidDereference.
Proof.
  intros Henv. unfold add_atomic_mutex.
  destruct (RemoveUnnecessaryMutexUse_mutate_spec s (MS (first_free_id s env) ∅))
    as (s' & st' & -> & Hck).
  pose proof (AddAtomicMutex_mutate_not_invalid env s') as H.
  rewrite (cleared_or_kept_producer_names s s' Hck) in H.
  specialize (H Henv (MS (ms_next st') ∅)).
  destruct (AddAtomicMutex.mutate env s' _) as [[out st'']| | |]; done.
Qed.

(** The hypothesis is needed: a producer node whose name is not a key of the
    environment makes the synthesizer use the iterator [env.end()]. *)
Lemma AddAtomicMutex_producer_not_in_env env i name body st :
  env !! name = None →
  AddAtomicMutex.mutate env (ProducerConsumer i name true body) st
  = InvalidDereference.
Proof. intros H. simpl. by rewrite H. Qed.

(** ** How many mutex arrays are allocated *)

Lemma bind_Done {X A B} (m : M X A) (k : A → M X B) st r :
  bind m k st = Done r → ∃ a st1, m st = Done (a, st1) ∧ k a st1 = Done r.
Proof.
  unfold bind. destruct (m st) as [[a st1]| | |]; [eauto|done|done|done].
Qed.

Lemma allocations_bounded_same m s st st' :
  ms_data st ⊆ ms_data st' → allocations_bounded m s st s st'.
Proof.
  intros H. split; [done|].
  repeat destruct (decide _); try lia. set_solver.
Qed.

Ltac mutate_step IH :=
  match goal with
  | H : bind _ _ _ = Done _ |- _ =>
      apply bind_Done in H as (? & ? & ? & H)
  | H : (if ?b then _ else _) _ = Done _ |- _ => destruct b eqn:?
  | H : ret _ _ = Done _ |- _ => unfold ret in H; injection H as <- <-
  | H : make _ _ = Done _ |- _ =>
      unfold make, fresh, bind, ret in H; injection H as <- <-
  | H : modify_data _ _ = Done _ |- _ =>
      unfold modify_data in H; injection H as <- <-
  | H : get_data _ = Done _ |- _ =>
      unfold get_data in H; injection H as <- <-
  end.

Lemma IRMutator_visit_allocations env m s :
  (∀ b, b ∈ match s with
            | LetStmt _ _ _ b | Atomic _ _ _ b | Allocate _ _ _ _ _ _ b _ _
            | ProducerConsumer _ _ _ b | For _ _ _ _ b => [b]
            | Block _ a b => [a; b]
            | _ => []
            end →
        ∀ st out st', AddAtomicMutex.mutate env b st = Done (out, st') →
                      allocations_bounded m b st out st') →
  ∀ st out st',
    IRMutator.visit_stmt (AddAtomicMutex.mutate env) s st = Done (out, st') →
    allocations_bounded m s st out st'.
Proof.
  intros IH st out st' H.
  destruct s; unfold IRMutator.visit_stmt in H; repeat mutate_step IH;
    try (by apply allocations_bounded_same);
    repeat match goal with
      | H : AddAtomicMutex.mutate env ?b _ = Done _ |- _ =>
          apply (IH b) in H as [? ?]; [|set_solver]
      end;
    try (apply allocations_bounded_same; simpl; set_solver);
    (split; simpl in *; [set_solver|lia]).
Qed.

Lemma total_extent_Done extents st e st' :
  AddAtomicMutex.total_extent extents st = Done (e, st') → ms_data st' = ms_data st.
Proof.
  destruct (total_extent_done extents st) as [e' ->]. by intros [= <- <-].
Qed.

Lemma allocate_mutex_Done name extent body st out st' :
  AddAtomicMutex.allocate_mutex name extent body st = Done (out, st') →
  ms_data st' = ms_data st
  ∧ ∀ m, mutex_allocations m out
         = ((if String.eqb name m then 1 else 0) + mutex_allocations m body)%nat.
Proof.
  destruct (allocate_mutex_done name extent body st) as (i & -> & _).
  intros [= <- <-]. split; [done|]. intros m. simpl.
  by rewrite andb_true_r.
Qed.

Lemma AddAtomicMutex_mutate_allocations env m s :
  ∀ st out st',
    AddAtomicMutex.mutate env s st = Done (out, st') →
    allocations_bounded m s st out st'.
Proof.
  induction s; intros st out st' H; simpl in H;
    try (revert H; apply IRMutator_visit_allocations; intros b Hb;
         repeat (apply elem_of_cons in Hb as [->|Hb]; [assumption|]);
         by apply elem_of_nil in Hb).
  - (* Atomic *)
    destruct (String.eqb mutex_name "").
    + revert H; apply IRMutator_visit_allocations; intros b Hb.
      apply list_elem_of_singleton in Hb as ->. assumption.
    + destruct (FindStoreIndex.run s); repeat mutate_step IHs;
        (split; simpl; [done|]); repeat destruct (decide _); lia.
  - (* Allocate *)
    assert (Hdef : ∀ st out st',
      IRMutator.visit_stmt (AddAtomicMutex.mutate env)
        (Allocate id name t memory_type extents condition s new_expr free_function)
        st = Done (out, st') →
      allocations_bounded m
        (Allocate id name t memory_type extents condition s new_expr free_function)
        st out st').
    { apply IRMutator_visit_allocations; intros b Hb.
      apply list_elem_of_singleton in Hb as ->. assumption. }
    destruct (FindStoreInAtomicMutex.reads_store_names s); [done|].
    destruct (negb _); [by apply Hdef|].
    apply bind_Done in H as (allocated & st1 & [= <- <-] & H).
    destruct (decide _) as [Hin|Hin]; [by apply Hdef|].
    apply bind_Done in H as ([] & st2 & [= <-] & H).
    apply bind_Done in H as (body & st3 & Hbody & H).
    apply bind_Done in H as (extent & st4 & Hextent & H).
    apply bind_Done in H as (body' & st5 & Halloc & H).
    unfold make, fresh, bind, ret in H. injection H as <- <-.
    apply IHs in Hbody as [Hsub Hle]. simpl in Hsub, Hle.
    apply total_extent_Done in Hextent.
    apply allocate_mutex_Done in Halloc as [Hdata Hcount].
    split; simpl; [set_solver|].
    rewrite Hcount, Hdata, Hextent.
    match goal with
    |- context [String.eqb (FindStoreInAtomicMutex.mutex_name ?f) m] =>
      destruct (String.eqb_spec (FindStoreInAtomicMutex.mutex_name f) m)
        as [Heq|Hne]
    end;
      repeat destruct (decide _); try lia; set_solver.
  - (* ProducerConsumer *)
    assert (Hdef : ∀ st out st',
      IRMutator.visit_stmt (AddAtomicMutex.mutate env)
        (ProducerConsumer id name is_producer s) st = Done (out, st') →
      allocations_bounded m (ProducerConsumer id name is_producer s) st out st').
    { apply IRMutator_visit_allocations; intros b Hb.
      apply list_elem_of_singleton in Hb as ->. assumption. }
    destruct is_producer; simpl in H; [|by apply Hdef].
    destruct (env !! name) as [f|]; [|done].
    destruct (output_buffers f) as [|output_buffer bs]; [done|].
    destruct (negb _); [by apply Hdef|].
    apply bind_Done in H as (allocated & st1 & [= <- <-] & H).
    destruct (decide _) as [Hin|Hin]; [by apply Hdef|].
    apply bind_Done in H as ([] & st2 & [= <-] & H).
    apply bind_Done in H as (extent & st3 & Hextent & H).
    apply bind_Done in H as (body & st4 & Hbody & H).
    apply bind_Done in H as (body' & st5 & Halloc & H).
    unfold make, fresh, bind, ret in H. injection H as <- <-.
    apply total_extent_Done in Hextent.
    apply IHs in Hbody as [Hsub Hle]. rewrite Hextent in Hsub, Hle.
    simpl in Hsub, Hle.
    apply allocate_mutex_Done in Halloc as [Hdata Hcount].
    split; simpl; [set_solver|].
    rewrite Hcount, Hdata.
    match goal with
    |- context [String.eqb (FindStoreInAtomicMutex.mutex_name ?f) m] =>
      destruct (String.eqb_spec (FindStoreInAtomicMutex.mutex_name f) m)
        as [Heq|Hne]
    end;
      repeat destruct (decide _); try lia; set_solver.
Qed.

(** C5: in a run of the mutex synthesizer that starts with no mutex
    allocated, the statement that comes out has, for each mutex name, at
    most one allocation of a mutex array more than the statement that went
    in. *)
Theorem C5_at_most_one_allocation_per_mutex env m s next out st' :
  AddAtomicMutex.mutate env s (MS next ∅) = Done (out, st') →
  (mutex_allocations m out ≤ mutex_allocations m s + 1)%nat.
Proof.
  intros H. apply (AddAtomicMutex_mutate_allocations env m) in H as [_ H].
  simpl in H. destruct (decide (m ∈ ms_data st')); set_solver by lia.
Qed.

(** ** The store-in-atomic finder *)

Arguments IRGraphVisitor.include : simpl never.
Arguments IRGraphVisitor.include_expr : simpl never.

Lemma stmt_id_in_node_ids s : stmt_node_ids s = stmt_id s :: tail (stmt_node_ids s).
Proof. by destruct s. Qed.

Lemma stmt_id_in_all_ids s : stmt_id s ∈ all_ids s.
Proof.
  unfold all_ids. rewrite (stmt_id_in_node_ids s). set_solver.
Qed.

Lemma finder_result_found names s d :
  FindStoreInAtomicMutex.found d = true → finder_result names s d = d.
Proof. unfold finder_result. by intros ->. Qed.

Ltac unshared_split H :=
  unfold unshared in H; simpl in H;
  rewrite ?NoDup_cons, ?NoDup_app, ?Forall_forall in H.

(** What a statement that is not shared says of the statement below it. *)
Lemma unshared_body s b :
  match s with
  | LetStmt _ _ _ b' | Atomic _ _ _ b' | Allocate _ _ _ _ _ _ b' _ _
  | ProducerConsumer _ _ _ b' | For _ _ _ _ b' => b = b'
  | Block _ a b' => b = a ∨ b = b'
  | _ => False
  end →
  unshared s →
  unshared b
  ∧ (∀ j, j ∈ stmt_node_ids b → j ∈ tail (stmt_node_ids s))
  ∧ (∀ j, j ∈ stmt_node_ids b → j ∉ stmt_expr_ids s)
  ∧ all_ids b ⊆ all_ids s.
Proof.
  unfold all_ids.
  destruct s; simpl; try done; try (intros ->); try (intros [-> | ->]);
    intros Hun; unshared_split Hun; unfold unshared;
    rewrite ?Forall_forall; set_solver.
Qed.

Lemma unshared_Block i a b :
  unshared (Block i a b) →
  ∀ j, j ∈ stmt_node_ids b → j ∉ all_ids a.
Proof.
  intros Hun. unshared_split Hun. unfold all_ids. set_solver.
Qed.

Lemma stmt_expr_ids_all_ids s : list_to_set (stmt_expr_ids s) ⊆ all_ids s.
Proof. unfold all_ids. set_solver. Qed.

(** An expression included on the way leaves the fields alone and marks
    addresses of expressions only. *)
Lemma include_expr_step {X} (e : Expr) (st : gv_state X) (d : X) (V E : gset node_id) :
  list_to_set (expr_ids e) ⊆ E →
  gv_data st = d ∧ gv_visited st ⊆ V ∪ E →
  gv_data (IRGraphVisitor.include_expr e st) = d
  ∧ gv_visited (IRGraphVisitor.include_expr e st) ⊆ V ∪ E.
Proof.
  intros He [Hd Hv].
  pose proof (include_expr_data e st) as Hd'.
  pose proof (include_expr_visited e st) as [_ Hv'].
  split; [congruence|].
  set (v' := gv_visited (IRGraphVisitor.include_expr e st)) in *. clearbody v'.
  set_solver.
Qed.

Lemma include_exprs_step {X} (l : list Expr) (st : gv_state X) (d : X)
    (V E : gset node_id) :
  list_to_set (flat_map expr_ids l) ⊆ E →
  gv_data st = d ∧ gv_visited st ⊆ V ∪ E →
  gv_data (fold_left (λ st e, IRGraphVisitor.include_expr e st) l st) = d
  ∧ gv_visited (fold_left (λ st e, IRGraphVisitor.include_expr e st) l st) ⊆ V ∪ E.
Proof.
  intros He [Hd Hv].
  pose proof (include_exprs_data l st) as Hd'.
  pose proof (include_exprs_visited l st) as [_ Hv'].
  split; [congruence|].
  set (v' := gv_visited (fold_left _ l st)) in *. clearbody v'.
  set_solver.
Qed.

Lemma finder_result_Atomic names id p m body d :
  FindStoreInAtomicMutex.found d = false →
  String.eqb m "" = false →
  let d2 := finder_result names body
              (FindStoreInAtomicMutex.set_in_atomic_mutex true d) in
  FindStoreInAtomicMutex.set_in_atomic_mutex (FindStoreInAtomicMutex.in_atomic_mutex d)
    (if FindStoreInAtomicMutex.found d2
     then FindStoreInAtomicMutex.set_names p m d2 else d2)
  = finder_result names (Atomic id p m body) d.
Proof.
  intros Hf Hm. destruct d as [f p0 m0 ia]. simpl in Hf. subst f.
  unfold finder_result. simpl. rewrite Hm.
  destruct (enclosing_regions names true body) as [[|[p' m'] l]|]; simpl; done.
Qed.

Section FinderOk.
Variable store_names : gset string.
#[local] Abbreviation visit := (FindStoreInAtomicMutex.visit_stmt store_names).
#[local] Abbreviation include := (IRGraphVisitor.include stmt_id visit).

Lemma include_finder_ok s st :
  finder_ok store_names s →
  unshared s →
  (∀ i, i ∈ stmt_node_ids s → i ∉ gv_visited st) →
  gv_data (include s st) = finder_result store_names s (gv_data st)
  ∧ gv_visited (include s st) ⊆ gv_visited st ∪ all_ids s.
Proof.
  intros Hok Hun Hfresh. unfold IRGraphVisitor.include.
  rewrite stmt_id_in_node_ids in Hfresh.
  destruct (decide _) as [Hin|Hin].
  { exfalso. apply (Hfresh (stmt_id s)); [constructor|exact Hin]. }
  destruct (Hok (GV ({[stmt_id s]} ∪ gv_visited st) (gv_data st)) Hun) as [Hd Hv].
  - intros i Hi. simpl. destruct Hun as [Hnd _].
    rewrite stmt_id_in_node_ids in Hnd. apply NoDup_cons in Hnd as [Hnd _].
    assert (i ∉ gv_visited st) by (apply Hfresh; by constructor).
    assert (i ≠ stmt_id s) by (intros ->; done).
    set_solver.
  - split; [done|]. simpl in Hv.
    pose proof (stmt_id_in_all_ids s).
    set (v' := gv_visited (visit s _)) in *. clearbody v'.
    clear -Hv H. set_solver.
Qed.

(** A statement below [s] that is included after expressions of [s]. *)
Lemma include_body_ok s b (st st1 : gv_state FindStoreInAtomicMutex.fields) :
  match s with
  | LetStmt _ _ _ b' | Atomic _ _ _ b' | Allocate _ _ _ _ _ _ b' _ _
  | ProducerConsumer _ _ _ b' | For _ _ _ _ b' => b = b'
  | Block _ a b' => b = a ∨ b = b'
  | _ => False
  end →
  finder_ok store_names b →
  unshared s →
  (∀ i, i ∈ tail (stmt_node_ids s) → i ∉ gv_visited st) →
  gv_visited st1 ⊆ gv_visited st ∪ list_to_set (stmt_expr_ids s) →
  gv_data (include b st1) = finder_result store_names b (gv_data st1)
  ∧ gv_visited (include b st1) ⊆ gv_visited st ∪ all_ids s.
Proof.
  intros Hb Hok Hun Hfresh Hv1.
  destruct (unshared_body s b Hb Hun) as (Hun' & Htl & Hex & Hall).
  destruct (include_finder_ok b st1 Hok Hun') as [Hd Hv].
  { intros j Hj. specialize (Hfresh j (Htl j Hj)). specialize (Hex j Hj).
    clear -Hfresh Hex Hv1. set_solver. }
  split; [done|].
  pose proof (stmt_expr_ids_all_ids s) as He.
  set (v' := gv_visited (include b st1)) in *. clearbody v'.
  clear -Hv Hv1 Hall He. set_solver.
Qed.
End FinderOk.

Section FinderAll.
Variable store_names : gset string.
#[local] Abbreviation visit := (FindStoreInAtomicMutex.visit_stmt store_names).
#[local] Abbreviation include := (IRGraphVisitor.include stmt_id visit).

Lemma finder_ok_Store id name value index predicate :
  finder_ok store_names (Store id name value index predicate).
Proof.
  intros st Hun Hfresh. cbn [FindStoreInAtomicMutex.visit_stmt IRGraphVisitor.visit_stmt].
  set (st0 := if FindStoreInAtomicMutex.in_atomic_mutex (gv_data st)
              then _ else _).
  assert (Hst0 : gv_data st0 = finder_result store_names
                   (Store id name value index predicate) (gv_data st)
                 ∧ gv_visited st0 ⊆ gv_visited st
                     ∪ list_to_set (stmt_expr_ids (Store id name value index predicate))).
  { unfold st0, finder_result. destruct st as [vis [f p m ia]]; simpl.
    destruct f, ia; simpl; try (split; [done|set_solver]);
      destruct (decide (name ∈ store_names)); simpl;
      rewrite ?bool_decide_eq_true_2, ?bool_decide_eq_false_2 by done;
      (split; [done|set_solver]). }
  clearbody st0.
  apply (include_expr_step predicate) in Hst0; [|simpl; set_solver].
  apply (include_expr_step value) in Hst0; [|simpl; set_solver].
  apply (include_expr_step index) in Hst0; [|simpl; set_solver].
  destruct Hst0 as [Hd Hv]. split; [done|].
  pose proof (stmt_expr_ids_all_ids (Store id name value index predicate)) as He.
  set (v' := gv_visited (IRGraphVisitor.include_expr index _)) in *. clearbody v'.
  clear -Hv He. set_solver.
Qed.

Lemma start_step (s : Stmt) (st : gv_state FindStoreInAtomicMutex.fields) :
  gv_data st = gv_data st
  ∧ gv_visited st ⊆ gv_visited st ∪ list_to_set (stmt_expr_ids s).
Proof. split; [done|set_solver]. Qed.

Lemma finder_ok_LetStmt id name value body :
  finder_ok store_names body → finder_ok store_names (LetStmt id name value body).
Proof.
  intros IH st Hun Hfresh.
  cbn [FindStoreInAtomicMutex.visit_stmt IRGraphVisitor.visit_stmt].
  pose proof (start_step (LetStmt id name value body) st) as Hst.
  apply (include_expr_step value) in Hst as [Hd Hv]; [|simpl; set_solver].
  destruct (include_body_ok store_names (LetStmt id name value body) body st
              (IRGraphVisitor.include_expr value st) eq_refl IH Hun Hfresh Hv)
    as [Hd' Hv'].
  split; [|done]. by rewrite Hd', Hd.
Qed.

Lemma finder_ok_For id name min extent body :
  finder_ok store_names body → finder_ok store_names (For id name min extent body).
Proof.
  intros IH st Hun Hfresh.
  cbn [FindStoreInAtomicMutex.visit_stmt IRGraphVisitor.visit_stmt].
  pose proof (start_step (For id name min extent body) st) as Hst.
  apply (include_expr_step min) in Hst; [|simpl; set_solver].
  apply (include_expr_step extent) in Hst as [Hd Hv]; [|simpl; set_solver].
  destruct (include_body_ok store_names (For id name min extent body) body st
              _ eq_refl IH Hun Hfresh Hv) as [Hd' Hv'].
  split; [|done]. by rewrite Hd', Hd.
Qed.

Lemma finder_ok_Evaluate id value : finder_ok store_names (Evaluate id value).
Proof.
  intros st Hun Hfresh.
  cbn [FindStoreInAtomicMutex.visit_stmt IRGraphVisitor.visit_stmt].
  pose proof (start_step (Evaluate id value) st) as Hst.
  apply (include_expr_step value) in Hst as [Hd Hv]; [|simpl; set_solver].
  split.
  - rewrite Hd. unfold finder_result. simpl.
    by destruct (FindStoreInAtomicMutex.found _).
  - pose proof (stmt_expr_ids_all_ids (Evaluate id value)) as He.
    set (v' := gv_visited (IRGraphVisitor.include_expr value st)) in *.
    clearbody v'. clear -Hv He. set_solver.
Qed.

Lemma finder_ok_ProducerConsumer id name is_producer body :
  finder_ok store_names body →
  finder_ok store_names (ProducerConsumer id name is_producer body).
Proof.
  intros IH st Hun Hfresh.
  cbn [FindStoreInAtomicMutex.visit_stmt IRGraphVisitor.visit_stmt].
  pose proof (start_step (ProducerConsumer id name is_producer body) st)
    as [_ Hv].
  destruct (include_body_ok store_names (ProducerConsumer id name is_producer body)
              body st st eq_refl IH Hun Hfresh Hv) as [Hd' Hv'].
  split; done.
Qed.

Lemma finder_ok_Allocate id name t memory_type extents condition body new_expr
    free_function :
  finder_ok store_names body →
  finder_ok store_names
    (Allocate id name t memory_type extents condition body new_expr free_function).
Proof.
  intros IH st Hun Hfresh.
  cbn [FindStoreInAtomicMutex.visit_stmt IRGraphVisitor.visit_stmt].
  pose proof (start_step
    (Allocate id name t memory_type extents condition body new_expr free_function)
    st) as Hst.
  apply (include_exprs_step extents) in Hst; [|simpl; set_solver].
  apply (include_expr_step condition) in Hst; [|simpl; set_solver].
  set (st2 := IRGraphVisitor.include_expr condition _) in *.
  assert (Hst3 : gv_data (match new_expr with
                          | Some e => IRGraphVisitor.include_expr e st2
                          | None => st2
                          end) = gv_data st
                 ∧ gv_visited (match new_expr with
                               | Some e => IRGraphVisitor.include_expr e st2
                               | None => st2
                               end)
                     ⊆ gv_visited st
                       ∪ list_to_set (stmt_expr_ids
                           (Allocate id name t memory_type extents condition body
                              new_expr free_function))).
  { destruct new_expr as [e|]; [|exact Hst].
    apply (include_expr_step e) in Hst; [exact Hst|simpl; set_solver]. }
  destruct Hst3 as [Hd Hv].
  destruct (include_body_ok store_names
              (Allocate id name t memory_type extents condition body new_expr
                 free_function) body st _ eq_refl IH Hun Hfresh Hv) as [Hd' Hv'].
  split; [|done]. by rewrite Hd', Hd.
Qed.

Lemma finder_ok_Block id first rest :
  finder_ok store_names first → finder_ok store_names rest →
  finder_ok store_names (Block id first rest).
Proof.
  intros IH1 IH2 st Hun Hfresh.
  cbn [FindStoreInAtomicMutex.visit_stmt IRGraphVisitor.visit_stmt].
  destruct (unshared_body (Block id first rest) first (or_introl eq_refl) Hun)
    as (Hun1 & Htl1 & _ & Hall1).
  destruct (unshared_body (Block id first rest) rest (or_intror eq_refl) Hun)
    as (Hun2 & Htl2 & _ & Hall2).
  pose proof (unshared_Block id first rest Hun) as Hdisj.
  destruct (include_finder_ok store_names first st IH1 Hun1) as [Hd1 Hv1];
    [auto|].
  destruct (include_finder_ok store_names rest (include first st) IH2 Hun2)
    as [Hd2 Hv2].
  { intros j Hj. specialize (Hfresh j (Htl2 j Hj)). specialize (Hdisj j Hj).
    clear -Hfresh Hdisj Hv1. set_solver. }
  split.
  - rewrite Hd2, Hd1. unfold finder_result.
    destruct (FindStoreInAtomicMutex.found (gv_data st)) eqn:Hf.
    { by rewrite Hf. }
    simpl.
    destruct (enclosing_regions store_names _ first) as [[|[p m] l]|] eqn:He;
      simpl; rewrite ?Hf; try done.
  - set (v1 := gv_visited (include first st)) in *.
    set (v2 := gv_visited (include rest (include first st))) in *.
    clearbody v1 v2. clear -Hv1 Hv2 Hall1 Hall2. set_solver.
Qed.

Lemma finder_ok_Atomic id producer_name mutex_name body :
  finder_ok store_names body →
  finder_ok store_names (Atomic id producer_name mutex_name body).
Proof.
  intros IH st Hun Hfresh.
  cbn [FindStoreInAtomicMutex.visit_stmt].
  destruct (unshared_body (Atomic id producer_name mutex_name body) body
              eq_refl Hun) as (Hun' & Htl & _ & Hall).
  destruct (negb (FindStoreInAtomicMutex.found (gv_data st))
            && negb (String.eqb mutex_name "")) eqn:Hcond.
  - apply andb_true_iff in Hcond as [Hnf Hm].
    apply negb_true_iff in Hnf, Hm.
    destruct (include_finder_ok store_names body
                (with_data (FindStoreInAtomicMutex.set_in_atomic_mutex true) st)
                IH Hun') as [Hd' Hv']; [auto|].
    split.
    + set (st2 := include body _) in *. clearbody st2.
      destruct st2 as [vis2 d2]. cbn [gv_data with_data] in *. subst d2.
      rewrite <- (finder_result_Atomic store_names id producer_name mutex_name
                    body (gv_data st) Hnf Hm).
      cbv zeta.
      by destruct (FindStoreInAtomicMutex.found (finder_result store_names body _)).
    + set (st2 := include body _) in *. clearbody st2.
      assert (Hvis : ∀ b : bool,
                gv_visited
                  (with_data (FindStoreInAtomicMutex.set_in_atomic_mutex
                                (FindStoreInAtomicMutex.in_atomic_mutex (gv_data st)))
                     (if b then with_data (FindStoreInAtomicMutex.set_names
                                             producer_name mutex_name) st2
                      else st2)) = gv_visited st2) by (by intros []).
      rewrite Hvis. cbn [gv_visited with_data] in Hv'.
      set (v' := gv_visited st2) in *. clearbody v'.
      clear -Hv' Hall. set_solver.
  - destruct (include_finder_ok store_names body st IH Hun') as [Hd' Hv'];
      [auto|].
    split.
    + rewrite Hd'. unfold finder_result. cbn [enclosing_regions].
      destruct (FindStoreInAtomicMutex.found (gv_data st)) eqn:Hf; [done|].
      simpl in Hcond. apply negb_false_iff in Hcond. by rewrite Hcond.
    + set (v' := gv_visited (include body st)) in *. clearbody v'.
      clear -Hv' Hall. set_solver.
Qed.

Lemma finder_ok_all s : finder_ok store_names s.
Proof.
  induction s;
    auto using finder_ok_LetStmt, finder_ok_Store, finder_ok_Atomic,
      finder_ok_Allocate, finder_ok_ProducerConsumer, finder_ok_Block,
      finder_ok_Evaluate, finder_ok_For.
Qed.
End FinderAll.
Lemma FindStoreInAtomicMutex_run_spec store_names body :
  unshared body →
  FindStoreInAtomicMutex.run store_names body
  = finder_result store_names body
      (FindStoreInAtomicMutex.Fields false "" "" false).
Proof.
  intros Hun. unfold FindStoreInAtomicMutex.run.
  destruct (finder_ok_all store_names body
              (GV ∅ (FindStoreInAtomicMutex.Fields false "" "" false)) Hun)
    as [Hd _]; [|done].
  intros i _. simpl. set_solver.
Qed.

(** Outside of every region with a mutex name, a store that is found has
    such a region around it. *)
Lemma enclosing_regions_outside store_names s :
  enclosing_regions store_names false s ≠ Some [].
Proof.
  induction s; simpl; try done.
  - destruct (String.eqb mutex_name ""); [done|].
    by destruct (enclosing_regions store_names true s).
  - by destruct (enclosing_regions store_names false s1).
Qed.

(** C10: in a statement whose statement nodes are not shared, when the
    first store to one of the searched names that is inside a region with a
    mutex name has the regions [outermost :: inner] with a mutex name around
    it, outermost first, the finder reports that it found a store, and the
    producer name and the mutex name it reports are those of [outermost],
    whatever the regions [inner] are. *)
Theorem C10_finder_reports_outermost_region store_names body outermost inner :
  unshared body →
  enclosing_regions store_names false body = Some (outermost :: inner) →
  FindStoreInAtomicMutex.run store_names body
  = FindStoreInAtomicMutex.Fields true outermost.1 outermost.2 false.
Proof.
  intros Hun Hregions.
  rewrite (FindStoreInAtomicMutex_run_spec store_names body Hun).
  unfold finder_result. simpl. rewrite Hregions. by destruct outermost.
Qed.

Lemma C10_nested_regions_witness :
  unshared nested_regions
  ∧ enclosing_regions {["g"]} false nested_regions
    = Some [("f", "f.mutex"); ("g", "g.mutex")]
  ∧ FindStoreInAtomicMutex.run {["g"]} nested_regions
    = FindStoreInAtomicMutex.Fields true "f" "f.mutex" false.
Proof.
  assert (Hun : unshared nested_regions)
    by (apply (bool_decide_unpack _); vm_compute; reflexivity).
  split; [exact Hun|]. split; [reflexivity|].
  apply (C10_finder_reports_outermost_region {["g"]} nested_regions
           ("f", "f.mutex") [("g", "g.mutex")] Hun).
  reflexivity.
Defined.

(** ** The finder of an allocation *)

(** A store found for some names is found for the names of all stores. *)
Lemma enclosing_regions_stored_names names all_names s : ∀ in_atomic_mutex,
  FindStoreInAtomicMutex.stored_names s ⊆ all_names →
  is_Some (enclosing_regions names in_atomic_mutex s) →
  is_Some (enclosing_regions all_names in_atomic_mutex s).
Proof.
  induction s; intros a Hsub; simpl in *; auto.
  - intros Hsome. destruct a; simpl in *; [|by destruct Hsome].
    rewrite bool_decide_eq_true_2; [eauto|set_solver].
  - destruct (String.eqb mutex_name ""); [auto|].
    rewrite !fmap_is_Some. auto.
  - intros Hsome.
    destruct (enclosing_regions all_names a s1) eqn:H1; [eauto|].
    destruct (enclosing_regions names a s1) eqn:H1'.
    + assert (Hs : is_Some (enclosing_regions all_names a s1)).
      { apply IHs1; [set_solver|]. rewrite H1'. eauto. }
      rewrite H1 in Hs. by destruct Hs.
    + apply IHs2; [set_solver|done].
Qed.

(** On a statement whose statement nodes are not shared, the finder reads
    its set when a store to one of some names is inside a region with a
    mutex name. *)
Lemma FindStoreInAtomicMutex_reads_store_names names body :
  unshared body →
  is_Some (enclosing_regions names false body) →
  FindStoreInAtomicMutex.reads_store_names body = true.
Proof.
  intros Hun Hsome. unfold FindStoreInAtomicMutex.reads_store_names.
  rewrite (FindStoreInAtomicMutex_run_spec _ body Hun).
  apply (enclosing_regions_stored_names names
           (FindStoreInAtomicMutex.stored_names body)) in Hsome as [r Hr]; [|done].
  unfold finder_result. simpl. rewrite Hr. by destruct r as [|[p m] r].
Qed.

(** C4: the synthesizer visits an allocation of the buffer [name] whose
    body, with unshared statement nodes, holds a store to [name] inside a
    region with a mutex name.  The finder of the visit looks [name] up in a
    set that was destroyed before the traversal began: the visit ends in a
    read of a destroyed object, with no statement and no mutex array. *)
Theorem C4_allocation_reads_destroyed_set env id name t memory_type extents
    condition body new_expr free_function st regions :
  unshared body →
  enclosing_regions {[name]} false body = Some regions →
  AddAtomicMutex.mutate env
    (Allocate id name t memory_type extents condition body new_expr free_function)
    st
  = DanglingReference.
Proof.
  intros Hun Hregions. simpl.
  rewrite (FindStoreInAtomicMutex_reads_store_names {[name]} body Hun); [done|].
  rewrite Hregions. eauto.
Qed.

(** The region of [local_update] keeps its mutex name through the
    downgrade, and the whole pass ends in the same read. *)
Lemma C4_local_update_witness :
  unshared inner_region
  ∧ enclosing_regions {["g"]} false inner_region = Some [("g", "g.mutex")]
  ∧ AddAtomicMutex.mutate ∅ local_update (MS 22 ∅) = DanglingReference
  ∧ RemoveUnnecessaryMutexUse.mutate local_update (MS 22 ∅)
    = Done (local_update, MS 22 ∅)
  ∧ add_atomic_mutex local_update ∅ = DanglingReference.
Proof.
  assert (Hun : unshared inner_region)
    by (apply (bool_decide_unpack _); vm_compute; reflexivity).
  assert (Hregions : enclosing_regions {["g"]} false inner_region
                     = Some [("g", "g.mutex")]) by reflexivity.
  split; [exact Hun|]. split; [exact Hregions|].
  split.
  - exact (C4_allocation_reads_destroyed_set ∅ 20 "g" (Int_ 32) Heap
             [Variable_ 21 (Int_ 32) "w"] const_true inner_region None ""
             (MS 22 ∅) [("g", "g.mutex")] Hun Hregions).
  - split; vm_compute; reflexivity.
Defined.

(** The producer nodes of [f.0] and [f.1] are around one region, whose
    mutex name both finders report: the outer one gets the mutex array, the
    inner one none. *)
Lemma C5_shared_producers_witness :
  ∃ out st',
    AddAtomicMutex.mutate env_tuple shared_producers (MS 13 ∅) = Done (out, st')
    ∧ mutex_allocations "f.mutex" shared_producers = 0%nat
    ∧ mutex_allocations "f.mutex" out = 1%nat
    ∧ (mutex_allocations "f.mutex" out
       ≤ mutex_allocations "f.mutex" shared_producers + 1)%nat.
Proof.
  do 2 eexists. split; [vm_compute; reflexivity|]. split; [reflexivity|].
  split; [reflexivity|].
  eapply (C5_at_most_one_allocation_per_mutex env_tuple "f.mutex"
            shared_producers 13).
  vm_compute. reflexivity.
Defined.

Lemma C9_output_producer_witness :
  (∀ n, n ∈ producer_names output_producer → is_Some (env_with_output !! n))
  ∧ add_atomic_mutex output_producer env_with_output ≠ InvalidDereference.
Proof.
  assert (H : ∀ n, n ∈ producer_names output_producer
                   → is_Some (env_with_output !! n)).
  { intros n Hn. simpl in Hn. apply list_elem_of_singleton in Hn as ->.
    vm_compute. eauto. }
  split; [exact H|].
  exact (C9_producers_in_env_no_invalid_dereference output_producer
           env_with_output H).
Defined.

(** C1: the body of the region stores to [f] a variable bound to a load of
    [f], so it has a store whose value depends on a buffer written in the
    same body; the variable node has been visited outside the store value
    before, the finder does not visit it again, and the analyzer clears the
    mutex name of the region.  The same happens, with no node shared, when
    the name of the buffer is empty. *)
Theorem C1_dependency_missed_mutex_cleared :
  (has_lifted_dependency lifted_load_body = true
   ∧ ∃ out st',
       RemoveUnnecessaryMutexUse.mutate lifted_load_region (MS 11 ∅)
       = Done (out, st')
       ∧ mutex_names out = [""])
  ∧ (∃ body,
       unnamed_store_region = Atomic 10 "" "mutex" body
       ∧ has_lifted_dependency body = true
       ∧ NoDup (stmt_node_ids body ++ stmt_expr_ids body)
       ∧ ∃ out st',
           RemoveUnnecessaryMutexUse.mutate unnamed_store_region (MS 11 ∅)
           = Done (out, st')
           ∧ mutex_names out = [""]).
Proof.
  split.
  - split; [reflexivity|]. do 2 eexists. split; vm_compute; reflexivity.
  - eexists. split; [reflexivity|]. split; [reflexivity|].
    split; [apply (bool_decide_unpack _); vm_compute; reflexivity|].
    do 2 eexists. split; vm_compute; reflexivity.
Qed.

(** * Further properties of the pass *)

(** ** What the synthesizer leaves alone *)

Lemma IRMutator_visit_mutex_names {X} (mutate : Stmt → M X Stmt) s :
  (∀ b, b ∈ match s with
            | LetStmt _ _ _ b | Atomic _ _ _ b | Allocate _ _ _ _ _ _ b _ _
            | ProducerConsumer _ _ _ b | For _ _ _ _ b => [b]
            | Block _ a b => [a; b]
            | _ => []
            end →
        ∀ st out st', mutate b st = Done (out, st') →
                      mutex_names out = mutex_names b) →
  ∀ st out st',
    IRMutator.visit_stmt mutate s st = Done (out, st') →
    mutex_names out = mutex_names s.
Proof.
  intros IH st out st' H.
  destruct s; unfold IRMutator.visit_stmt in H; repeat mutate_step IH;
    try done;
    repeat match goal with
      | H : mutate ?b _ = Done _ |- _ =>
          apply (IH b) in H; [|set_solver]
      end;
    simpl; congruence.
Qed.

(** X1: the synthesizer never changes a mutex name: the atomic nodes of the
    statement that comes out carry, in order, the mutex names of the atomic
    nodes of the statement that went in. *)
Theorem AddAtomicMutex_mutate_keeps_mutex_names env s :
  ∀ st out st',
    AddAtomicMutex.mutate env s st = Done (out, st') →
    mutex_names out = mutex_names s.
Proof.
  induction s; intros st out st' H; simpl in H;
    try (revert H; apply IRMutator_visit_mutex_names; intros b Hb;
         repeat (apply elem_of_cons in Hb as [->|Hb]; [assumption|]);
         by apply elem_of_nil in Hb).
  - (* Atomic *)
    destruct (String.eqb mutex_name "").
    + revert H; apply IRMutator_visit_mutex_names; intros b Hb.
      apply list_elem_of_singleton in Hb as ->. assumption.
    + destruct (FindStoreIndex.run s); repeat mutate_step IHs;
        simpl; by rewrite app_nil_r.
  - (* Allocate *)
    assert (Hdef : ∀ st out st',
      IRMutator.visit_stmt (AddAtomicMutex.mutate env)
        (Allocate id name t memory_type extents condition s new_expr free_function)
        st = Done (out, st') →
      mutex_names out
      = mutex_names (Allocate id name t memory_type extents condition s new_expr
                       free_function)).
    { apply IRMutator_visit_mutex_names; intros b Hb.
      apply list_elem_of_singleton in Hb as ->. assumption. }
    destruct (FindStoreInAtomicMutex.reads_store_names s); [done|].
    destruct (negb _); [by apply Hdef in H|].
    apply bind_Done in H as (allocated & st1 & [= <- <-] & H).
    destruct (decide _) as [Hin|Hin]; [by apply Hdef in H|].
    apply bind_Done in H as ([] & st2 & [= <-] & H).
    apply bind_Done in H as (body & st3 & Hbody & H).
    apply bind_Done in H as (extent & st4 & Hextent & H).
    apply bind_Done in H as (body' & st5 & Halloc & H).
    unfold make, fresh, bind, ret in H. injection H as <- <-.
    apply IHs in Hbody.
    destruct (allocate_mutex_done
                (FindStoreInAtomicMutex.mutex_name
                   (FindStoreInAtomicMutex.run {[name]} s)) extent body st4)
      as (i & Hi & _).
    rewrite Hi in Halloc. injection Halloc as <- <-. done.
  - (* ProducerConsumer *)
    assert (Hdef : ∀ st out st',
      IRMutator.visit_stmt (AddAtomicMutex.mutate env)
        (ProducerConsumer id name is_producer s) st = Done (out, st') →
      mutex_names out = mutex_names (ProducerConsumer id name is_producer s)).
    { apply IRMutator_visit_mutex_names; intros b Hb.
      apply list_elem_of_singleton in Hb as ->. assumption. }
    destruct is_producer; simpl in H; [|by apply Hdef in H].
    destruct (env !! name) as [f|]; [|done].
    destruct (output_buffers f) as [|output_buffer bs]; [done|].
    destruct (negb _); [by apply Hdef in H|].
    apply bind_Done in H as (allocated & st1 & [= <- <-] & H).
    destruct (decide _) as [Hin|Hin]; [by apply Hdef in H|].
    apply bind_Done in H as ([] & st2 & [= <-] & H).
    apply bind_Done in H as (extent & st3 & Hextent & H).
    apply bind_Done in H as (body & st4 & Hbody & H).
    apply bind_Done in H as (body' & st5 & Halloc & H).
    unfold make, fresh, bind, ret in H. injection H as <- <-.
    apply IHs in Hbody.
    match type of Halloc with
    | AddAtomicMutex.allocate_mutex ?m _ _ _ = _ =>
        destruct (allocate_mutex_done m extent body st4) as (i & Hi & _)
    end.
    rewrite Hi in Halloc. injection Halloc as <- <-. done.
Qed.

Lemma AddAtomicMutex_mutate_keeps_mutex_names_witness :
  ∃ out st',
    AddAtomicMutex.mutate ∅ nested_regions (MS 18 ∅) = Done (out, st')
    ∧ mutex_names out = mutex_names nested_regions.
Proof.
  do 2 eexists. split.
  - vm_compute. reflexivity.
  - eapply (AddAtomicMutex_mutate_keeps_mutex_names ∅ nested_regions (MS 18 ∅)).
    vm_compute. reflexivity.
Defined.

(** ** When the synthesizer completes *)

Lemma bind_failure {X A B} (m : M X A) (k : A → M X B) st f :
  m st = failure_outcome f → bind m k st = failure_outcome f.
Proof. unfold bind. intros ->. by destruct f. Qed.

Lemma failure_outcome_not_Done {A} f (a : A) : failure_outcome f ≠ Done a.
Proof. by destruct f. Qed.

Lemma IRMutator_visit_outcome env s :
  (∀ b, b ∈ match s with
            | LetStmt _ _ _ b | Atomic _ _ _ b | Allocate _ _ _ _ _ _ b _ _
            | ProducerConsumer _ _ _ b | For _ _ _ _ b => [b]
            | Block _ a b => [a; b]
            | _ => []
            end →
        ∀ st, outcome_as_expected (first_failure env b)
                (AddAtomicMutex.mutate env b st)) →
  ∀ st,
    outcome_as_expected
      (match s with
       | LetStmt _ _ _ b | Atomic _ _ _ b | Allocate _ _ _ _ _ _ b _ _
       | ProducerConsumer _ _ _ b | For _ _ _ _ b => first_failure env b
       | Block _ a b =>
           match first_failure env a with
           | Some f => Some f
           | None => first_failure env b
           end
       | _ => None
       end)
      (IRMutator.visit_stmt (AddAtomicMutex.mutate env) s st).
Proof.
  intros IH st.
  destruct s; unfold IRMutator.visit_stmt;
    try (simpl; munfold; by eexists);
    try (pose proof (IH s ltac:(set_solver) st) as Hs;
         destruct (first_failure env s) as [f|]; simpl in *;
         [by apply bind_failure|];
         destruct Hs as [[b st1] Hs]; unfold bind; rewrite Hs;
         destruct (IRMutator.same_as _ _); munfold; by eexists).
  (* Block *)
  pose proof (IH s1 ltac:(set_solver) st) as H1.
  destruct (first_failure env s1) as [f|]; simpl in *;
    [by apply bind_failure|].
  destruct H1 as [[b1 st1] H1]. unfold bind at 1. rewrite H1.
  pose proof (IH s2 ltac:(set_solver) st1) as H2.
  destruct (first_failure env s2) as [f|]; simpl in *;
    [by apply bind_failure|].
  destruct H2 as [[b2 st2] H2]. unfold bind. rewrite H2.
  destruct (_ && _); munfold; by eexists.
Qed.

(** X2: the synthesizer completes exactly when, of the nodes it reaches
    (those not inside an atomic node with a mutex name), every producer
    node has its name in the environment and a function with an output
    buffer, and no allocation node has a finder that reads its set;
    otherwise its outcome is that of the first node that fails this: the
    use of an invalid iterator when the name is missing, the failed
    assertion when the function has no output buffer, the read of a
    destroyed object at the allocation. *)
Theorem AddAtomicMutex_mutate_outcome env s :
  ∀ st,
    outcome_as_expected (first_failure env s) (AddAtomicMutex.mutate env s st).
Proof.
  induction s; intros st; simpl;
    try (apply (IRMutator_visit_outcome env (LetStmt id name value s));
         intros b Hb; apply list_elem_of_singleton in Hb as ->; assumption);
    try (apply (IRMutator_visit_outcome env (For id name min extent s));
         intros b Hb; apply list_elem_of_singleton in Hb as ->; assumption);
    try (munfold; by eexists).
  - (* Atomic *)
    destruct (String.eqb mutex_name "").
    + apply (IRMutator_visit_outcome env (Atomic id producer_name mutex_name s)).
      intros b Hb. apply list_elem_of_singleton in Hb as ->. assumption.
    + destruct (FindStoreIndex.run s); munfold; by eexists.
  - (* Allocate *)
    assert (Hdef : ∀ st,
      outcome_as_expected (first_failure env s)
        (IRMutator.visit_stmt (AddAtomicMutex.mutate env)
           (Allocate id name t memory_type extents condition s new_expr
              free_function) st)).
    { apply (IRMutator_visit_outcome env
               (Allocate id name t memory_type extents condition s new_expr
                  free_function)).
      intros b Hb. apply list_elem_of_singleton in Hb as ->. assumption. }
    destruct (FindStoreInAtomicMutex.reads_store_names s); [done|].
    destruct (negb _); [apply Hdef|].
    unfold bind at 1, get_data.
    destruct (decide _) as [Hin|Hin]; [apply Hdef|].
    unfold bind at 1, modify_data.
    match goal with |- outcome_as_expected _ (bind _ _ ?st0) =>
      pose proof (IHs st0) as Hs end.
    destruct (first_failure env s) as [f|]; simpl in *;
      [by apply bind_failure|].
    destruct Hs as [[body st1] Hs]. unfold bind at 1. rewrite Hs.
    destruct (total_extent_done extents st1) as [e He].
    unfold bind at 1. rewrite He. munfold. by eexists.
  - (* ProducerConsumer *)
    assert (Hdef : ∀ st,
      outcome_as_expected (first_failure env s)
        (IRMutator.visit_stmt (AddAtomicMutex.mutate env)
           (ProducerConsumer id name is_producer s) st)).
    { apply (IRMutator_visit_outcome env (ProducerConsumer id name is_producer s)).
      intros b Hb. apply list_elem_of_singleton in Hb as ->. assumption. }
    destruct is_producer; simpl; [|apply Hdef].
    destruct (env !! name) as [f|]; [|done].
    destruct (output_buffers f) as [|output_buffer bs]; [done|].
    destruct (negb _); [apply Hdef|].
    unfold bind at 1, get_data.
    destruct (decide _) as [Hin|Hin]; [apply Hdef|].
    unfold bind at 1, modify_data.
    match goal with
    |- outcome_as_expected _ (bind (AddAtomicMutex.total_extent ?l) _ ?st0) =>
      destruct (total_extent_done l st0) as [e He] end.
    unfold bind at 1. rewrite He.
    match goal with |- outcome_as_expected _ (bind _ _ ?st0) =>
      pose proof (IHs st0) as Hs end.
    destruct (first_failure env s) as [f'|]; simpl in *;
      [by apply bind_failure|].
    destruct Hs as [[body st1] Hs]. unfold bind at 1. rewrite Hs.
    munfold. by eexists.
  - (* Block *)
    apply (IRMutator_visit_outcome env (Block id s1 s2)).
    intros b Hb.
    apply elem_of_cons in Hb as [->|Hb]; [assumption|].
    apply list_elem_of_singleton in Hb as ->. assumption.
Qed.

(** ** The store-in-atomic finder on any statement *)

Lemma finder_sound_refl names s d : finder_sound names s d d.
Proof.
  split; [done|]. split; [done|]. split; [done|].
  intros H1 H2. congruence.
Qed.

Lemma finder_sound_mono names s s' d d' :
  (∀ n, (n, tt) ∈ written_names s → (n, tt) ∈ written_names s') →
  (∀ r, r ∈ atomic_regions s → r ∈ atomic_regions s') →
  finder_sound names s d d' → finder_sound names s' d d'.
Proof.
  intros Hw Hr (Hia & Hf & Hnf & Hfound).
  split; [done|]. split; [done|]. split; [done|].
  intros H1 H2. destruct (Hfound H1 H2) as [(n & Hn & Hin) Hnames].
  split; [exists n; auto|].
  destruct Hnames as [Hsame | (b & Hb & Hm & Hwb)]; [by left|].
  right. exists b. auto.
Qed.

Lemma finder_sound_trans names s d d1 d2 :
  finder_sound names s d d1 → finder_sound names s d1 d2 →
  finder_sound names s d d2.
Proof.
  intros (Hia1 & Hf1 & Hnf1 & Hfound1) (Hia2 & Hf2 & Hnf2 & Hfound2).
  split; [congruence|]. split; [|split].
  - intros Hd. pose proof (Hf1 Hd) as ->. by apply Hf2.
  - intros Hd2. assert (d2 = d1) as -> by auto. auto.
  - intros Hd Hd2. destruct (FindStoreInAtomicMutex.found d1) eqn:Hd1.
    + pose proof (Hf2 eq_refl) as ->. auto.
    + pose proof (Hnf1 eq_refl) as ->. auto.
Qed.

Section FinderSound.
Variable store_names : gset string.
#[local] Abbreviation visit := (FindStoreInAtomicMutex.visit_stmt store_names).
#[local] Abbreviation include := (IRGraphVisitor.include stmt_id visit).

Lemma include_finder_sound s :
  (∀ st, finder_sound store_names s (gv_data st) (gv_data (visit s st))) →
  ∀ st, finder_sound store_names s (gv_data st) (gv_data (include s st)).
Proof.
  intros H st. unfold IRGraphVisitor.include.
  destruct (decide _); [apply finder_sound_refl|].
  apply (H (GV _ (gv_data st))).
Qed.

(** A statement below [s], included from fields that the expressions of
    [s] left as they were. *)
Lemma include_body_sound s b (st st1 : gv_state FindStoreInAtomicMutex.fields) :
  match s with
  | LetStmt _ _ _ b' | Atomic _ _ _ b' | Allocate _ _ _ _ _ _ b' _ _
  | ProducerConsumer _ _ _ b' | For _ _ _ _ b' => b = b'
  | Block _ a b' => b = a ∨ b = b'
  | _ => False
  end →
  (∀ st, finder_sound store_names b (gv_data st) (gv_data (visit b st))) →
  finder_sound store_names s (gv_data st1) (gv_data (include b st1)).
Proof.
  intros Hb IH.
  apply (finder_sound_mono store_names b s); [| |by apply include_finder_sound].
  - unfold written_names.
    destruct s; simpl in *; try done; try (destruct Hb as [-> | ->]); subst;
      try done; intros n; rewrite ?flat_map_app; set_solver.
  - destruct s; simpl in *; try done; try (destruct Hb as [-> | ->]); subst;
      try done; intros r; set_solver.
Qed.

Lemma finder_sound_all s :
  ∀ st, finder_sound store_names s (gv_data st) (gv_data (visit s st)).
Proof.
  induction s; intros st;
    cbn [FindStoreInAtomicMutex.visit_stmt IRGraphVisitor.visit_stmt].
  - (* LetStmt *)
    rewrite <- (include_expr_data value st) at 1.
    by apply include_body_sound.
  - (* Store *)
    rewrite !include_expr_data.
    destruct st as [vis [f p m ia]]; simpl.
    destruct ia; simpl; [|apply finder_sound_refl].
    destruct (decide (name ∈ store_names)) as [Hin|Hin]; simpl;
      [|apply finder_sound_refl].
    split; [done|]. split; [simpl; by intros ->|]. split; [done|].
    intros _ _. split; [|by left].
    exists name. split; [done|]. unfold written_names. simpl. set_solver.
  - (* Atomic *)
    destruct (negb (FindStoreInAtomicMutex.found (gv_data st))
              && negb (String.eqb mutex_name "")) eqn:Hcond;
      [|by apply include_body_sound].
    apply andb_true_iff in Hcond as [Hnf Hm].
    apply negb_true_iff in Hnf, Hm.
    pose proof (include_finder_sound s IHs
                  (with_data (FindStoreInAtomicMutex.set_in_atomic_mutex true) st))
      as (Hia & _ & Hnone & Hfound).
    set (st2 := include s _) in *. clearbody st2.
    destruct st2 as [vis2 [f2 p2 m2 ia2]]. destruct st as [vis [f p m ia]].
    simpl in *. subst f ia2.
    destruct f2; simpl.
    + destruct (Hfound eq_refl eq_refl) as [Hw _].
      split; [done|]. split; [done|]. split; [done|].
      intros _ _. split.
      * destruct Hw as (n & Hn & Hin). exists n. done.
      * right. exists s. split; [by left|]. split; [|done].
        simpl. intros Heq. subst mutex_name. simpl in Hm. done.
    + injection (Hnone eq_refl) as -> ->. apply finder_sound_refl.
  - (* Allocate *)
    set (st3 := match new_expr with Some e => _ | None => _ end).
    assert (gv_data st3 = gv_data st) as <-.
    { unfold st3. destruct new_expr;
        by rewrite ?include_expr_data, ?include_exprs_data. }
    by apply include_body_sound.
  - (* ProducerConsumer *)
    by apply include_body_sound.
  - (* Block *)
    apply (finder_sound_trans store_names _ _ (gv_data (include s1 st))).
    + exact (include_body_sound (Block id s1 s2) s1 st st (or_introl eq_refl) IHs1).
    + exact (include_body_sound (Block id s1 s2) s2 st (include s1 st)
               (or_intror eq_refl) IHs2).
  - (* Evaluate *)
    rewrite include_expr_data. apply finder_sound_refl.
  - (* For *)
    rewrite <- (include_expr_data min st) at 1.
    rewrite <- (include_expr_data extent (IRGraphVisitor.include_expr min st)) at 1.
    by apply include_body_sound.
Qed.
End FinderSound.

Lemma FindStoreInAtomicMutex_run_sound store_names body :
  FindStoreInAtomicMutex.found (FindStoreInAtomicMutex.run store_names body) = true →
  ∃ region_body,
    (FindStoreInAtomicMutex.producer_name (FindStoreInAtomicMutex.run store_names body),
     FindStoreInAtomicMutex.mutex_name (FindStoreInAtomicMutex.run store_names body),
     region_body) ∈ atomic_regions body
    ∧ FindStoreInAtomicMutex.mutex_name (FindStoreInAtomicMutex.run store_names body) ≠ ""
    ∧ writes_one_of store_names region_body.
Proof.
  intros Hfound. unfold FindStoreInAtomicMutex.run in *.
  destruct (finder_sound_all store_names body
              (GV ∅ (FindStoreInAtomicMutex.Fields false "" "" false)))
    as (_ & _ & _ & H).
  destruct (H eq_refl Hfound) as [_ [[Hia _] | Hregion]]; [done|].
  exact Hregion.
Qed.

(** X3: whenever the store-in-atomic finder reports a store, the producer
    name and the mutex name it reports are those of an atomic node of the
    statement whose mutex name is not empty and whose body has a store to
    one of the names searched for -- on every statement, whatever nodes it
    shares. *)
Theorem FindStoreInAtomicMutex_found_is_sound store_names body :
  FindStoreInAtomicMutex.found (FindStoreInAtomicMutex.run store_names body) = true →
  ∃ region_body,
    (FindStoreInAtomicMutex.producer_name (FindStoreInAtomicMutex.run store_names body),
     FindStoreInAtomicMutex.mutex_name (FindStoreInAtomicMutex.run store_names body),
     region_body) ∈ atomic_regions body
    ∧ FindStoreInAtomicMutex.mutex_name (FindStoreInAtomicMutex.run store_names body) ≠ ""
    ∧ writes_one_of store_names region_body.
Proof. exact (FindStoreInAtomicMutex_run_sound store_names body). Qed.

(** When it reports none, its names are the empty ones it started with. *)
Lemma FindStoreInAtomicMutex_not_found store_names body :
  FindStoreInAtomicMutex.found (FindStoreInAtomicMutex.run store_names body) = false →
  FindStoreInAtomicMutex.run store_names body
  = FindStoreInAtomicMutex.Fields false "" "" false.
Proof.
  intros Hfound. unfold FindStoreInAtomicMutex.run in *.
  destruct (finder_sound_all store_names body
              (GV ∅ (FindStoreInAtomicMutex.Fields false "" "" false)))
    as (_ & _ & H & _).
  by apply H.
Qed.

Lemma FindStoreInAtomicMutex_found_witness :
  FindStoreInAtomicMutex.found (FindStoreInAtomicMutex.run {["g"]} nested_regions) = true
  ∧ ∃ region_body,
      (FindStoreInAtomicMutex.producer_name
         (FindStoreInAtomicMutex.run {["g"]} nested_regions),
       FindStoreInAtomicMutex.mutex_name
         (FindStoreInAtomicMutex.run {["g"]} nested_regions),
       region_body) ∈ atomic_regions nested_regions
      ∧ FindStoreInAtomicMutex.mutex_name
          (FindStoreInAtomicMutex.run {["g"]} nested_regions) ≠ ""
      ∧ writes_one_of {["g"]} region_body.
Proof.
  assert (H : FindStoreInAtomicMutex.found
                (FindStoreInAtomicMutex.run {["g"]} nested_regions) = true)
    by (vm_compute; reflexivity).
  split; [exact H|].
  exact (FindStoreInAtomicMutex_found_is_sound {["g"]} nested_regions H).
Defined.

(** ** A statement without a mutex name *)

Lemma atomic_regions_mutex_names s p m b :
  (p, m, b) ∈ atomic_regions s → m ∈ mutex_names s.
Proof.
  induction s; simpl; try set_solver.
Qed.

Lemma no_mutex_name_not_found store_names s :
  Forall (λ m, m = "") (mutex_names s) →
  FindStoreInAtomicMutex.found (FindStoreInAtomicMutex.run store_names s) = false.
Proof.
  intros Hall.
  destruct (FindStoreInAtomicMutex.found _) eqn:Hf; [|done].
  apply FindStoreInAtomicMutex_run_sound in Hf as (b & Hb & Hm & _).
  apply atomic_regions_mutex_names in Hb.
  rewrite Forall_forall in Hall. by apply Hall in Hb.
Qed.

Lemma same_as_refl s : IRMutator.same_as s s = true.
Proof. apply Nat.eqb_refl. Qed.

Lemma AddAtomicMutex_mutate_no_mutex_name env s :
  Forall (λ m, m = "") (mutex_names s) →
  first_failure env s = None →
  ∀ st, AddAtomicMutex.mutate env s st = Done (s, st).
Proof.
  induction s; simpl; intros Hall Hok st;
    try (unfold IRMutator.visit_stmt, bind; rewrite IHs by done;
         rewrite same_as_refl; done);
    try done.
  - (* Atomic *)
    apply Forall_cons in Hall as [-> Hall]. simpl in *.
    unfold IRMutator.visit_stmt, bind. rewrite IHs by done.
    by rewrite same_as_refl.
  - (* Allocate *)
    assert (Hr : FindStoreInAtomicMutex.reads_store_names s = false)
      by (by apply no_mutex_name_not_found).
    rewrite Hr in Hok |- *.
    rewrite no_mutex_name_not_found by done. simpl.
    unfold IRMutator.visit_stmt, bind. rewrite IHs by done.
    by rewrite same_as_refl.
  - (* ProducerConsumer *)
    assert (Hdef : IRMutator.visit_stmt (AddAtomicMutex.mutate env)
                     (ProducerConsumer id name is_producer s) st
                   = Done (ProducerConsumer id name is_producer s, st)
                   ∨ first_failure env s ≠ None).
    { destruct (first_failure env s) eqn:Hs; [by right|left].
      unfold IRMutator.visit_stmt, bind. rewrite IHs by done.
      by rewrite same_as_refl. }
    destruct is_producer; simpl.
    + destruct (env !! name) as [f|]; [|done].
      destruct (output_buffers f) as [|b bs]; [done|].
      rewrite no_mutex_name_not_found by done. simpl.
      destruct Hdef as [Hdef|Hdef]; done.
    + destruct Hdef as [Hdef|Hdef]; done.
  - (* Block *)
    apply Forall_app in Hall as [Hall1 Hall2].
    destruct (first_failure env s1) eqn:H1; [done|].
    unfold IRMutator.visit_stmt, bind.
    rewrite IHs1 by done. rewrite IHs2 by done.
    by rewrite !same_as_refl.
Qed.

(** X4: a statement none of whose atomic nodes has a mutex name, and whose
    producers all have a function with an output buffer in the environment,
    comes back from the synthesizer as the object it was: no mutex array is
    allocated, no lock call added, no node made, no mutex recorded. *)
Theorem AddAtomicMutex_mutate_without_mutex_is_identity env s :
  Forall (λ m, m = "") (mutex_names s) →
  first_failure env s = None →
  ∀ st, AddAtomicMutex.mutate env s st = Done (s, st).
Proof. exact (AddAtomicMutex_mutate_no_mutex_name env s). Qed.

Lemma AddAtomicMutex_mutate_without_mutex_witness :
  Forall (λ m, m = "") (mutex_names cleared_output_producer)
  ∧ first_failure env_with_output cleared_output_producer = None
  ∧ AddAtomicMutex.mutate env_with_output cleared_output_producer (MS 7 ∅)
    = Done (cleared_output_producer, MS 7 ∅).
Proof.
  assert (H1 : Forall (λ m, m = "") (mutex_names cleared_output_producer))
    by (simpl; repeat constructor).
  assert (H2 : first_failure env_with_output cleared_output_producer = None)
    by (vm_compute; reflexivity).
  split; [exact H1|]. split; [exact H2|].
  exact (AddAtomicMutex_mutate_without_mutex_is_identity env_with_output
           cleared_output_producer H1 H2 (MS 7 ∅)).
Defined.

(** ** A statement without atomic nodes *)

Lemma RemoveUnnecessaryMutexUse_without_atomic s :
  mutex_names s = [] →
  ∀ st, RemoveUnnecessaryMutexUse.mutate s st = Done (s, st).
Proof.
  induction s; simpl; intros Hnone st;
    try (unfold IRMutator.visit_stmt, bind; rewrite IHs by done;
         rewrite same_as_refl; done);
    try done.
  apply app_eq_nil in Hnone as [H1 H2].
  unfold IRMutator.visit_stmt, bind.
  rewrite IHs1 by done. rewrite IHs2 by done.
  by rewrite !same_as_refl.
Qed.

(** X5: a statement without any atomic node, all of whose producers have a
    function with an output buffer in the environment, goes through the
    whole pass unchanged: [add_atomic_mutex] returns the object it was
    given. *)
Theorem add_atomic_mutex_without_atomic_is_identity s env :
  mutex_names s = [] →
  first_failure env s = None →
  add_atomic_mutex s env = Done s.
Proof.
  intros Hnone Hok. unfold add_atomic_mutex.
  rewrite (RemoveUnnecessaryMutexUse_without_atomic s Hnone).
  rewrite (AddAtomicMutex_mutate_no_mutex_name env s); [done| |done].
  by rewrite Hnone.
Qed.

Lemma add_atomic_mutex_without_atomic_witness :
  mutex_names plain_loop = []
  ∧ first_failure env_with_output plain_loop = None
  ∧ add_atomic_mutex plain_loop env_with_output = Done plain_loop.
Proof.
  assert (H1 : mutex_names plain_loop = []) by reflexivity.
  assert (H2 : first_failure env_with_output plain_loop = None)
    by (vm_compute; reflexivity).
  split; [exact H1|]. split; [exact H2|].
  exact (add_atomic_mutex_without_atomic_is_identity plain_loop env_with_output
           H1 H2).
Defined.

(** ** The mutex array of an output *)

Lemma multiply_by_eval extents : ∀ extent st,
  ∃ e, AddAtomicMutex.multiply_by extent extents st
       = Done (e, MS (ms_next st + length extents) (ms_data st))
       ∧ ∀ I, eval I e = (eval I extent * element_count I extents)%Z.
Proof.
  induction extents as [|x extents IH]; intros extent st; simpl.
  - exists extent. munfold. destruct st; simpl. split; [do 3 f_equal; lia|].
    intros I. unfold element_count. simpl. lia.
  - munfold. simpl.
    destruct (IH (Mul (ms_next st) extent x) (MS (S (ms_next st)) (ms_data st)))
      as (r & -> & Hr).
    exists r. simpl. split; [do 3 f_equal; lia|].
    intros I. rewrite Hr. unfold element_count. simpl. lia.
Qed.

Lemma total_extent_eval extents st :
  ∃ e, AddAtomicMutex.total_extent extents st
       = Done (e, MS (S (ms_next st) + length extents) (ms_data st))
       ∧ ∀ I, eval I e = element_count I extents.
Proof.
  unfold AddAtomicMutex.total_extent. munfold. simpl.
  destruct (multiply_by_eval extents (IntImm (ms_next st) (Int_ 32) 1)
              (MS (S (ms_next st)) (ms_data st))) as (e & -> & He).
  exists e. split; [done|]. intros I. rewrite He. simpl. lia.
Qed.

(** X6: the synthesizer visits the producer node of a function of the
    environment with output buffers, the first one [output_buffer]; the
    body has unshared statement nodes and holds a store to one of the output
    buffers inside a region with a mutex name, the outermost such region
    around the first such store having the mutex name [m], not allocated so
    far; the body is processed to [body'].  Then the producer comes back
    with, as its body, one allocation of [m] around [body'], made by
    [halide_mutex_array_create] on an extent whose value is the product of
    the extents of [output_buffer], the first buffer only, and freed by
    [halide_mutex_array_destroy]. *)
Theorem AddAtomicMutex_producer_gets_one_mutex_array env id name body f
    output_buffer others st p m inner body' st1 :
  env !! name = Some f →
  output_buffers f = output_buffer :: others →
  unshared body →
  enclosing_regions (list_to_set (map buffer_name (output_buffers f))) false body
  = Some ((p, m) :: inner) →
  m ∉ ms_data st →
  AddAtomicMutex.mutate env body
    (MS (S (ms_next st) + length (buffer_extents output_buffer))
       ({[m]} ∪ ms_data st))
  = Done (body', st1) →
  ∃ i1 i2 i3 i4 extent st',
    AddAtomicMutex.mutate env (ProducerConsumer id name true body) st
    = Done (ProducerConsumer i1 name true
              (Allocate i2 m Handle_ Stack [] (UIntImm i3 (UInt_ 1) 1) body'
                 (Some (Call i4 Handle_ "halide_mutex_array_create" [extent] Extern))
                 "halide_mutex_array_destroy"), st')
    ∧ ∀ I, eval I extent = element_count I (buffer_extents output_buffer).
Proof.
  intros Henv Hout Hun Hregions Hm Hbody. simpl.
  rewrite Henv.
  destruct (output_buffers f) as [|b bs] eqn:Hob; [done|].
  injection Hout as -> ->.
  rewrite (FindStoreInAtomicMutex_run_spec _ body Hun).
  unfold finder_result. simpl. simpl in Hregions. rewrite Hregions. simpl.
  unfold bind at 1. unfold get_data.
  destruct (decide (m ∈ ms_data st)) as [|_]; [done|].
  unfold bind at 1. unfold modify_data at 1.
  destruct (total_extent_eval (buffer_extents output_buffer)
              (MS (ms_next st) ({[m]} ∪ ms_data st)))
    as (extent & Hextent & Heval).
  unfold bind at 1. rewrite Hextent. simpl.
  unfold bind at 1. simpl in Hbody. rewrite Hbody.
  do 4 eexists. exists extent. eexists.
  split; [reflexivity|exact Heval].
Qed.

Lemma AddAtomicMutex_producer_witness :
  ∃ body' i1 i2 i3 i4 extent st',
    AddAtomicMutex.mutate env_with_output output_producer (MS 21 ∅)
    = Done (ProducerConsumer i1 "out" true
              (Allocate i2 "out.mutex" Handle_ Stack [] (UIntImm i3 (UInt_ 1) 1) body'
                 (Some (Call i4 Handle_ "halide_mutex_array_create" [extent] Extern))
                 "halide_mutex_array_destroy"), st')
    ∧ ∀ I, eval I extent
           = element_count I [Variable_ 20 (Int_ 32) "out.extent.0"].
Proof.
  eexists.
  eapply (AddAtomicMutex_producer_gets_one_mutex_array env_with_output 1 "out"
            (Atomic 2 "out" "out.mutex"
               (Store 3 "out" (Variable_ 4 (Int_ 32) "v") the_index const_true))
            {| output_buffers :=
                 [ {| buffer_name := "out";
                      buffer_extents := [Variable_ 20 (Int_ 32) "out.extent.0"] |} ] |}
            {| buffer_name := "out";
               buffer_extents := [Variable_ 20 (Int_ 32) "out.extent.0"] |}
            [] (MS 21 ∅) "out" "out.mutex" []).
  - vm_compute. reflexivity.
  - reflexivity.
  - apply (bool_decide_unpack _). vm_compute. reflexivity.
  - vm_compute. reflexivity.
  - apply (bool_decide_unpack _). vm_compute. reflexivity.
  - vm_compute. reflexivity.
Defined.

(** ** Graph visitors that override the visit of a store only *)

Section StoreVisitor.
Context {X : Type}.
Variable visit : Stmt → gv_state X → gv_state X.
Variable result : Stmt → X → X.

Hypothesis visit_default :
  ∀ s, is_store s = false →
       ∀ st, visit s st
             = IRGraphVisitor.visit_stmt IRGraphVisitor.include_expr
                 (IRGraphVisitor.include stmt_id visit) s st.
Hypothesis result_default :
  ∀ s d, is_store s = false →
         result s d = foldl (λ d b, result b d) d (sub_stmts s).
Hypothesis store_ok : ∀ s, is_store s = true → visitor_ok visit result s.

Lemma include_visitor_ok s st :
  visitor_ok visit result s →
  unshared s →
  (∀ i, i ∈ stmt_node_ids s → i ∉ gv_visited st) →
  gv_data (IRGraphVisitor.include stmt_id visit s st) = result s (gv_data st)
  ∧ gv_visited (IRGraphVisitor.include stmt_id visit s st)
      ⊆ gv_visited st ∪ all_ids s.
Proof.
  intros Hok Hun Hfresh. unfold IRGraphVisitor.include.
  rewrite stmt_id_in_node_ids in Hfresh.
  destruct (decide _) as [Hin|Hin].
  { exfalso. apply (Hfresh (stmt_id s)); [constructor|exact Hin]. }
  destruct (Hok (GV ({[stmt_id s]} ∪ gv_visited st) (gv_data st)) Hun) as [Hd Hv].
  - intros i Hi. simpl. destruct Hun as [Hnd _].
    rewrite stmt_id_in_node_ids in Hnd. apply NoDup_cons in Hnd as [Hnd _].
    assert (i ∉ gv_visited st) by (apply Hfresh; by constructor).
    assert (i ≠ stmt_id s) by (intros ->; done).
    set_solver.
  - split; [done|]. simpl in Hv.
    pose proof (stmt_id_in_all_ids s).
    set (v' := gv_visited (visit s _)) in *. clearbody v'.
    clear -Hv H. set_solver.
Qed.

Lemma include_body_visitor_ok s b (st st1 : gv_state X) :
  match s with
  | LetStmt _ _ _ b' | Atomic _ _ _ b' | Allocate _ _ _ _ _ _ b' _ _
  | ProducerConsumer _ _ _ b' | For _ _ _ _ b' => b = b'
  | Block _ a b' => b = a ∨ b = b'
  | _ => False
  end →
  visitor_ok visit result b →
  unshared s →
  (∀ i, i ∈ tail (stmt_node_ids s) → i ∉ gv_visited st) →
  gv_visited st1 ⊆ gv_visited st ∪ list_to_set (stmt_expr_ids s) →
  gv_data (IRGraphVisitor.include stmt_id visit b st1) = result b (gv_data st1)
  ∧ gv_visited (IRGraphVisitor.include stmt_id visit b st1)
      ⊆ gv_visited st ∪ all_ids s.
Proof.
  intros Hb Hok Hun Hfresh Hv1.
  destruct (unshared_body s b Hb Hun) as (Hun' & Htl & Hex & Hall).
  destruct (include_visitor_ok b st1 Hok Hun') as [Hd Hv].
  { intros j Hj. specialize (Hfresh j (Htl j Hj)). specialize (Hex j Hj).
    clear -Hfresh Hex Hv1. set_solver. }
  split; [done|].
  pose proof (stmt_expr_ids_all_ids s) as He.
  set (v' := gv_visited (IRGraphVisitor.include stmt_id visit b st1)) in *.
  clearbody v'. clear -Hv Hv1 Hall He. set_solver.
Qed.

Lemma start_visit (s : Stmt) (st : gv_state X) :
  gv_data st = gv_data st
  ∧ gv_visited st ⊆ gv_visited st ∪ list_to_set (stmt_expr_ids s).
Proof. split; [done|set_solver]. Qed.

Theorem visitor_ok_all s : visitor_ok visit result s.
Proof.
  induction s; try (by apply store_ok); intros st Hun Hfresh;
    rewrite visit_default by done; rewrite result_default by done;
    cbn [IRGraphVisitor.visit_stmt sub_stmts foldl].
  - (* LetStmt *)
    pose proof (start_visit (LetStmt id name value s) st) as Hst.
    apply (include_expr_step value) in Hst as [Hd Hv]; [|simpl; set_solver].
    destruct (include_body_visitor_ok (LetStmt id name value s) s st
                (IRGraphVisitor.include_expr value st) eq_refl IHs Hun Hfresh Hv)
      as [Hd' Hv'].
    split; [|done]. by rewrite Hd', Hd.
  - (* Atomic *)
    pose proof (start_visit (Atomic id producer_name mutex_name s) st) as [_ Hv].
    destruct (include_body_visitor_ok (Atomic id producer_name mutex_name s) s st
                st eq_refl IHs Hun Hfresh Hv) as [Hd' Hv'].
    split; done.
  - (* Allocate *)
    pose proof (start_visit
      (Allocate id name t memory_type extents condition s new_expr free_function)
      st) as Hst.
    apply (include_exprs_step extents) in Hst; [|simpl; set_solver].
    apply (include_expr_step condition) in Hst; [|simpl; set_solver].
    set (st2 := IRGraphVisitor.include_expr condition _) in *.
    assert (Hst3 : gv_data (match new_expr with
                            | Some e => IRGraphVisitor.include_expr e st2
                            | None => st2
                            end) = gv_data st
                   ∧ gv_visited (match new_expr with
                                 | Some e => IRGraphVisitor.include_expr e st2
                                 | None => st2
                                 end)
                       ⊆ gv_visited st
                         ∪ list_to_set (stmt_expr_ids
                             (Allocate id name t memory_type extents condition s
                                new_expr free_function))).
    { destruct new_expr as [e|]; [|exact Hst].
      apply (include_expr_step e) in Hst; [exact Hst|simpl; set_solver]. }
    destruct Hst3 as [Hd Hv].
    destruct (include_body_visitor_ok
                (Allocate id name t memory_type extents condition s new_expr
                   free_function) s st _ eq_refl IHs Hun Hfresh Hv) as [Hd' Hv'].
    split; [|done]. by rewrite Hd', Hd.
  - (* ProducerConsumer *)
    pose proof (start_visit (ProducerConsumer id name is_producer s) st) as [_ Hv].
    destruct (include_body_visitor_ok (ProducerConsumer id name is_producer s) s st
                st eq_refl IHs Hun Hfresh Hv) as [Hd' Hv'].
    split; done.
  - (* Block *)
    destruct (unshared_body (Block id s1 s2) s1 (or_introl eq_refl) Hun)
      as (Hun1 & Htl1 & _ & Hall1).
    destruct (unshared_body (Block id s1 s2) s2 (or_intror eq_refl) Hun)
      as (Hun2 & Htl2 & _ & Hall2).
    pose proof (unshared_Block id s1 s2 Hun) as Hdisj.
    destruct (include_visitor_ok s1 st IHs1 Hun1) as [Hd1 Hv1]; [auto|].
    destruct (include_visitor_ok s2 (IRGraphVisitor.include stmt_id visit s1 st)
                IHs2 Hun2) as [Hd2 Hv2].
    { intros j Hj. specialize (Hfresh j (Htl2 j Hj)). specialize (Hdisj j Hj).
      clear -Hfresh Hdisj Hv1. set_solver. }
    split; [by rewrite Hd2, Hd1|].
    set (v1 := gv_visited (IRGraphVisitor.include stmt_id visit s1 st)) in *.
    set (v2 := gv_visited (IRGraphVisitor.include stmt_id visit s2 _)) in *.
    clearbody v1 v2. clear -Hv1 Hv2 Hall1 Hall2. set_solver.
  - (* Evaluate *)
    pose proof (start_visit (Evaluate id value) st) as Hst.
    apply (include_expr_step value) in Hst as [Hd Hv]; [|simpl; set_solver].
    split; [done|].
    pose proof (stmt_expr_ids_all_ids (Evaluate id value)) as He.
    set (v' := gv_visited (IRGraphVisitor.include_expr value st)) in *.
    clearbody v'. clear -Hv He. set_solver.
  - (* For *)
    pose proof (start_visit (For id name min extent s) st) as Hst.
    apply (include_expr_step min) in Hst; [|simpl; set_solver].
    apply (include_expr_step extent) in Hst as [Hd Hv]; [|simpl; set_solver].
    destruct (include_body_visitor_ok (For id name min extent s) s st
                _ eq_refl IHs Hun Hfresh Hv) as [Hd' Hv'].
    split; [|done]. by rewrite Hd', Hd.
Qed.
End StoreVisitor.

(** ** FindStoreIndex and CollectStoreNames on unshared statements *)

Lemma stores_are_stores s : Forall (λ x, is_store x = true) (stores s).
Proof.
  induction s; simpl; auto using Forall_app_2.
Qed.

Lemma first_store_index_app a b :
  first_store_index (Block 0 a b)
  = match first_store_index a with
    | Some index => Some index
    | None => first_store_index b
    end.
Proof.
  unfold first_store_index. simpl.
  pose proof (stores_are_stores a) as Ha.
  destruct (stores a) as [|x l]; [done|].
  apply Forall_cons in Ha as [Hx _]. by destruct x.
Qed.

Lemma FindStoreIndex_visitor_ok s :
  visitor_ok FindStoreIndex.visit_stmt index_result s.
Proof.
  apply visitor_ok_all.
  - intros s' Hs st. by destruct s'.
  - intros s' d Hs. destruct s'; try done; simpl;
      unfold index_result; destruct d; try done.
    change (first_store_index (Block id s'1 s'2))
      with (first_store_index (Block 0 s'1 s'2)).
    rewrite first_store_index_app.
    by destruct (first_store_index s'1).
  - intros s' Hs st Hun Hfresh. destruct s'; try done. simpl.
    destruct st as [vis [index'|]]; simpl; (split; [done|set_solver]).
Qed.

Lemma FindStoreIndex_run_first_store body :
  unshared body →
  FindStoreIndex.run body = first_store_index body.
Proof.
  intros Hun. unfold FindStoreIndex.run.
  destruct (FindStoreIndex_visitor_ok body (GV ∅ None) Hun) as [Hd _]; [|done].
  intros i _. simpl. set_solver.
Qed.

(** X7: on a statement whose statement nodes are not shared, the index that
    FindStoreIndex returns is the index of the first store in the order of
    the traversal (and undefined when there is no store).  The indices of
    the other stores are not looked at. *)
Theorem FindStoreIndex_run_is_first_store body :
  unshared body →
  FindStoreIndex.run body = first_store_index body.
Proof. exact (FindStoreIndex_run_first_store body). Qed.

Lemma FindStoreIndex_run_witness :
  unshared two_index_body
  ∧ FindStoreIndex.run two_index_body = Some (Variable_ 5 (Int_ 32) "i").
Proof.
  assert (H : unshared two_index_body)
    by (apply (bool_decide_unpack _); vm_compute; reflexivity).
  split; [exact H|].
  exact (FindStoreIndex_run_is_first_store two_index_body H).
Defined.

(** X8: an atomic node with a mutex name, whose body has unshared statement
    nodes and a first store of index [index], comes back as a locked region
    whose lock and unlock calls both have that very index. *)
Theorem AddAtomicMutex_lock_index_is_first_store env i p m body st
    store_id name value index predicate others :
  m ≠ "" →
  unshared body →
  stores body = Store store_id name value index predicate :: others →
  ∃ out st',
    AddAtomicMutex.mutate env (Atomic i p m body) st = Done (out, st')
    ∧ as_locked_region out = Some (index, body, index).
Proof.
  intros Hm Hun Hstores.
  destruct (AddAtomicMutex_visit_Atomic env i p m body st Hm)
    as (out & st' & index' & Hrun & Hlocked & ->).
  rewrite (FindStoreIndex_run_first_store body Hun) in Hlocked.
  unfold first_store_index in Hlocked. rewrite Hstores in Hlocked.
  eauto.
Qed.

Lemma CollectStoreNames_visitor_ok s :
  visitor_ok CollectStoreNames.visit_stmt collect_result s.
Proof.
  apply visitor_ok_all.
  - intros s' Hs st. by destruct s'.
  - intros s' d Hs. destruct s'; try done; simpl.
    unfold collect_result, written_names. simpl.
    by rewrite flat_map_app, rev_app_distr, <- app_assoc.
  - intros s' Hs st Hun Hfresh. destruct s'; try done.
    cbn [CollectStoreNames.visit_stmt].
    assert (Hst : gv_data st = gv_data st
                  ∧ gv_visited st
                      ⊆ gv_visited st
                        ∪ list_to_set (stmt_expr_ids
                                         (Store id name value index predicate)))
      by (split; [done|set_solver]).
    apply (include_expr_step predicate) in Hst; [|simpl; set_solver].
    apply (include_expr_step value) in Hst; [|simpl; set_solver].
    apply (include_expr_step index) in Hst as [Hd Hv]; [|simpl; set_solver].
    split.
    + cbn [gv_data with_data]. by rewrite Hd.
    + cbn [gv_visited with_data].
      pose proof (stmt_expr_ids_all_ids (Store id name value index predicate)) as He.
      set (v' := gv_visited (IRGraphVisitor.include_expr index _)) in *.
      clearbody v'. clear -Hv He. set_solver.
Qed.

(** X9: on a statement whose statement nodes are not shared,
    CollectStoreNames collects the name of every store, once per store, the
    last store first. *)
Theorem CollectStoreNames_run_is_written_names body :
  unshared body →
  CollectStoreNames.run body = rev (written_names body).
Proof.
  intros Hun. unfold CollectStoreNames.run.
  destruct (CollectStoreNames_visitor_ok body (GV ∅ []) Hun) as [Hd _].
  { intros i _. simpl. set_solver. }
  rewrite Hd. unfold collect_result. by rewrite app_nil_r.
Qed.

Lemma AddAtomicMutex_lock_index_witness :
  ∃ out st',
    AddAtomicMutex.mutate ∅ (Atomic 1 "f" "f.mutex" two_index_body) (MS 10 ∅)
    = Done (out, st')
    ∧ as_locked_region out
      = Some (Variable_ 5 (Int_ 32) "i", two_index_body, Variable_ 5 (Int_ 32) "i").
Proof.
  apply (AddAtomicMutex_lock_index_is_first_store ∅ 1 "f" "f.mutex" two_index_body
           (MS 10 ∅) 3 "f.0" (Variable_ 4 (Int_ 32) "a") (Variable_ 5 (Int_ 32) "i")
           const_true
           [Store 7 "f.1" (Variable_ 8 (Int_ 32) "b") (Variable_ 9 (Int_ 32) "j")
              const_true]).
  - discriminate.
  - apply (bool_decide_unpack _). vm_compute. reflexivity.
  - reflexivity.
Defined.

Lemma CollectStoreNames_run_witness :
  unshared two_index_body
  ∧ CollectStoreNames.run two_index_body = [("f.1", tt); ("f.0", tt)].
Proof.
  assert (H : unshared two_index_body)
    by (apply (bool_decide_unpack _); vm_compute; reflexivity).
  split; [exact H|].
  exact (CollectStoreNames_run_is_written_names two_index_body H).
Defined.

(** ** FindAtomicLetBindings on any statement *)

Lemma Scope_pop_push {T} name (value : T) sc :
  Scope.pop name (Scope.push name value sc) = sc.
Proof. unfold Scope.push. simpl. by rewrite String.eqb_refl. Qed.

Lemma bindings_sound_expr_refl names e d : bindings_sound_expr names e d d.
Proof. split; [done|]. split; [done|]. split; [done|]. auto. Qed.

Section BindingsSound.
Variable store_names : Scope.t unit.
#[local] Abbreviation visit_e := (FindAtomicLetBindings.visit_expr store_names).
#[local] Abbreviation include_e := (IRGraphVisitor.include expr_id visit_e).

Lemma include_bindings_sound_expr e :
  (∀ st, bindings_sound_expr store_names e (gv_data st) (gv_data (visit_e e st))) →
  ∀ st, bindings_sound_expr store_names e (gv_data st) (gv_data (include_e e st)).
Proof.
  intros H st. unfold IRGraphVisitor.include.
  destruct (decide _); [apply bindings_sound_expr_refl|].
  apply (H (GV _ (gv_data st))).
Qed.

(** Two expressions in sequence under the same bindings. *)
Lemma bindings_sound_expr_seq a b d d1 d2 (combined : Expr) :
  bindings_sound_expr store_names a d d1 →
  bindings_sound_expr store_names b d1 d2 →
  (∀ sc, value_depends store_names sc a = true →
         value_depends store_names sc combined = true) →
  (∀ sc, value_depends store_names sc b = true →
         value_depends store_names sc combined = true) →
  bindings_sound_expr store_names combined d d2.
Proof.
  intros (Hi1 & Hb1 & Hm1 & Hf1) (Hi2 & Hb2 & Hm2 & Hf2) Ha Hb.
  split; [congruence|]. split; [congruence|]. split; [auto|].
  intros Hd2. destruct (Hf2 Hd2) as [Hd1 | [Hin Hdep]].
  - destruct (Hf1 Hd1) as [Hd | [Hin Hdep]]; [by left|].
    right. split; [done|]. by apply Ha.
  - right. rewrite Hi1 in Hin. split; [done|].
    apply Hb. by rewrite <- Hb1.
Qed.

Lemma bindings_sound_expr_all e :
  ∀ st, bindings_sound_expr store_names e (gv_data st) (gv_data (visit_e e st)).
Proof.
  induction e using Expr_ind'; intros st;
    cbn [FindAtomicLetBindings.visit_expr IRGraphVisitor.visit_expr].
  - apply bindings_sound_expr_refl.
  - apply bindings_sound_expr_refl.
  - (* Variable *)
    destruct (negb (String.eqb (FindAtomicLetBindings.inside_store (gv_data st)) ""))
      eqn:Hin; [|apply bindings_sound_expr_refl].
    destruct (ExprUsesVar.expr_uses_vars _ _ _) eqn:Huses;
      [|apply bindings_sound_expr_refl].
    destruct st as [vis [f inside sc]]; simpl in *.
    split; [done|]. split; [done|]. split; [done|].
    intros _. right. split; [|done].
    intros Hempty. simpl in Hempty. subst inside. simpl in Hin. done.
  - (* Add *)
    apply (bindings_sound_expr_seq e1 e2 _ (gv_data (include_e e1 st))).
    + by apply include_bindings_sound_expr.
    + by apply include_bindings_sound_expr.
    + intros sc H. simpl. by rewrite H.
    + intros sc H. simpl. rewrite H. by rewrite orb_true_r.
  - (* Mul *)
    apply (bindings_sound_expr_seq e1 e2 _ (gv_data (include_e e1 st))).
    + by apply include_bindings_sound_expr.
    + by apply include_bindings_sound_expr.
    + intros sc H. simpl. by rewrite H.
    + intros sc H. simpl. rewrite H. by rewrite orb_true_r.
  - (* Load *)
    apply (bindings_sound_expr_seq e2 e1 _ (gv_data (include_e e2 st))).
    + by apply include_bindings_sound_expr.
    + by apply include_bindings_sound_expr.
    + intros sc H'. simpl. by rewrite H'.
    + intros sc H'. simpl. rewrite H'. by rewrite orb_true_r.
  - (* Call *)
    revert st. induction H as [|a args Ha Hargs IH]; intros st; simpl.
    + apply bindings_sound_expr_refl.
    + apply (bindings_sound_expr_seq a (Call i t n args ct) _
               (gv_data (include_e a st))).
      * by apply include_bindings_sound_expr.
      * apply IH.
      * intros sc H'. simpl. by rewrite H'.
      * intros sc H'. simpl in *. rewrite H'. by rewrite orb_true_r.
  - (* Let *)
    pose proof (include_bindings_sound_expr e1 IHe1 st) as (Hi1 & Hb1 & Hm1 & Hf1).
    set (st1 := include_e e1 st) in *. clearbody st1.
    pose proof (include_bindings_sound_expr e2 IHe2
                  (with_data (FindAtomicLetBindings.bind n e1) st1))
      as (Hi2 & Hb2 & Hm2 & Hf2).
    set (st2 := include_e e2 _) in *. clearbody st2.
    destruct st as [vis [f inside sc]], st1 as [vis1 [f1 inside1 sc1]],
      st2 as [vis2 [f2 inside2 sc2]]. simpl in *. subst.
    split; [done|].
    split; [exact (Scope_pop_push n e1 sc)|].
    split; [simpl; auto|]. simpl.
    intros Hd2. destruct (Hf2 Hd2) as [Hd1 | [Hin Hdep]].
    + destruct (Hf1 Hd1) as [Hd | [Hin Hdep]]; [by left|].
      right. split; [done|]. by rewrite Hdep.
    + right. split; [done|]. rewrite Hdep. by rewrite orb_true_r.
Qed.

#[local] Abbreviation visit_s := (FindAtomicLetBindings.visit_stmt store_names).
#[local] Abbreviation include_s := (IRGraphVisitor.include stmt_id visit_s).

(** Outside of a store an expression changes no field. *)
Lemma include_expr_outside e (st : gv_state FindAtomicLetBindings.fields) :
  FindAtomicLetBindings.inside_store (gv_data st) = "" →
  gv_data (FindAtomicLetBindings.include_expr store_names e st) = gv_data st.
Proof.
  intros Hout. unfold FindAtomicLetBindings.include_expr.
  pose proof (include_bindings_sound_expr e (bindings_sound_expr_all e) st)
    as (Hi & Hb & Hm & Hf).
  set (st' := include_e e st) in *. clearbody st'.
  destruct st as [vis [f inside sc]], st' as [vis' [f' inside' sc']].
  simpl in *. subst. f_equal.
  destruct f, f'; try done.
  - by specialize (Hm eq_refl).
  - destruct (Hf eq_refl) as [|[]]; done.
Qed.

Lemma include_exprs_outside (l : list Expr)
    (st : gv_state FindAtomicLetBindings.fields) :
  FindAtomicLetBindings.inside_store (gv_data st) = "" →
  gv_data (fold_left (λ st e, FindAtomicLetBindings.include_expr store_names e st)
             l st) = gv_data st.
Proof.
  revert st. induction l as [|e l IH]; intros st Hout; simpl; [done|].
  rewrite IH; rewrite include_expr_outside; done.
Qed.

Lemma bindings_sound_stmt_refl s d : bindings_sound_stmt store_names s d d.
Proof. intros Hout. split; [done|]. split; [done|]. split; [done|]. auto. Qed.

Lemma include_bindings_sound_stmt s :
  (∀ st, bindings_sound_stmt store_names s (gv_data st) (gv_data (visit_s s st))) →
  ∀ st, bindings_sound_stmt store_names s (gv_data st) (gv_data (include_s s st)).
Proof.
  intros H st. unfold IRGraphVisitor.include.
  destruct (decide _); [apply bindings_sound_stmt_refl|].
  apply (H (GV _ (gv_data st))).
Qed.

(** A statement below [s] under the bindings of [s]. *)
Lemma bindings_sound_body s b d d' :
  match s with
  | Atomic _ _ _ b' | Allocate _ _ _ _ _ _ b' _ _
  | ProducerConsumer _ _ _ b' | For _ _ _ _ b' => b = b'
  | _ => False
  end →
  bindings_sound_stmt store_names b d d' →
  bindings_sound_stmt store_names s d d'.
Proof.
  intros Hb H Hout. destruct (H Hout) as (Hi & Hbd & Hm & Hf).
  split; [done|]. split; [done|]. split; [done|].
  intros Hd'. destruct (Hf Hd') as [|Hdep]; [by left|right].
  destruct s; try done; by subst.
Qed.

Lemma bindings_sound_stmt_all s :
  ∀ st, bindings_sound_stmt store_names s (gv_data st) (gv_data (visit_s s st)).
Proof.
  induction s; intros st;
    cbn [FindAtomicLetBindings.visit_stmt IRGraphVisitor.visit_stmt].
  - (* LetStmt *)
    intros Hout.
    pose proof (include_expr_outside value st Hout) as Hv.
    set (st1 := FindAtomicLetBindings.include_expr store_names value st) in *.
    clearbody st1.
    pose proof (include_bindings_sound_stmt s IHs
                  (with_data (FindAtomicLetBindings.bind name value) st1)) as Hs.
    set (st2 := include_s s _) in *. clearbody st2.
    destruct st as [vis [f inside sc]], st1 as [vis1 d1],
      st2 as [vis2 [f2 inside2 sc2]].
    simpl in *. subst. simpl in *.
    destruct (Hs eq_refl) as (Hi & Hb & Hm & Hf). simpl in *. subst.
    split; [done|]. split; [exact (Scope_pop_push name value sc)|].
    split; [done|]. done.
  - (* Store *)
    intros Hout.
    pose proof (include_expr_outside predicate st Hout) as Hp.
    set (st1 := FindAtomicLetBindings.include_expr store_names predicate st) in *.
    clearbody st1.
    destruct (Scope.contains name store_names).
    + pose proof (include_bindings_sound_expr value
                    (bindings_sound_expr_all value)
                    (with_data (FindAtomicLetBindings.set_inside_store name) st1))
        as (Hi & Hb & Hm & Hf).
      fold (FindAtomicLetBindings.include_expr store_names) in *.
      set (st2 := FindAtomicLetBindings.include_expr store_names value _) in *.
      clearbody st2.
      set (st3 := with_data (FindAtomicLetBindings.set_inside_store
                               (FindAtomicLetBindings.inside_store (gv_data st1))) st2).
      assert (Hout3 : FindAtomicLetBindings.inside_store (gv_data st3) = "").
      { unfold st3. simpl. by rewrite Hp. }
      rewrite (include_expr_outside index st3 Hout3).
      unfold st3. clear st3 Hout3.
      destruct st as [vis [f inside sc]], st1 as [vis1 d1],
        st2 as [vis2 [f2 inside2 sc2]].
      simpl in *. subst. simpl in *.
      split; [done|]. split; [done|]. split; [done|].
      intros Hf2. destruct (Hf Hf2) as [|[_ Hdep]]; [by left|by right].
    + assert (Hout1 : FindAtomicLetBindings.inside_store (gv_data st1) = "")
        by (by rewrite Hp).
      pose proof (include_expr_outside value st1 Hout1) as Hv.
      set (st2 := FindAtomicLetBindings.include_expr store_names value st1) in *.
      clearbody st2.
      assert (Hout2 : FindAtomicLetBindings.inside_store (gv_data st2) = "")
        by (by rewrite Hv).
      rewrite (include_expr_outside index st2 Hout2), Hv, Hp.
      by apply bindings_sound_stmt_refl.
  - (* Atomic *)
    apply (bindings_sound_body (Atomic id producer_name mutex_name s) s); [done|].
    by apply include_bindings_sound_stmt.
  - (* Allocate *)
    intros Hout.
    set (st3 := match new_expr with Some e => _ | None => _ end).
    assert (gv_data st3 = gv_data st) as Hd3.
    { unfold st3.
      assert (H1 : gv_data (fold_left
                     (λ st e, FindAtomicLetBindings.include_expr store_names e st)
                     extents st) = gv_data st) by (by apply include_exprs_outside).
      set (st1 := fold_left _ extents st) in *. clearbody st1.
      assert (H2 : gv_data (FindAtomicLetBindings.include_expr store_names
                              condition st1) = gv_data st).
      { rewrite include_expr_outside; [done|]. by rewrite H1. }
      set (st2 := FindAtomicLetBindings.include_expr store_names condition st1) in *.
      clearbody st2.
      destruct new_expr as [e|]; [|done].
      rewrite include_expr_outside; [done|]. by rewrite H2. }
    clearbody st3. rewrite <- Hd3 in Hout |- *.
    revert Hout.
    apply (bindings_sound_body
             (Allocate id name t memory_type extents condition s new_expr
                free_function) s); [done|].
    by apply include_bindings_sound_stmt.
  - (* ProducerConsumer *)
    apply (bindings_sound_body (ProducerConsumer id name is_producer s) s); [done|].
    by apply include_bindings_sound_stmt.
  - (* Block *)
    intros Hout.
    destruct (include_bindings_sound_stmt s1 IHs1 st Hout) as (Hi1 & Hb1 & Hm1 & Hf1).
    destruct (include_bindings_sound_stmt s2 IHs2 (include_s s1 st) Hi1)
      as (Hi2 & Hb2 & Hm2 & Hf2).
    split; [done|]. split; [congruence|]. split; [auto|].
    intros Hd2. simpl. destruct (Hf2 Hd2) as [Hd1 | Hdep].
    + destruct (Hf1 Hd1) as [Hd | Hdep]; [by left|].
      right. by rewrite Hdep.
    + right. rewrite Hb1 in Hdep. rewrite Hdep. by rewrite orb_true_r.
  - (* Evaluate *)
    intros Hout. rewrite (include_expr_outside value st Hout).
    by apply bindings_sound_stmt_refl.
  - (* For *)
    intros Hout.
    pose proof (include_expr_outside min st Hout) as H1.
    set (st1 := FindAtomicLetBindings.include_expr store_names min st) in *.
    clearbody st1.
    assert (Hout1 : FindAtomicLetBindings.inside_store (gv_data st1) = "")
      by (by rewrite H1).
    pose proof (include_expr_outside extent st1 Hout1) as H2.
    set (st2 := FindAtomicLetBindings.include_expr store_names extent st1) in *.
    clearbody st2.
    rewrite <- H1, <- H2 in Hout |- *. revert Hout.
    apply (bindings_sound_body (For id name min extent s) s); [done|].
    by apply include_bindings_sound_stmt.
Qed.
End BindingsSound.

Lemma FindAtomicLetBindings_run_sound store_names body :
  FindAtomicLetBindings.run store_names body = true →
  store_depends store_names [] body = true.
Proof.
  intros Hrun. unfold FindAtomicLetBindings.run in Hrun.
  destruct (bindings_sound_stmt_all store_names body
              (GV ∅ (FindAtomicLetBindings.Fields false "" [])) eq_refl)
    as (_ & _ & _ & Hf).
  destruct (Hf Hrun) as [|Hdep]; done.
Qed.

(** X10: FindAtomicLetBindings never reports a let-binding that is not there:
    when it says [found], on any statement and whatever nodes the statement
    shares, the statement has a store whose value contains a variable
    reference that depends on one of the store names through the
    let-bindings active at the reference. *)
Theorem FindAtomicLetBindings_found_is_sound store_names body :
  FindAtomicLetBindings.run store_names body = true →
  store_depends store_names [] body = true.
Proof. exact (FindAtomicLetBindings_run_sound store_names body). Qed.

Lemma FindAtomicLetBindings_found_witness :
  FindAtomicLetBindings.run [("f", tt); ("g", tt)] outer_body = true
  ∧ store_depends [("f", tt); ("g", tt)] [] outer_body = true.
Proof.
  assert (H : FindAtomicLetBindings.run [("f", tt); ("g", tt)] outer_body = true)
    by (vm_compute; reflexivity).
  split; [exact H|].
  exact (FindAtomicLetBindings_found_is_sound [("f", tt); ("g", tt)] outer_body H).
Defined.

(** ** The names CollectStoreNames collects, on any statement *)

Lemma Scope_contains_elem_of n (sc : Scope.t unit) :
  Scope.contains n sc = true ↔ (n, tt) ∈ sc.
Proof.
  unfold Scope.contains.
  induction sc as [|[x []] sc IH]; simpl.
  - split; [done|]. intros H. by apply elem_of_nil in H.
  - destruct (String.eqb_spec x n) as [->|Hne].
    + split; [intros _; by left|done].
    + rewrite IH. split; [intros H; by right|].
      intros H. apply elem_of_cons in H as [[=]|H]; [congruence|done].
Qed.

Lemma CollectStoreNames_collected_are_written s :
  ∀ st n,
    (n, tt) ∈ gv_data (CollectStoreNames.visit_stmt s st) →
    (n, tt) ∈ gv_data st ∨ (n, tt) ∈ written_names s.
Proof.
  assert (Hinc : ∀ s : Stmt,
    (∀ st n, (n, tt) ∈ gv_data (CollectStoreNames.visit_stmt s st) →
             (n, tt) ∈ gv_data st ∨ (n, tt) ∈ written_names s) →
    ∀ st n,
      (n, tt) ∈ gv_data (IRGraphVisitor.include stmt_id
                           CollectStoreNames.visit_stmt s st) →
      (n, tt) ∈ gv_data st ∨ (n, tt) ∈ written_names s).
  { intros s' Hs st n. unfold IRGraphVisitor.include.
    destruct (decide _); [by left|]. apply (Hs (GV _ (gv_data st))). }
  induction s; intros st n;
    cbn [CollectStoreNames.visit_stmt IRGraphVisitor.visit_stmt].
  - intros H. apply (Hinc s IHs) in H. by rewrite include_expr_data in H.
  - cbn [gv_data with_data]. rewrite !include_expr_data.
    unfold Scope.push, written_names. simpl. set_solver.
  - apply (Hinc s IHs).
  - intros H. apply (Hinc s IHs) in H.
    destruct new_expr; by rewrite ?include_expr_data, ?include_exprs_data in H.
  - apply (Hinc s IHs).
  - intros H. apply (Hinc s2 IHs2) in H as [H|H].
    + apply (Hinc s1 IHs1) in H as [H|H]; [by left|right].
      unfold written_names in *. simpl. rewrite flat_map_app. set_solver.
    + right. unfold written_names in *. simpl. rewrite flat_map_app. set_solver.
  - rewrite include_expr_data. by left.
  - intros H. apply (Hinc s IHs) in H. by rewrite !include_expr_data in H.
Qed.

Lemma CollectStoreNames_run_written body n :
  Scope.contains n (CollectStoreNames.run body) = true →
  Scope.contains n (written_names body) = true.
Proof.
  rewrite !Scope_contains_elem_of. unfold CollectStoreNames.run. intros H.
  apply CollectStoreNames_collected_are_written in H as [H|H]; [|done].
  by apply elem_of_nil in H.
Qed.

(** X11: every name that CollectStoreNames collects is the name of a store of
    the statement, whatever nodes the statement shares. *)
Theorem CollectStoreNames_run_sound body n :
  Scope.contains n (CollectStoreNames.run body) = true →
  Scope.contains n (written_names body) = true.
Proof. exact (CollectStoreNames_run_written body n). Qed.

Lemma CollectStoreNames_run_sound_witness :
  Scope.contains "f.1" (CollectStoreNames.run two_index_body) = true
  ∧ Scope.contains "f.1" (written_names two_index_body) = true.
Proof.
  assert (H : Scope.contains "f.1" (CollectStoreNames.run two_index_body) = true)
    by (vm_compute; reflexivity).
  split; [exact H|].
  exact (CollectStoreNames_run_sound two_index_body "f.1" H).
Defined.

(** ** More store names, more dependencies *)

Section Monotone.
Context {T : Type} (vars1 vars2 : Scope.t T).
Hypothesis Hvars :
  ∀ n, Scope.contains n vars1 = true → Scope.contains n vars2 = true.

Lemma expr_uses_mono e :
  ∀ dep1 dep2 : string → bool,
    (∀ n, dep1 n = true → dep2 n = true) →
    ExprUsesVar.expr_uses vars1 dep1 e = true →
    ExprUsesVar.expr_uses vars2 dep2 e = true.
Proof.
  induction e using Expr_ind'; intros dep1 dep2 Hdep; simpl; try done.
  - rewrite !orb_true_iff. intros [H|H]; auto.
  - rewrite !orb_true_iff. intros [H|H]; eauto.
  - rewrite !orb_true_iff. intros [H|H]; eauto.
  - rewrite !orb_true_iff. intros [[[H|H]|H]|H]; eauto.
  - rewrite !orb_true_iff. intros [[Hn|Hn]|Hargs]; auto.
    right. rewrite existsb_exists in *. destruct Hargs as (a & Ha & Hu).
    exists a. split; [done|].
    rewrite Forall_forall in H.
    apply (H a (proj2 (list_elem_of_In _ _) Ha) dep1 dep2 Hdep Hu).
  - rewrite !orb_true_iff. intros [H|H]; [eauto|].
    right. revert H. apply IHe2. intros x.
    destruct (String.eqb x n); [|auto]. by apply IHe1.
Qed.

Lemma name_depends_mono scope :
  ∀ n, ExprUsesVar.name_depends vars1 scope n = true →
       ExprUsesVar.name_depends vars2 scope n = true.
Proof.
  induction scope as [|[x e] rest IH]; intros n; simpl; [done|].
  destruct (String.eqb x n); [|apply IH].
  by apply expr_uses_mono.
Qed.

Lemma expr_uses_vars_mono e scope :
  ExprUsesVar.expr_uses_vars e vars1 scope = true →
  ExprUsesVar.expr_uses_vars e vars2 scope = true.
Proof. apply expr_uses_mono, name_depends_mono. Qed.
End Monotone.

Section MonotoneNames.
Variables names1 names2 : Scope.t unit.
Hypothesis Hnames :
  ∀ n, Scope.contains n names1 = true → Scope.contains n names2 = true.

Lemma value_depends_mono e :
  ∀ sc, value_depends names1 sc e = true → value_depends names2 sc e = true.
Proof.
  induction e using Expr_ind'; intros sc; simpl; try done.
  - by apply expr_uses_vars_mono.
  - rewrite !orb_true_iff. intros [H|H]; auto.
  - rewrite !orb_true_iff. intros [H|H]; auto.
  - rewrite !orb_true_iff. intros [H|H]; auto.
  - rewrite !existsb_exists. intros (a & Ha & Hu). exists a. split; [done|].
    rewrite Forall_forall in H.
    apply (H a (proj2 (list_elem_of_In _ _) Ha) sc Hu).
  - rewrite !orb_true_iff. intros [H|H]; auto.
Qed.

Lemma store_depends_mono s :
  ∀ sc, store_depends names1 sc s = true → store_depends names2 sc s = true.
Proof.
  induction s; intros sc; simpl; auto using value_depends_mono.
  rewrite !orb_true_iff. intros [H|H]; auto.
Qed.
End MonotoneNames.

(** ** Regions without a lifted dependency *)

Lemma analyzer_finds_nothing body :
  has_lifted_dependency body = false →
  FindAtomicLetBindings.run (CollectStoreNames.run body) body = false.
Proof.
  intros Hno. destruct (FindAtomicLetBindings.run _ _) eqn:Hrun; [|done].
  apply FindAtomicLetBindings_run_sound in Hrun.
  apply (store_depends_mono _ (written_names body)) in Hrun.
  - unfold has_lifted_dependency in Hno. congruence.
  - apply CollectStoreNames_run_written.
Qed.

(** X12: the analyzer clears the mutex name of every region whose body has no
    store with a value that depends, through the let-bindings active at the
    reference, on a buffer written by a store of the same body -- on every
    statement, whatever nodes it shares. *)
Theorem RemoveUnnecessaryMutexUse_clears_self_contained_region i p m body st :
  has_lifted_dependency body = false →
  ∃ i' body' st',
    RemoveUnnecessaryMutexUse.mutate (Atomic i p m body) st
    = Done (Atomic i' p "" body', st')
    ∧ cleared_or_kept body body'.
Proof.
  intros Hno. simpl. rewrite (analyzer_finds_nothing body Hno).
  unfold bind at 1, modify_data.
  match goal with |- context [bind _ _ ?st0] =>
    destruct (RemoveUnnecessaryMutexUse_mutate_spec body st0)
      as (body' & st1 & Hbody & Hck) end.
  unfold bind. rewrite Hbody. munfold. eauto.
Qed.

Lemma RemoveUnnecessaryMutexUse_clears_witness :
  has_lifted_dependency self_contained_body = false
  ∧ ∃ i' body' st',
      RemoveUnnecessaryMutexUse.mutate
        (Atomic 1 "hist" "hist.mutex" self_contained_body) (MS 12 ∅)
      = Done (Atomic i' "hist" "" body', st')
      ∧ cleared_or_kept self_contained_body body'.
Proof.
  assert (H : has_lifted_dependency self_contained_body = false) by reflexivity.
  split; [exact H|].
  exact (RemoveUnnecessaryMutexUse_clears_self_contained_region 1 "hist"
           "hist.mutex" self_contained_body (MS 12 ∅) H).
Defined.

(** ** A program whose regions are all self-contained *)

Lemma max_list_lt (l : list nat) (i : nat) : i ∈ l → (i < S (max_list l))%nat.
Proof.
  induction l as [|x l IH]; [intros H; by apply elem_of_nil in H|].
  intros H. apply elem_of_cons in H as [->|H]; simpl; [lia|].
  specialize (IH H). lia.
Qed.

Lemma first_free_id_fresh s env i :
  i ∈ stmt_node_ids s → (i < first_free_id s env)%nat.
Proof.
  intros H. unfold first_free_id. apply max_list_lt. set_solver.
Qed.

Lemma mutate_step_make {X} (node : node_id → Stmt) (st : mut_state X) out st' :
  make node st = Done (out, st') →
  out = node (ms_next st) ∧ st' = MS (S (ms_next st)) (ms_data st).
Proof. unfold make, fresh, bind, ret. by intros [= <- <-]. Qed.

(** With addresses for new nodes above those of the statement, the
    downgrade of a statement whose regions are all self-contained gives a
    statement without mutex name; it is the statement itself or a new
    node. *)
Lemma RemoveUnnecessaryMutexUse_clears_all s :
  Forall (λ r, has_lifted_dependency r.2 = false) (atomic_regions s) →
  ∀ st out st',
    RemoveUnnecessaryMutexUse.mutate s st = Done (out, st') →
    (∀ i, i ∈ stmt_node_ids s → (i < ms_next st)%nat) →
    (ms_next st ≤ ms_next st')%nat
    ∧ (out = s ∨ (ms_next st ≤ stmt_id out)%nat)
    ∧ Forall (λ m, m = "") (mutex_names out).
Proof.
  assert (Hsame : ∀ (b b' : Stmt) (n : nat),
            (b' = b ∨ (n ≤ stmt_id b')%nat) → (stmt_id b < n)%nat →
            IRMutator.same_as b' b = true → b' = b).
  { intros b b' n [->|Hge] Hlt Hs; [done|].
    apply Nat.eqb_eq in Hs. lia. }
  induction s; simpl; intros Hreg st out st' H Hfresh.
  - (* LetStmt *)
    unfold IRMutator.visit_stmt in H.
    apply bind_Done in H as (b & st1 & Hb & H).
    apply IHs in Hb as (Hle & Hor & Hall); [|done|intros j Hj; apply Hfresh; set_solver].
    destruct (IRMutator.same_as b s) eqn:Hs.
    + injection H as <- <-.
      apply (Hsame s b (ms_next st)) in Hs as ->;
        [|done|apply Hfresh; rewrite (stmt_id_in_node_ids s); set_solver].
      split; [done|]. split; [by left|done].
    + apply mutate_step_make in H as [-> ->]. simpl.
      split; [lia|]. split; [right; lia|done].
  - (* Store *)
    unfold IRMutator.visit_stmt, ret in H. injection H as <- <-.
    split; [done|]. split; [by left|]. simpl. constructor.
  - (* Atomic *)
    apply Forall_cons in Hreg as [Hno Hreg]. simpl in Hno.
    rewrite (analyzer_finds_nothing s Hno) in H.
    apply bind_Done in H as ([] & st0 & [= <-] & H).
    apply bind_Done in H as (b & st1 & Hb & H).
    apply IHs in Hb as (Hle & Hor & Hall);
      [|done|intros j Hj; simpl; apply Hfresh; set_solver].
    apply mutate_step_make in H as [-> ->]. simpl in *.
    split; [lia|]. split; [right; lia|]. by constructor.
  - (* Allocate *)
    unfold IRMutator.visit_stmt in H.
    apply bind_Done in H as (b & st1 & Hb & H).
    apply IHs in Hb as (Hle & Hor & Hall); [|done|intros j Hj; apply Hfresh; set_solver].
    destruct (IRMutator.same_as b s) eqn:Hs.
    + injection H as <- <-.
      apply (Hsame s b (ms_next st)) in Hs as ->;
        [|done|apply Hfresh; rewrite (stmt_id_in_node_ids s); set_solver].
      split; [done|]. split; [by left|done].
    + apply mutate_step_make in H as [-> ->]. simpl.
      split; [lia|]. split; [right; lia|done].
  - (* ProducerConsumer *)
    unfold IRMutator.visit_stmt in H.
    apply bind_Done in H as (b & st1 & Hb & H).
    apply IHs in Hb as (Hle & Hor & Hall); [|done|intros j Hj; apply Hfresh; set_solver].
    destruct (IRMutator.same_as b s) eqn:Hs.
    + injection H as <- <-.
      apply (Hsame s b (ms_next st)) in Hs as ->;
        [|done|apply Hfresh; rewrite (stmt_id_in_node_ids s); set_solver].
      split; [done|]. split; [by left|done].
    + apply mutate_step_make in H as [-> ->]. simpl.
      split; [lia|]. split; [right; lia|done].
  - (* Block *)
    apply Forall_app in Hreg as [Hreg1 Hreg2].
    unfold IRMutator.visit_stmt in H.
    apply bind_Done in H as (b1 & st1 & Hb1 & H).
    apply bind_Done in H as (b2 & st2 & Hb2 & H).
    apply IHs1 in Hb1 as (Hle1 & Hor1 & Hall1);
      [|done|intros j Hj; apply Hfresh; set_solver].
    apply IHs2 in Hb2 as (Hle2 & Hor2 & Hall2);
      [|done|intros j Hj; assert (j < ms_next st)%nat by (apply Hfresh; set_solver); lia].
    destruct (IRMutator.same_as b1 s1 && IRMutator.same_as b2 s2) eqn:Hs.
    + injection H as <- <-. apply andb_true_iff in Hs as [Hs1 Hs2].
      apply (Hsame s1 b1 (ms_next st)) in Hs1 as ->;
        [|done|apply Hfresh; rewrite (stmt_id_in_node_ids s1); set_solver].
      apply (Hsame s2 b2 (ms_next st)) in Hs2 as ->.
      * split; [lia|]. split; [by left|]. simpl. by apply Forall_app.
      * destruct Hor2 as [|Hge]; [by left|right; lia].
      * apply Hfresh. rewrite (stmt_id_in_node_ids s2). set_solver.
    + apply mutate_step_make in H as [-> ->]. simpl.
      split; [lia|]. split; [right; lia|]. by apply Forall_app.
  - (* Evaluate *)
    unfold IRMutator.visit_stmt, ret in H. injection H as <- <-.
    split; [done|]. split; [by left|]. simpl. constructor.
  - (* For *)
    unfold IRMutator.visit_stmt in H.
    apply bind_Done in H as (b & st1 & Hb & H).
    apply IHs in Hb as (Hle & Hor & Hall); [|done|intros j Hj; apply Hfresh; set_solver].
    destruct (IRMutator.same_as b s) eqn:Hs.
    + injection H as <- <-.
      apply (Hsame s b (ms_next st)) in Hs as ->;
        [|done|apply Hfresh; rewrite (stmt_id_in_node_ids s); set_solver].
      split; [done|]. split; [by left|done].
    + apply mutate_step_make in H as [-> ->]. simpl.
      split; [lia|]. split; [right; lia|done].
Qed.

Lemma producers_with_outputs_no_failure env s :
  Forall (λ m, m = "") (mutex_names s) →
  (∀ n, n ∈ producer_names s →
        ∃ f, env !! n = Some f ∧ output_buffers f ≠ []) →
  first_failure env s = None.
Proof.
  induction s; simpl; intros Hall Hok; auto.
  - apply Forall_cons in Hall as [-> Hall]. simpl. auto.
  - assert (Hr : FindStoreInAtomicMutex.reads_store_names s = false)
      by (by apply no_mutex_name_not_found).
    rewrite Hr. auto.
  - destruct is_producer; simpl in Hok.
    + destruct (Hok name) as (f & -> & Hout); [set_solver|].
      destruct (output_buffers f); [done|]. apply IHs; [done|]. intros n Hn.
      apply Hok. set_solver.
    + auto.
  - apply Forall_app in Hall as [Hall1 Hall2].
    rewrite IHs1; [apply IHs2; [done|]|done|]; intros n Hn; apply Hok; set_solver.
Qed.

Lemma cleared_or_kept_mutex_arrays s s' :
  cleared_or_kept s s' → mutex_arrays s' = mutex_arrays s.
Proof. induction 1; simpl; congruence. Qed.

(** X13: the whole pass on a program whose atomic regions are all
    self-contained (no store with a value that depends on a buffer written
    in the same body) and whose producers all have a function with an output
    buffer: it completes, and what comes out is the program with every
    mutex name cleared -- no lock call is added and no mutex array is
    allocated. *)
Theorem add_atomic_mutex_self_contained_program s env :
  Forall (λ r, has_lifted_dependency r.2 = false) (atomic_regions s) →
  (∀ n, n ∈ producer_names s →
        ∃ f, env !! n = Some f ∧ output_buffers f ≠ []) →
  ∃ out,
    add_atomic_mutex s env = Done out
    ∧ cleared_or_kept s out
    ∧ Forall (λ m, m = "") (mutex_names out)
    ∧ mutex_arrays out = mutex_arrays s.
Proof.
  intros Hreg Hprod. unfold add_atomic_mutex.
  destruct (RemoveUnnecessaryMutexUse_mutate_spec s (MS (first_free_id s env) ∅))
    as (s1 & st1 & Hs1 & Hck).
  rewrite Hs1.
  destruct (RemoveUnnecessaryMutexUse_clears_all s Hreg _ _ _ Hs1)
    as (_ & _ & Hall).
  { intros i Hi. simpl. by apply first_free_id_fresh. }
  rewrite (AddAtomicMutex_mutate_no_mutex_name env s1 Hall).
  - exists s1. split; [done|]. split; [done|]. split; [done|].
    by apply cleared_or_kept_mutex_arrays.
  - apply producers_with_outputs_no_failure; [done|].
    by rewrite (cleared_or_kept_producer_names s s1 Hck).
Qed.

Lemma add_atomic_mutex_self_contained_witness :
  ∃ out,
    add_atomic_mutex self_contained_program env_with_output = Done out
    ∧ cleared_or_kept self_contained_program out
    ∧ Forall (λ m, m = "") (mutex_names out)
    ∧ mutex_arrays out = mutex_arrays self_contained_program.
Proof.
  apply (add_atomic_mutex_self_contained_program self_contained_program
           env_with_output).
  - simpl. repeat constructor.
  - intros n Hn. simpl in Hn. apply list_elem_of_singleton in Hn as ->.
    eexists. split; [vm_compute; reflexivity|]. simpl. discriminate.
Defined.

(** ** Regions that are not nested *)

Lemma no_surviving_atomic_locked s :
  no_surviving_atomic s = true → all_surviving_locked s = true.
Proof.
  induction s; simpl; auto.
  - intros [-> H]%andb_true_iff. auto.
  - intros [H1 H2]%andb_true_iff. rewrite IHs1, IHs2; auto.
Qed.

Lemma same_as_fresh (b b' : Stmt) (n : nat) :
  (b' = b ∨ (n ≤ stmt_id b')%nat) → (stmt_id b < n)%nat →
  IRMutator.same_as b' b = true → b' = b.
Proof.
  intros [->|Hge] Hlt Hs; [done|]. apply Nat.eqb_eq in Hs. lia.
Qed.

Ltac default_visit IH Hfresh H :=
  unfold IRMutator.visit_stmt in H;
  let b := fresh "b" in
  let st1 := fresh "st1" in
  let Hb := fresh "Hb" in
  let Hle := fresh "Hle" in
  let Hor := fresh "Hor" in
  let Hall := fresh "Hall" in
  let Hs := fresh "Hs" in
  apply bind_Done in H as (b & st1 & Hb & H);
  apply IH in Hb as (Hle & Hor & Hall);
  [|done|intros ? ?; apply Hfresh; set_solver];
  match type of H with
  | (if IRMutator.same_as _ ?s then _ else _) _ = _ =>
      destruct (IRMutator.same_as b s) eqn:Hs;
      [ injection H as <- <-;
        apply (same_as_fresh s b _ Hor) in Hs as ->;
        [|apply Hfresh; rewrite (stmt_id_in_node_ids s); set_solver];
        split; [done|]; split; [by left|done]
      | apply mutate_step_make in H as [-> ->]; simpl;
        split; [lia|]; split; [right; lia|done] ]
  end.

Lemma AddAtomicMutex_mutate_locks env s :
  regions_not_nested s →
  ∀ st out st',
    AddAtomicMutex.mutate env s st = Done (out, st') →
    nodes_below s st →
    (ms_next st ≤ ms_next st')%nat
    ∧ (out = s ∨ (ms_next st ≤ stmt_id out)%nat)
    ∧ all_surviving_locked out = true.
Proof.
  unfold regions_not_nested, nodes_below.
  induction s; simpl; intros Hreg st out st' H Hfresh.
  - default_visit IHs Hfresh H.
  - unfold IRMutator.visit_stmt, ret in H. injection H as <- <-. auto.
  - (* Atomic *)
    apply Forall_cons in Hreg as [Hno Hreg]. simpl in Hno.
    destruct (String.eqb mutex_name "") eqn:Hname.
    + apply String.eqb_eq in Hname as ->. default_visit IHs Hfresh H.
    + assert (Hbody : all_surviving_locked s = true).
      { apply no_surviving_atomic_locked, Hno. intros ->. done. }
      apply bind_Done in H as (index & st1 & Hindex & H).
      assert (Hst1 : (ms_next st ≤ ms_next st1)%nat).
      { destruct (FindStoreIndex.run s).
        - unfold ret in Hindex. by injection Hindex as <- <-.
        - unfold make, fresh, bind, ret in Hindex. injection Hindex as <- <-.
          simpl. lia. }
      repeat mutate_step IHs. simpl.
      split; [lia|]. split; [right; lia|].
      rewrite Hname, !String.eqb_refl, Nat.eqb_refl. simpl. done.
  - (* Allocate *)
    assert (Hdef : ∀ st out st',
      IRMutator.visit_stmt (AddAtomicMutex.mutate env)
        (Allocate id name t memory_type extents condition s new_expr free_function)
        st = Done (out, st') →
      (∀ i, i ∈ id :: stmt_node_ids s → (i < ms_next st)%nat) →
      (ms_next st ≤ ms_next st')%nat
      ∧ (out = Allocate id name t memory_type extents condition s new_expr
                 free_function ∨ (ms_next st ≤ stmt_id out)%nat)
      ∧ all_surviving_locked out = true).
    { clear H Hfresh. intros st0 out0 st0' H Hfresh. default_visit IHs Hfresh H. }
    destruct (FindStoreInAtomicMutex.reads_store_names s); [done|].
    destruct (negb _); [by apply Hdef in H|].
    apply bind_Done in H as (allocated & st1 & [= <- <-] & H).
    destruct (decide _) as [Hin|Hin]; [by apply Hdef in H|].
    apply bind_Done in H as ([] & st2 & [= <-] & H).
    apply bind_Done in H as (body & st3 & Hbody & H).
    apply bind_Done in H as (extent & st4 & Hextent & H).
    apply bind_Done in H as (body' & st5 & Halloc & H).
    apply mutate_step_make in H as [-> ->].
    apply IHs in Hbody as (Hle & _ & Hall);
      [|done|intros j Hj; simpl; apply Hfresh; set_solver].
    destruct (total_extent_done extents st3) as [e He].
    rewrite He in Hextent. injection Hextent as <- <-.
    match type of Halloc with
    | AddAtomicMutex.allocate_mutex ?m _ _ ?st0 = _ =>
        destruct (allocate_mutex_done m e body st0) as (i & Hi & ->)
    end.
    rewrite Hi in Halloc. injection Halloc as <- <-. simpl in *.
    split; [lia|]. split; [right; lia|done].
  - (* ProducerConsumer *)
    assert (Hdef : ∀ st out st',
      IRMutator.visit_stmt (AddAtomicMutex.mutate env)
        (ProducerConsumer id name is_producer s) st = Done (out, st') →
      (∀ i, i ∈ id :: stmt_node_ids s → (i < ms_next st)%nat) →
      (ms_next st ≤ ms_next st')%nat
      ∧ (out = ProducerConsumer id name is_producer s
         ∨ (ms_next st ≤ stmt_id out)%nat)
      ∧ all_surviving_locked out = true).
    { clear H Hfresh. intros st0 out0 st0' H Hfresh. default_visit IHs Hfresh H. }
    destruct is_producer; simpl in H; [|by apply Hdef in H].
    destruct (env !! name) as [f|]; [|done].
    destruct (output_buffers f) as [|output_buffer bs]; [done|].
    destruct (negb _); [by apply Hdef in H|].
    apply bind_Done in H as (allocated & st1 & [= <- <-] & H).
    destruct (decide _) as [Hin|Hin]; [by apply Hdef in H|].
    apply bind_Done in H as ([] & st2 & [= <-] & H).
    apply bind_Done in H as (extent & st3 & Hextent & H).
    apply bind_Done in H as (body & st4 & Hbody & H).
    apply bind_Done in H as (body' & st5 & Halloc & H).
    apply mutate_step_make in H as [-> ->].
    match type of Hextent with
    | AddAtomicMutex.total_extent ?l ?st0 = _ =>
        destruct (total_extent_done l st0) as [e He]
    end.
    rewrite He in Hextent. injection Hextent as <- <-.
    apply IHs in Hbody as (Hle & _ & Hall);
      [|done|intros j Hj; simpl;
             assert (j < ms_next st)%nat by (apply Hfresh; set_solver); lia].
    match type of Halloc with
    | AddAtomicMutex.allocate_mutex ?m _ _ ?st0 = _ =>
        destruct (allocate_mutex_done m e body st0) as (i & Hi & ->)
    end.
    rewrite Hi in Halloc. injection Halloc as <- <-. simpl in *.
    split; [lia|]. split; [right; lia|done].
  - (* Block *)
    apply Forall_app in Hreg as [Hreg1 Hreg2].
    unfold IRMutator.visit_stmt in H.
    apply bind_Done in H as (b1 & st1 & Hb1 & H).
    apply bind_Done in H as (b2 & st2 & Hb2 & H).
    apply IHs1 in Hb1 as (Hle1 & Hor1 & Hall1);
      [|done|intros j Hj; apply Hfresh; set_solver].
    apply IHs2 in Hb2 as (Hle2 & Hor2 & Hall2);
      [|done|intros j Hj; assert (j < ms_next st)%nat by (apply Hfresh; set_solver); lia].
    destruct (IRMutator.same_as b1 s1 && IRMutator.same_as b2 s2) eqn:Hs.
    + injection H as <- <-. apply andb_true_iff in Hs as [Hs1 Hs2].
      apply (same_as_fresh s1 b1 _ Hor1) in Hs1 as ->;
        [|apply Hfresh; rewrite (stmt_id_in_node_ids s1); set_solver].
      apply (same_as_fresh s2 b2 (ms_next st)) in Hs2 as ->.
      * split; [lia|]. split; [by left|]. simpl. by rewrite Hall1, Hall2.
      * destruct Hor2 as [|Hge]; [by left|right; lia].
      * apply Hfresh. rewrite (stmt_id_in_node_ids s2). set_solver.
    + apply mutate_step_make in H as [-> ->]. simpl.
      split; [lia|]. split; [right; lia|]. by rewrite Hall1, Hall2.
  - unfold IRMutator.visit_stmt, ret in H. injection H as <- <-. auto.
  - default_visit IHs Hfresh H.
Qed.

(** X14: with addresses for new nodes above those of the statement, the
    synthesizer turns a statement in which no atomic node with a mutex name
    has another one in its body into one in which every atomic node with a
    mutex name is a locked region: a lock call on the mutex array of that
    name, the body, and an unlock call with the same index. *)
Theorem AddAtomicMutex_mutate_locks_regions env s st out st' :
  regions_not_nested s →
  nodes_below s st →
  AddAtomicMutex.mutate env s st = Done (out, st') →
  all_surviving_locked out = true.
Proof.
  intros Hreg Hbelow H.
  by destruct (AddAtomicMutex_mutate_locks env s Hreg st out st' H Hbelow)
    as (_ & _ & Hall).
Qed.

Lemma AddAtomicMutex_mutate_locks_witness :
  regions_not_nested output_producer
  ∧ nodes_below output_producer (MS 21 (∅ : AddAtomicMutex.fields))
  ∧ ∃ out st',
      AddAtomicMutex.mutate env_with_output output_producer (MS 21 ∅)
      = Done (out, st')
      ∧ mutex_names out = ["out.mutex"]
      ∧ all_surviving_locked out = true.
Proof.
  assert (H1 : regions_not_nested output_producer).
  { unfold regions_not_nested. simpl. repeat constructor. }
  assert (H2 : nodes_below output_producer (MS 21 (∅ : AddAtomicMutex.fields))).
  { intros i Hi. simpl in *.
    repeat (apply elem_of_cons in Hi as [->|Hi]; [lia|]).
    by apply elem_of_nil in Hi. }
  split; [exact H1|]. split; [exact H2|].
  do 2 eexists. split; [vm_compute; reflexivity|].
  split; [reflexivity|].
  eapply (AddAtomicMutex_mutate_locks_regions env_with_output output_producer
            (MS 21 ∅) _ _ H1 H2).
  vm_compute. reflexivity.
Defined.

Lemma cleared_or_kept_no_surviving s s' :
  cleared_or_kept s s' →
  no_surviving_atomic s = true → no_surviving_atomic s' = true.
Proof.
  induction 1; simpl; auto.
  - intros [Hm Hb]%andb_true_iff. apply String.eqb_eq in Hm as ->.
    destruct H as [->| ->]; simpl; auto.
  - intros [H1 H2]%andb_true_iff. rewrite IHcleared_or_kept1, IHcleared_or_kept2; auto.
Qed.

Lemma cleared_or_kept_not_nested s s' :
  cleared_or_kept s s' → regions_not_nested s → regions_not_nested s'.
Proof.
  unfold regions_not_nested.
  induction 1; simpl; auto.
  - intros [Hhead Htail]%Forall_cons. simpl in Hhead.
    apply Forall_cons. split; [|auto]. simpl. intros Hne.
    apply (cleared_or_kept_no_surviving body body'); [done|].
    apply Hhead. by destruct H as [->| ->].
  - intros [H1 H2]%Forall_app. apply Forall_app. auto.
Qed.

Lemma RemoveUnnecessaryMutexUse_mutate_below s :
  ∀ st out st',
    RemoveUnnecessaryMutexUse.mutate s st = Done (out, st') →
    nodes_below s st →
    (ms_next st ≤ ms_next st')%nat ∧ nodes_below out st'.
Proof.
  unfold nodes_below.
  assert (Hdef : ∀ (node : Stmt → node_id → Stmt) (whole b : Stmt) st out st',
    (∀ b' i, stmt_node_ids (node b' i) = i :: stmt_node_ids b') →
    (∀ st out st',
       RemoveUnnecessaryMutexUse.mutate b st = Done (out, st') →
       (∀ i, i ∈ stmt_node_ids b → (i < ms_next st)%nat) →
       (ms_next st ≤ ms_next st')%nat
       ∧ ∀ i, i ∈ stmt_node_ids out → (i < ms_next st')%nat) →
    (∀ i, i ∈ stmt_node_ids b → i ∈ stmt_node_ids whole) →
    (body' <- RemoveUnnecessaryMutexUse.mutate b ;;
     if IRMutator.same_as body' b then ret whole
     else make (node body')) st = Done (out, st') →
    (∀ i, i ∈ stmt_node_ids whole → (i < ms_next st)%nat) →
    (ms_next st ≤ ms_next st')%nat
    ∧ ∀ i, i ∈ stmt_node_ids out → (i < ms_next st')%nat).
  { intros node whole b st out st' Hnode IH Hsub H Hfresh.
    apply bind_Done in H as (b' & st1 & Hb & H).
    apply IH in Hb as [Hle Hout]; [|intros i Hi; apply Hfresh; auto].
    destruct (IRMutator.same_as b' b).
    - unfold ret in H. injection H as <- <-. split; [done|].
      intros i Hi. apply Hfresh in Hi. lia.
    - apply mutate_step_make in H as [-> ->]. simpl. split; [lia|].
      intros i Hi. rewrite Hnode in Hi.
      apply elem_of_cons in Hi as [->|Hi]; [lia|]. apply Hout in Hi. lia. }
  induction s; simpl; intros st out st' H Hfresh.
  - revert H Hfresh.
    apply (Hdef (λ b i, LetStmt i name value b) (LetStmt id name value s) s);
      [done|exact IHs|set_solver].
  - unfold IRMutator.visit_stmt, ret in H. injection H as <- <-. auto.
  - destruct (FindAtomicLetBindings.run _ _).
    + revert H Hfresh.
      apply (Hdef (λ b i, Atomic i producer_name mutex_name b)
               (Atomic id producer_name mutex_name s) s);
        [done|exact IHs|set_solver].
    + apply bind_Done in H as ([] & st0 & [= <-] & H).
      apply bind_Done in H as (b & st1 & Hb & H).
      apply IHs in Hb as [Hle Hout];
        [|intros i Hi; simpl; apply Hfresh; set_solver].
      apply mutate_step_make in H as [-> ->]. simpl in *. split; [lia|].
      intros i Hi. apply elem_of_cons in Hi as [->|Hi]; [lia|].
      apply Hout in Hi. lia.
  - revert H Hfresh.
    apply (Hdef (λ b i, Allocate i name t memory_type extents condition b
                          new_expr free_function)
             (Allocate id name t memory_type extents condition s new_expr
                free_function) s);
      [done|exact IHs|set_solver].
  - revert H Hfresh.
    apply (Hdef (λ b i, ProducerConsumer i name is_producer b)
             (ProducerConsumer id name is_producer s) s);
      [done|exact IHs|set_solver].
  - unfold IRMutator.visit_stmt in H.
    apply bind_Done in H as (b1 & st1 & Hb1 & H).
    apply bind_Done in H as (b2 & st2 & Hb2 & H).
    apply IHs1 in Hb1 as [Hle1 Hout1];
      [|intros i Hi; apply Hfresh; set_solver].
    apply IHs2 in Hb2 as [Hle2 Hout2];
      [|intros i Hi; assert (i < ms_next st)%nat by (apply Hfresh; set_solver); lia].
    destruct (_ && _).
    + unfold ret in H. injection H as <- <-. split; [lia|].
      intros i Hi. apply Hfresh in Hi. lia.
    + apply mutate_step_make in H as [-> ->]. simpl. split; [lia|].
      intros i Hi. apply elem_of_cons in Hi as [->|Hi]; [lia|].
      apply elem_of_app in Hi as [Hi|Hi]; [apply Hout1 in Hi|apply Hout2 in Hi]; lia.
  - unfold IRMutator.visit_stmt, ret in H. injection H as <- <-. auto.
  - revert H Hfresh.
    apply (Hdef (λ b i, For i name min extent b) (For id name min extent s) s);
      [done|exact IHs|set_solver].
Qed.

(** X15: the whole pass, on a program in which no atomic node with a mutex
    name has another one in its body: when it completes, every atomic node
    of the result that still has a mutex name is a locked region, with a
    lock call before its body and an unlock call with the same index after
    it. *)
Theorem add_atomic_mutex_locks_regions s env out :
  regions_not_nested s →
  add_atomic_mutex s env = Done out →
  all_surviving_locked out = true.
Proof.
  intros Hreg. unfold add_atomic_mutex.
  destruct (RemoveUnnecessaryMutexUse_mutate_spec s (MS (first_free_id s env) ∅))
    as (s1 & st1 & Hs1 & Hck).
  rewrite Hs1.
  destruct (RemoveUnnecessaryMutexUse_mutate_below s _ _ _ Hs1) as [_ Hbelow].
  { intros i Hi. simpl. by apply first_free_id_fresh. }
  destruct (AddAtomicMutex.mutate env s1 (MS (ms_next st1) ∅))
    as [[out' st2]| | |] eqn:H2; try done.
  intros [= <-].
  apply (AddAtomicMutex_mutate_locks env s1
           (cleared_or_kept_not_nested s s1 Hck Hreg) _ _ _ H2).
  exact Hbelow.
Qed.

Lemma add_atomic_mutex_locks_witness :
  regions_not_nested output_update
  ∧ ∃ out,
      add_atomic_mutex output_update env_g = Done out
      ∧ mutex_names out = ["g.mutex"]
      ∧ all_surviving_locked out = true.
Proof.
  assert (H1 : regions_not_nested output_update).
  { unfold regions_not_nested. simpl. repeat constructor. }
  split; [exact H1|].
  eexists. split; [vm_compute; reflexivity|].
  split; [reflexivity|].
  eapply (add_atomic_mutex_locks_regions output_update env_g _ H1).
  vm_compute. reflexivity.
Defined.

(** ** The set of the finder of an allocation *)

Section SameVisited.
Context {X : Type}.
Implicit Types st : gv_state X.

Lemma include_expr_with_data (f : X → X) e : ∀ st,
  IRGraphVisitor.include_expr e (with_data f st)
  = with_data f (IRGraphVisitor.include_expr e st).
Proof.
  assert (Hinc : ∀ e : Expr,
    (∀ st, IRGraphVisitor.accept_expr e (with_data f st)
           = with_data f (IRGraphVisitor.accept_expr e st)) →
    ∀ st, IRGraphVisitor.include_expr e (with_data f st)
          = with_data f (IRGraphVisitor.include_expr e st)).
  { intros e0 H st. unfold IRGraphVisitor.include_expr, IRGraphVisitor.include.
    simpl. destruct (decide _); [done|].
    apply (H (GV _ (gv_data st))). }
  intros st. apply Hinc. clear st.
  induction e using Expr_ind'; intros st; simpl;
    change (IRGraphVisitor.include expr_id IRGraphVisitor.accept_expr)
      with (@IRGraphVisitor.include_expr X);
    try done;
    try (by rewrite Hinc, Hinc).
  revert st. induction H as [|a args Ha Hargs IH]; intros st; simpl; [done|].
  rewrite (Hinc a Ha). apply IH.
Qed.

Lemma include_expr_same_visited e st1 st2 :
  gv_visited st1 = gv_visited st2 →
  gv_visited (IRGraphVisitor.include_expr e st1)
  = gv_visited (IRGraphVisitor.include_expr e st2).
Proof.
  destruct st1 as [v d1], st2 as [v2 d2]. simpl. intros <-.
  change (GV v d2) with (with_data (λ _, d2) (GV v d1)).
  by rewrite include_expr_with_data.
Qed.
End SameVisited.

Section FinderBehind.
Variables names all_names : gset string.
#[local] Abbreviation visit1 := (FindStoreInAtomicMutex.visit_stmt names).
#[local] Abbreviation visit2 := (FindStoreInAtomicMutex.visit_stmt all_names).

Lemma finder_behind_expr e st1 st2 :
  finder_behind st1 st2 →
  finder_behind (IRGraphVisitor.include_expr e st1)
    (IRGraphVisitor.include_expr e st2).
Proof.
  intros [Hv Hd]. split; [by apply include_expr_same_visited|].
  by rewrite !include_expr_data.
Qed.

Lemma finder_behind_exprs (l : list Expr) : ∀ st1 st2,
  finder_behind st1 st2 →
  finder_behind (fold_left (λ st e, IRGraphVisitor.include_expr e st) l st1)
    (fold_left (λ st e, IRGraphVisitor.include_expr e st) l st2).
Proof.
  induction l as [|e l IH]; intros st1 st2 H; simpl; [done|].
  by apply IH, finder_behind_expr.
Qed.

Lemma finder_behind_include s :
  (∀ st1 st2, finder_behind st1 st2 →
              finder_behind (visit1 s st1) (visit2 s st2)) →
  ∀ st1 st2, finder_behind st1 st2 →
             finder_behind (IRGraphVisitor.include stmt_id visit1 s st1)
               (IRGraphVisitor.include stmt_id visit2 s st2).
Proof.
  intros H st1 st2 [Hv Hd]. unfold IRGraphVisitor.include. rewrite Hv.
  destruct (decide _); [by split|].
  apply H. split; [done|]. simpl. done.
Qed.

Lemma found_stays s st :
  FindStoreInAtomicMutex.found (gv_data st) = true →
  FindStoreInAtomicMutex.found
    (gv_data (IRGraphVisitor.include stmt_id visit2 s st)) = true.
Proof.
  intros H.
  destruct (include_finder_sound all_names s (finder_sound_all all_names s) st)
    as (_ & Hsame & _).
  by rewrite (Hsame H).
Qed.

Lemma finder_behind_all s :
  FindStoreInAtomicMutex.stored_names s ⊆ all_names →
  ∀ st1 st2, finder_behind st1 st2 →
             finder_behind (visit1 s st1) (visit2 s st2).
Proof.
  induction s; intros Hsub st1 st2 HR;
    cbn [FindStoreInAtomicMutex.visit_stmt IRGraphVisitor.visit_stmt];
    cbn [FindStoreInAtomicMutex.stored_names] in Hsub.
  - (* LetStmt *)
    apply finder_behind_include; [by apply IHs|]. by apply finder_behind_expr.
  - (* Store *)
    do 3 apply finder_behind_expr.
    destruct HR as [Hv Hd]. destruct st1 as [v1 [f1 p1 m1 a1]].
    destruct st2 as [v2 [f2 p2 m2 a2]]. simpl in *. subst v2.
    destruct Hd as [->|[= -> -> -> ->]].
    + destruct a1, a2, (decide (name ∈ names)), (decide (name ∈ all_names));
        (split; [done|by left]).
    + destruct a2; simpl; [|by split; [|right]].
      destruct (decide (name ∈ all_names)) as [_|Hn]; [|set_solver].
      destruct (decide (name ∈ names)); (split; [done|by left]).
  - (* Atomic *)
    destruct HR as [Hv Hd].
    destruct (FindStoreInAtomicMutex.found (gv_data st2)) eqn:Hf2.
    + (* the second finder has found a store *)
      simpl.
      assert (HR' : ∀ st1', gv_visited st1' = gv_visited st1 →
                finder_behind (IRGraphVisitor.include stmt_id visit1 s st1')
                  (IRGraphVisitor.include stmt_id visit2 s st2)
                ∧ FindStoreInAtomicMutex.found
                    (gv_data (IRGraphVisitor.include stmt_id visit2 s st2)) = true).
      { intros st1' Hv'. split; [|by apply found_stays].
        apply finder_behind_include; [by apply IHs|].
        split; [congruence|by left]. }
      destruct (negb (FindStoreInAtomicMutex.found (gv_data st1))
                && negb (String.eqb mutex_name "")).
      * destruct (HR' (with_data (FindStoreInAtomicMutex.set_in_atomic_mutex true) st1)
                    eq_refl) as [[Hv' _] Hf'].
        split; [|by left].
        set (r1 := IRGraphVisitor.include stmt_id visit1 s _) in *. clearbody r1.
        destruct (FindStoreInAtomicMutex.found (gv_data r1)); simpl; exact Hv'.
      * destruct (HR' st1 eq_refl) as [[Hv' _] Hf'].
        split; [done|by left].
    + destruct Hd as [|Hd]; [done|].
      assert (st1 = st2) as -> by (destruct st1, st2; simpl in *; congruence).
      rewrite Hf2. simpl.
      destruct (negb (String.eqb mutex_name "")).
      * pose proof (finder_behind_include s (λ a b, IHs Hsub a b)
                      (with_data (FindStoreInAtomicMutex.set_in_atomic_mutex true) st2)
                      (with_data (FindStoreInAtomicMutex.set_in_atomic_mutex true) st2))
          as [Hv' Hd'].
        { split; [done|by right]. }
        set (r1 := IRGraphVisitor.include stmt_id visit1 s _) in *.
        set (r2 := IRGraphVisitor.include stmt_id visit2 s _) in *.
        clearbody r1 r2.
        destruct Hd' as [Hfound|Heq].
        -- rewrite Hfound. split; [|by left].
           destruct (FindStoreInAtomicMutex.found (gv_data r1)); simpl; exact Hv'.
        -- assert (r1 = r2) as -> by (destruct r1, r2; simpl in *; congruence).
           split; [done|by right].
      * apply finder_behind_include; [by apply IHs|]. split; [done|by right].
  - (* Allocate *)
    apply finder_behind_include; [by apply IHs|].
    destruct new_expr;
      repeat apply finder_behind_expr; by apply finder_behind_exprs.
  - (* ProducerConsumer *)
    apply finder_behind_include; [by apply IHs|]. done.
  - (* Block *)
    apply finder_behind_include; [apply IHs2; set_solver|].
    apply finder_behind_include; [apply IHs1; set_solver|]. done.
  - (* Evaluate *)
    by apply finder_behind_expr.
  - (* For *)
    apply finder_behind_include; [by apply IHs|].
    by do 2 apply finder_behind_expr.
Qed.
End FinderBehind.

(** Whatever names the finder looks for, it finds a store only after it has
    read its set. *)
Lemma FindStoreInAtomicMutex_found_reads names body :
  FindStoreInAtomicMutex.found (FindStoreInAtomicMutex.run names body) = true →
  FindStoreInAtomicMutex.reads_store_names body = true.
Proof.
  unfold FindStoreInAtomicMutex.reads_store_names, FindStoreInAtomicMutex.run.
  intros Hfound.
  destruct (finder_behind_all names (FindStoreInAtomicMutex.stored_names body)
              body (reflexivity _)
              (GV ∅ (FindStoreInAtomicMutex.Fields false "" "" false))
              (GV ∅ (FindStoreInAtomicMutex.Fields false "" "" false)))
    as [_ [H|H]]; [split; [done|by right]|done|].
  by rewrite <- H.
Qed.

(** X16: the visit of an allocation node never allocates a mutex array: a
    visit that completes is the default visit of the node, which rebuilds
    it around its processed body.  The branch that allocates needs the
    finder to find a store, and the finder finds none without reading its
    set, which has been destroyed. *)
Theorem AddAtomicMutex_allocation_never_gets_mutex_array env id name t
    memory_type extents condition body new_expr free_function st r :
  AddAtomicMutex.mutate env
    (Allocate id name t memory_type extents condition body new_expr free_function)
    st = Done r →
  FindStoreInAtomicMutex.reads_store_names body = false
  ∧ IRMutator.visit_stmt (AddAtomicMutex.mutate env)
      (Allocate id name t memory_type extents condition body new_expr
         free_function) st = Done r.
Proof.
  simpl. intros H.
  destruct (FindStoreInAtomicMutex.reads_store_names body) eqn:Hreads; [done|].
  split; [done|].
  destruct (FindStoreInAtomicMutex.found (FindStoreInAtomicMutex.run {[name]} body))
    eqn:Hfound; [|done].
  apply FindStoreInAtomicMutex_found_reads in Hfound. congruence.
Qed.

Lemma AddAtomicMutex_allocation_witness :
  ∃ r,
    AddAtomicMutex.mutate ∅ local_plain (MS 22 ∅) = Done r
    ∧ FindStoreInAtomicMutex.reads_store_names
        (Store 7 "g" (Variable_ 8 (Int_ 32) "v") the_index const_true) = false
    ∧ IRMutator.visit_stmt (AddAtomicMutex.mutate ∅) local_plain (MS 22 ∅) = Done r.
Proof.
  eexists. split; [vm_compute; reflexivity|].
  eapply (AddAtomicMutex_allocation_never_gets_mutex_array ∅ 20 "g" (Int_ 32) Heap
            [Variable_ 21 (Int_ 32) "w"] const_true
            (Store 7 "g" (Variable_ 8 (Int_ 32) "v") the_index const_true)
            None "" (MS 22 ∅)).
  vm_compute. reflexivity.
Defined.
